(** * NewBackupSystem: a shallow embedding of the backup / upload / comparison core

    The development follows the layout of the repository's backend:
    - [Js]          the few JavaScript primitives the services rely on;
    - [Comparator]  services/comparisonService.js;
    - [JobTracker]  services/backupStatusService.js and the upload status service;
    - [Reconciler]  controllers/comparisonController.js, [upsertTableData];
    - [Uploader]    services/uploadService.js, [uploadTableRecords];
    - [FileCompare] controllers/comparisonController.js, [compareBackupFiles];
    - [HttpListing] services/fhsFilesService.js, [getAllFilesFromHttp].

    Database and network calls are modelled by explicit state passing: a
    table is a list of rows, a Prisma model is a finite map keyed by job id,
    and a failing call is an error value that the embedded [try]/[catch]
    inspects exactly where the source does. *)

From stdpp Require Import base option list gmap strings pretty sorting fin_maps.
From Stdlib Require Import ZArith Lia Ascii.

Set Warnings "-register-all".

Local Open Scope Z_scope.

(* ===================================================================== *)
(** ** JavaScript primitives *)
(* ===================================================================== *)

Module Js.

(** [s.startsWith(p)] *)
Fixpoint startsWith (p s : string) : bool :=
  match p, s with
  | EmptyString, _ => true
  | String a p', String b s' => if Ascii.eqb a b then startsWith p' s' else false
  | String _ _, EmptyString => false
  end.

(** [s.includes(p)] *)
Fixpoint includes (p s : string) : bool :=
  startsWith p s ||
  match s with
  | EmptyString => false
  | String _ s' => includes p s'
  end.

(** The character class [[a-zA-Z0-9_]] of the identifier sanitizer. *)
Definition isIdentChar (c : ascii) : bool :=
  let n := nat_of_ascii c in
  ((97 <=? n) && (n <=? 122))%nat ||
  ((65 <=? n) && (n <=? 90))%nat ||
  ((48 <=? n) && (n <=? 57))%nat ||
  (n =? 95)%nat.

(** [s.replace(/[^a-zA-Z0-9_]/g, '')] *)
Fixpoint sanitize (s : string) : string :=
  match s with
  | EmptyString => EmptyString
  | String c s' => if isIdentChar c then String c (sanitize s') else sanitize s'
  end.

Definition lowerChar (c : ascii) : ascii :=
  let n := nat_of_ascii c in
  if ((65 <=? n) && (n <=? 90))%nat then ascii_of_nat (n + 32) else c.

(** [s.toLowerCase()], on the ASCII range. *)
Fixpoint toLowerCase (s : string) : string :=
  match s with
  | EmptyString => EmptyString
  | String c s' => String (lowerChar c) (toLowerCase s')
  end.

(** Truthiness of a possibly missing string property: [undefined], [null]
    and the empty string are falsy. *)
Definition truthy (o : option string) : bool :=
  match o with
  | Some s => negb (String.eqb s EmptyString)
  | None => false
  end.

(** [a || b] on possibly missing strings. *)
Definition orElse (a b : option string) : option string :=
  if truthy a then a else b.

(** [xs.slice(0, n)] *)
Definition slice0 {A} (n : nat) (xs : list A) : list A := take n xs.

(** [xs.slice(i, j)] for [0 <= i <= j] *)
Definition slice {A} (i j : nat) (xs : list A) : list A := take (j - i) (drop i xs).

(** The values a database driver hands to the services, seen through the
    two conversions the code applies to them: [JObject] carries
    [JSON.stringify(v)] of a value with [typeof v === 'object'], [JPrim]
    carries [String(v)] of any other defined value. *)
Inductive JsValue :=
| JUndefined
| JNull
| JObject (json : string)
| JPrim (str : string).

#[global] Instance JsValue_eq_dec : EqDecision JsValue.
Proof. solve_decision. Defined.

(** [v === null || v === undefined] *)
Definition isNullish (v : JsValue) : bool :=
  match v with
  | JUndefined | JNull => true
  | _ => false
  end.

(** [obj[key]] on a plain object: a missing property reads [undefined]. *)
Definition prop (obj : gmap string JsValue) (key : string) : JsValue :=
  default JUndefined (obj !! key).

End Js.

(* ===================================================================== *)
(** ** Comparator: services/comparisonService.js *)
(* ===================================================================== *)

Module Comparator.

(** [Math.round((backupCount / remoteCount) * 100)] for counts with
    [remoteCount > 0], computed on exact rationals:
    [Math.round x = floor (x + 1/2)]. *)
Definition roundPercent (backupCount remoteCount : Z) : Z :=
  (200 * backupCount + remoteCount) / (2 * remoteCount).

(** The "Calculate progress" block of [compareBackupWithRemote]. *)
Definition progress (backupCount remoteCount : Z) : Z :=
  if 0 <? remoteCount then roundPercent backupCount remoteCount
  else if 0 <? backupCount then 100 else 0.

Inductive TableStatus :=
| fully_backed_up
| partially_backed_up
| not_backed_up
| status_error.

(** The "Determine status" block. *)
Definition tableStatus (p : Z) : TableStatus :=
  if p =? 100 then fully_backed_up
  else if 0 <? p then partially_backed_up
  else not_backed_up.

(** *** Missing records *)

Abbreviation Obj := (gmap string Js.JsValue).

(** [set.add(x)]: a JavaScript [Set] keeps the first insertion of a value
    and iterates in insertion order. *)
Definition setAdd (s : list string) (x : string) : list string :=
  if decide (x ∈ s) then s else s ++ [x].

(** [new Set(xs)] *)
Definition newSet (xs : list string) : list string := foldl setAdd [] xs.

(** [set.has(x)] *)
Definition setHas (s : list string) (x : string) : bool := bool_decide (x ∈ s).

Record MissingData := {
  ids : list string;
  records : list Obj;
  totalMissing : nat
}.

Definition emptyMissing : MissingData :=
  {| ids := []; records := []; totalMissing := 0 |}.

(** [findMissingRecords].  The three database calls are given by their
    results: [remoteIdsResult] and [backupIdsResult] are the [id] columns
    returned by the two [SELECT id ... ORDER BY id] queries, each id already
    through [String(id)], and [None] when the call throws (no [id] column,
    connection failure); [fetchRows idsToFetch] is the result of the
    [SELECT * ... LIMIT 100] query built from [idsToFetch], after the
    per-row BigInt conversion, and [None] when that query throws. *)
Definition findMissingRecords
    (remoteIdsResult backupIdsResult : option (list string))
    (fetchRows : list string -> option (list Obj)) : MissingData :=
  match remoteIdsResult with
  | None => emptyMissing
  | Some remoteRows =>
    let remoteIds := newSet remoteRows in
    match backupIdsResult with
    | None => emptyMissing
    | Some backupRows =>
      let backupIds := newSet backupRows in
      let missingIds := filter (fun id => negb (setHas backupIds id) = true) remoteIds in
      let missingRecords :=
        if (0 <? length missingIds)%nat then
          let idsToFetch := Js.slice0 100 missingIds in
          match fetchRows idsToFetch with
          | Some rows => rows
          | None =>
            (* fallback to just IDs as objects *)
            map (fun id => ({[ "id" := Js.JPrim id ]} : Obj)) (Js.slice0 100 missingIds)
          end
        else [] in
      {| ids := missingIds;
         records := missingRecords;
         totalMissing := length missingIds |}
    end
  end.

Record TableEntry := {
  tableName : string;
  backupTableName : option string;
  remoteCount : Z;
  backupCount : Z;
  difference : Z;
  entryProgress : Z;
  status : TableStatus;
  missingRecordsCount : nat;
  missingRecordsIds : list string;
  missingRecords : list Obj
}.

(** One iteration of the "Compare each remote table" loop of
    [compareBackupWithRemote], as the entry pushed on [tablesComparison].
    [existsInBackup] is [backupTableNames.includes(backupTableName)];
    [countResult] is the row count of the mirror table, [None] when the query throws. *)
Definition compareTable
    (remoteTableName : string) (remoteCount : Z) (existsInBackup : bool)
    (countResult : option Z)
    (remoteIdsResult backupIdsResult : option (list string))
    (fetchRows : list string -> option (list Obj)) : TableEntry :=
  let backupTableName := ("backup_" ++ remoteTableName)%string in
  if existsInBackup then
    match countResult with
    | Some backupCount =>
      let progress := progress backupCount remoteCount in
      let tableStatus := tableStatus progress in
      if (backupCount <? remoteCount) && (0 <? remoteCount) then
        let missingData := findMissingRecords remoteIdsResult backupIdsResult fetchRows in
        {| tableName := remoteTableName;
           backupTableName := Some backupTableName;
           remoteCount := remoteCount;
           backupCount := backupCount;
           difference := remoteCount - backupCount;
           entryProgress := progress;
           status := tableStatus;
           missingRecordsCount := totalMissing missingData;
           missingRecordsIds := Js.slice0 100 (ids missingData);
           missingRecords := Js.slice0 100 (records missingData) |}
      else
        {| tableName := remoteTableName;
           backupTableName := Some backupTableName;
           remoteCount := remoteCount;
           backupCount := backupCount;
           difference := remoteCount - backupCount;
           entryProgress := progress;
           status := tableStatus;
           missingRecordsCount := 0;
           missingRecordsIds := [];
           missingRecords := [] |}
    | None =>
      {| tableName := remoteTableName;
         backupTableName := Some backupTableName;
         remoteCount := remoteCount;
         backupCount := 0;
         difference := remoteCount;
         entryProgress := 0;
         status := status_error;
         missingRecordsCount := 0;
         missingRecordsIds := [];
         missingRecords := [] |}
    end
  else
    {| tableName := remoteTableName;
       backupTableName := None;
       remoteCount := remoteCount;
       backupCount := 0;
       difference := remoteCount;
       entryProgress := 0;
       status := not_backed_up;
       missingRecordsCount := 0;
       missingRecordsIds := [];
       missingRecords := [] |}.

(** The missing set in the words of the specification: remote identity
    values minus mirror identity values. *)
Definition missingSetSpec (remoteIds backupIds : list string) : gset string :=
  list_to_set remoteIds ∖ list_to_set backupIds.

End Comparator.

(* ===================================================================== *)
(** ** Job tracker: services/backupStatusService.js and the upload status
       service *)
(* ===================================================================== *)

Module JobTracker.

(** An optional property of the [status] argument that the code tests
    against [undefined] and that may also be passed as [null]. *)
Inductive Field (A : Type) :=
| undefined
| null
| val (a : A).
Arguments undefined {A}.
Arguments null {A}.
Arguments val {A} a.

(** A row of [backup_statuses] or [upload_statuses].  [tableName] exists
    on upload statuses only and [isAutomatic] on backup statuses only;
    [result] is the JSON payload, kept opaque; times are milliseconds. *)
Record JobRecord := {
  jobId : string;
  status : string;
  type : string;
  backendName : string;
  tableName : option string;
  progress : Z;
  message : option string;
  result : option string;
  error : option string;
  isAutomatic : bool;
  createdAt : Z;
  updatedAt : Z
}.

(** The [status] argument of [setBackupStatus] / [setUploadStatus].
    [None] is a property that is absent. *)
Record Patch := {
  pStatus : option string;
  pType : option string;
  pBackendName : option string;
  pTableName : option string;
  pProgress : option Z;
  pMessage : Field string;
  pResult : Field string;
  pError : Field string;
  pIsAutomatic : option bool
}.

(** The Prisma model: a table with a unique index on [jobId]. *)
Abbreviation Store := (gmap string JobRecord).

(** How an [async] function ends. *)
Inductive Outcome :=
| Resolved
| Rejected (message : string).

(** The effect of one call: the Prisma client's model afterwards ([None]
    when the client was generated without it), how the call ended, and
    what it wrote with [console.error]. *)
Record Run := {
  store : option Store;
  outcome : Outcome;
  logged : option string
}.

(** [`${x}`] of a possibly undefined string. *)
Definition show (o : option string) : string := default "undefined"%string o.

(** [status.f !== undefined && { f: status.f }] spread over the old value. *)
Definition sparse {A} (f : Field A) (old : option A) : option A :=
  match f with
  | undefined => old
  | null => None
  | val a => Some a
  end.

(** [status.f || null] for a string property. *)
Definition orNull (f : Field string) : option string :=
  match f with
  | val a => if Js.truthy (Some a) then Some a else None
  | _ => None
  end.

(** [status.result || null]: the payload is an object, hence truthy. *)
Definition payloadOrNull (f : Field string) : option string :=
  match f with
  | val a => Some a
  | _ => None
  end.

(** Prisma rejects a [create] whose required [status] is missing. *)
Definition missingStatusMessage : string := "Argument `status` is missing."%string.

(** The [data] of [prisma.*.update]. *)
Definition updateData (withAutomatic : bool) (now : Z) (status : Patch) (r : JobRecord) : JobRecord :=
  {| jobId := jobId r;
     status := default (JobTracker.status r) (pStatus status);
     type := type r;
     backendName := backendName r;
     tableName := tableName r;
     progress := default (progress r) (pProgress status);
     message := sparse (pMessage status) (message r);
     result := sparse (pResult status) (result r);
     error := sparse (pError status) (error r);
     isAutomatic := if withAutomatic then default (isAutomatic r) (pIsAutomatic status)
                    else isAutomatic r;
     createdAt := createdAt r;
     updatedAt := now |}.

(** [setBackupStatus(jobId, status)] at time [now]. *)
Definition setBackupStatus (prisma : option Store) (now : Z)
    (jobId : string) (status : Patch) : Run :=
  match prisma with
  | None => {| store := None; outcome := Resolved; logged := None |}
  | Some db =>
    let existingRecord := db !! jobId in
    let type := Js.orElse (pType status) (JobTracker.type <$> existingRecord) in
    let backendName := Js.orElse (pBackendName status) (JobTracker.backendName <$> existingRecord) in
    match existingRecord with
    | Some r =>
      {| store := Some (<[jobId := updateData true now status r]> db);
         outcome := Resolved; logged := None |}
    | None =>
      if negb (Js.truthy type) || negb (Js.truthy backendName) then
        (* thrown, then caught: "Don't throw - allow background process to continue" *)
        {| store := Some db; outcome := Resolved;
           logged := Some ("Missing required fields for new record: type=" ++ show type
                           ++ ", backendName=" ++ show backendName)%string |}
      else
        match pStatus status with
        | None => {| store := Some db; outcome := Resolved; logged := Some missingStatusMessage |}
        | Some st =>
          {| store := Some (<[jobId :=
               {| jobId := jobId;
                  status := st;
                  type := show type;
                  backendName := show backendName;
                  tableName := None;
                  progress := default 0 (pProgress status);
                  message := orNull (pMessage status);
                  result := payloadOrNull (pResult status);
                  error := orNull (pError status);
                  isAutomatic := default false (pIsAutomatic status);
                  createdAt := now;
                  updatedAt := now |}]> db);
             outcome := Resolved; logged := None |}
        end
    end
  end.

(** [setUploadStatus(jobId, status)] at time [now]. *)
Definition setUploadStatus (prisma : option Store) (now : Z)
    (jobId : string) (status : Patch) : Run :=
  match prisma with
  | None => {| store := None; outcome := Resolved; logged := None |}
  | Some db =>
    let existingRecord := db !! jobId in
    let type := Js.orElse (pType status) (JobTracker.type <$> existingRecord) in
    let backendName := Js.orElse (pBackendName status) (JobTracker.backendName <$> existingRecord) in
    let tableName := Js.orElse (pTableName status) (existingRecord ≫= JobTracker.tableName) in
    match existingRecord with
    | Some r =>
      {| store := Some (<[jobId := updateData false now status r]> db);
         outcome := Resolved; logged := None |}
    | None =>
      if negb (Js.truthy type) || negb (Js.truthy backendName) then
        (* thrown, caught, logged and thrown again *)
        let m := ("Missing required fields: type=" ++ show type
                  ++ ", backendName=" ++ show backendName)%string in
        {| store := Some db; outcome := Rejected m; logged := Some m |}
      else
        match pStatus status with
        | None => {| store := Some db; outcome := Rejected missingStatusMessage;
                     logged := Some missingStatusMessage |}
        | Some st =>
          {| store := Some (<[jobId :=
               {| jobId := jobId;
                  status := st;
                  type := show type;
                  backendName := show backendName;
                  tableName := if Js.truthy tableName then tableName else None;
                  progress := default 0 (pProgress status);
                  message := orNull (pMessage status);
                  result := payloadOrNull (pResult status);
                  error := orNull (pError status);
                  isAutomatic := false;
                  createdAt := now;
                  updatedAt := now |}]> db);
             outcome := Resolved; logged := None |}
        end
    end
  end.

(** The patch of the specification's scenario: [{ status: 'processing' }]. *)
Definition onlyProcessing : Patch :=
  {| pStatus := Some "processing"%string;
     pType := None;
     pBackendName := None;
     pTableName := None;
     pProgress := None;
     pMessage := undefined;
     pResult := undefined;
     pError := undefined;
     pIsAutomatic := None |}.

(** A job record for the examples. *)
Definition job (jobId status : string) (createdAt : Z) : JobRecord :=
  {| jobId := jobId; status := status; type := "database"; backendName := "A";
     tableName := None; progress := 0; message := None; result := None;
     error := None; isAutomatic := false; createdAt := createdAt;
     updatedAt := createdAt |}.

(** *** Retention sweep *)

Definition msPerDay : Z := 86400000.

(** [cutoffDate.setDate(cutoffDate.getDate() - cleanupDays)] on the
    current time, with calendar days of 24 hours. *)
Definition cutoffDate (now cleanupDays : Z) : Z := now - cleanupDays * msPerDay.

(** [status: { in: ['completed', 'failed'] }] *)
Definition terminalStatuses : list string := ["completed"; "failed"]%string.

(** The [where] clause of the [deleteMany] call. *)
Definition expired (cutoff : Z) (r : JobRecord) : bool :=
  (createdAt r <? cutoff) && bool_decide (status r ∈ terminalStatuses).

(** [prisma.*.deleteMany({ where })]: the remaining rows and [result.count]. *)
Definition deleteMany (where_ : JobRecord -> bool) (db : Store) : Store * nat :=
  (filter (fun kv => where_ kv.2 = false) db,
   size (filter (fun kv => where_ kv.2 = true) db)).

(** [cleanupOldStatuses()] and [cleanupOldUploadStatuses()], which differ
    in the Prisma model and the environment variable only.  [cleanupDays]
    is the value of [parseInt(process.env.*_STATUS_CLEANUP_DAYS || '7')],
    [None] when it is [NaN]: the cutoff is then an invalid date, the
    [deleteMany] call throws and the function returns 0. *)
Definition cleanupOldStatuses (prisma : option Store) (now : Z)
    (cleanupDays : option Z) : option Store * nat :=
  match prisma with
  | None => (None, 0%nat)
  | Some db =>
    match cleanupDays with
    | None => (Some db, 0%nat)
    | Some d =>
      let '(db', count) := deleteMany (expired (cutoffDate now d)) db in
      (Some db', count)
    end
  end.

Definition cleanupOldUploadStatuses := cleanupOldStatuses.

End JobTracker.

(* ===================================================================== *)
(** ** Row reconciler, backup direction: [upsertTableData] of
       controllers/comparisonController.js *)
(* ===================================================================== *)

Module Reconciler.

Abbreviation Obj := (gmap string Js.JsValue).

(** An element of [columns]: [{ name, type }]. *)
Record Column := {
  name : string;
  type : string
}.

(** A row of the mirror table: the columns that are not NULL, each with
    the text that was inserted; values are compared as that text. *)
Abbreviation StoredRow := (gmap string string).

(** The statements [upsertTableData] sends to the local database, by
    content rather than by SQL text.  A literal is [None] for [NULL] and
    [Some s] for the quoted text ['s'], in which the code doubles every
    quote so that it denotes [s]; a condition [(c, None)] is [c IS NULL]
    and [(c, Some s)] is [c = 's']. *)
Inductive Stmt :=
| CreateTable (table : string) (serialId : bool) (columnDefinitions : list (string * string))
| TableExists (table : string)
| CountRows (table : string)
| SelectId (table : string) (conditions : list (string * option string))
| InsertInto (table : string) (columns : list string) (values : list (option string)).

(** The SQL literal built from a value in the insert and where clauses. *)
Definition literal (value : Js.JsValue) : option string :=
  match value with
  | Js.JUndefined | Js.JNull => None
  | Js.JObject jsonValue => Some jsonValue
  | Js.JPrim strValue => Some strValue
  end.

(** "Map PostgreSQL types to appropriate types" *)
Definition columnType (t : string) : string :=
  if bool_decide (t = "integer" \/ t = "bigint") then "BIGINT"
  else if bool_decide (t = "numeric" \/ t = "double precision") then "NUMERIC"
  else if bool_decide (t = "boolean") then "BOOLEAN"
  else if bool_decide (t = "timestamp" \/ t = "timestamp with time zone") then "TIMESTAMP"
  else if bool_decide (t = "date") then "DATE"
  else "TEXT".

(** [columns.some(col => col.name.toLowerCase() === 'id')] *)
Definition hasIdColumn (columns : list Column) : bool :=
  existsb (fun col => bool_decide (Js.toLowerCase (name col) = "id")) columns.

(** Does a stored row satisfy one condition of a where clause? *)
Definition holds (row : StoredRow) (cond : string * option string) : bool :=
  bool_decide (row !! cond.1 = cond.2).

(** The row an [INSERT] stores: the listed columns with their values. *)
Definition storeRow (columns : list string) (values : list (option string)) : StoredRow :=
  list_to_map (omap (fun cv => (fun v => (cv.1, v)) <$> cv.2) (zip columns values)).

Record Result := {
  inserted : nat;
  skipped : nat
}.

(** The mirror table and the two counters while the rows are processed. *)
Record LoopState := {
  mirror : list StoredRow;
  insertedSoFar : nat;
  skippedSoFar : nat
}.

Section WithDatabase.

(** The database rejects the statements on which [fault] gives an error
    message (a malformed literal, a missing column, a violated
    constraint); every other statement has its effect on the table. *)
Variable fault : Stmt -> option string.

(** [prisma.$queryRawUnsafe(checkQuery)]: at most one matching row. *)
Definition queryRaw (stmt : Stmt) (table : list StoredRow) : string + list StoredRow :=
  match fault stmt with
  | Some message => inl message
  | None =>
    match stmt with
    | SelectId _ conditions =>
      inr (take 1 (filter (fun row => forallb (holds row) conditions = true) table))
    | _ => inr table
    end
  end.

(** [prisma.$executeRawUnsafe(insertQuery)] *)
Definition executeRaw (stmt : Stmt) (table : list StoredRow) : string + list StoredRow :=
  match fault stmt with
  | Some message => inl message
  | None =>
    match stmt with
    | InsertInto _ columns values => inr (table ++ [storeRow columns values])
    | _ => inr table
    end
  end.

(** [createTableIfNotExists]: an absent table is the empty table, which
    is what [CREATE TABLE IF NOT EXISTS] leaves; the result is the
    [created] flag. *)
Definition createTableIfNotExists (tableName : string) (columns : list Column)
    (table : list StoredRow) : string + bool :=
  let backupTableName := ("backup_" ++ tableName)%string in
  let columnDefinitions :=
    map (fun col => (Js.sanitize (name col), columnType (type col))) columns in
  match fault (CreateTable backupTableName (negb (hasIdColumn columns)) columnDefinitions) with
  | Some message => inl ("Failed to create table: " ++ message)%string
  | None =>
    match fault (TableExists backupTableName) with
    | Some message => inl ("Failed to create table: " ++ message)%string
    | None =>
      match fault (CountRows backupTableName) with
      | Some message => inl ("Failed to create table: " ++ message)%string
      | None => inr (bool_decide (length table = 0%nat))
      end
    end
  end.

(** The [catch] of the per-row [try]. *)
Definition isDuplicateError (message : string) : bool :=
  Js.truthy (Some message) &&
  (Js.includes "duplicate" message ||
   Js.includes "unique" message ||
   Js.includes "constraint" message).

Definition onRowError (st : LoopState) (message : string) : LoopState :=
  if isDuplicateError message then
    {| mirror := mirror st;
       insertedSoFar := insertedSoFar st;
       skippedSoFar := S (skippedSoFar st) |}
  else st.

(** "Check if record already exists": the where clause, by [id] when the
    source has an id column and the row an id, else by all columns. *)
Definition whereConditions (columnNames : list string) (hasId : bool) (row : Obj)
    : list (string * option string) :=
  if hasId && negb (Js.isNullish (Js.prop row "id")) then
    [("id"%string, literal (Js.prop row "id"))]
  else
    map (fun col => (Js.sanitize col, literal (Js.prop row col))) columnNames.

Definition checkQuery (backupTableName : string) (columnNames : list string)
    (hasId : bool) (row : Obj) : Stmt :=
  SelectId backupTableName (whereConditions columnNames hasId row).

Definition insertQuery (backupTableName : string) (columnNames : list string)
    (row : Obj) : Stmt :=
  InsertInto backupTableName
    (map Js.sanitize columnNames)
    (map (fun col => literal (Js.prop row col)) columnNames).

(** The body of [for (const row of data)]. *)
Definition processRow (backupTableName : string) (columnNames : list string)
    (hasId : bool) (st : LoopState) (row : Obj) : LoopState :=
  match queryRaw (checkQuery backupTableName columnNames hasId row) (mirror st) with
  | inl message => onRowError st message
  | inr existing =>
    if (0 <? length existing)%nat then
      {| mirror := mirror st;
         insertedSoFar := insertedSoFar st;
         skippedSoFar := S (skippedSoFar st) |}
    else
      match executeRaw (insertQuery backupTableName columnNames row) (mirror st) with
      | inl message => onRowError st message
      | inr table' =>
        {| mirror := table';
           insertedSoFar := S (insertedSoFar st);
           skippedSoFar := skippedSoFar st |}
      end
  end.

(** The row loop of [upsertTableData] from a given state. *)
Definition processRows (tableName : string) (columns : list Column)
    (st : LoopState) (data : list Obj) : LoopState :=
  foldl (processRow ("backup_" ++ tableName)%string
                    (map (fun col => Js.sanitize (name col)) columns)
                    (hasIdColumn columns))
        st data.

(** [upsertTableData(tableName, data, columns)] on the mirror table
    [table]: the table afterwards, and the thrown message or the
    counters. *)
Definition upsertTableData (tableName : string) (data : list Obj)
    (columns : list Column) (table : list StoredRow)
    : list StoredRow * (string + Result) :=
  match createTableIfNotExists tableName columns table with
  | inl message => (table, inl ("Failed to insert data: " ++ message)%string)
  | inr _ =>
    if bool_decide (length data = 0%nat) then
      (table, inr {| inserted := 0; skipped := 0 |})
    else
      let st := processRows tableName columns
                  {| mirror := table; insertedSoFar := 0; skippedSoFar := 0 |} data in
      (mirror st, inr {| inserted := insertedSoFar st; skipped := skippedSoFar st |})
  end.

(** The message thrown inside the [try] for [row] when the mirror table is
    [table]: by the check query, or else by the insert when no row matches;
    [None] when the row is skipped or inserted. *)
Definition rowError (backupTableName : string) (columnNames : list string)
    (hasId : bool) (table : list StoredRow) (row : Obj) : option string :=
  match queryRaw (checkQuery backupTableName columnNames hasId row) table with
  | inl message => Some message
  | inr existing =>
    if (0 <? length existing)%nat then None
    else
      match executeRaw (insertQuery backupTableName columnNames row) table with
      | inl message => Some message
      | inr _ => None
      end
  end.

(** Whether [row] adds one to [skipped] when it is processed on [table]
    and not inserted. *)
Definition countsAsSkipped (backupTableName : string) (columnNames : list string)
    (hasId : bool) (table : list StoredRow) (row : Obj) : nat :=
  match queryRaw (checkQuery backupTableName columnNames hasId row) table with
  | inl message => if isDuplicateError message then 1 else 0
  | inr existing =>
    if (0 <? length existing)%nat then 1
    else
      match executeRaw (insertQuery backupTableName columnNames row) table with
      | inl message => if isDuplicateError message then 1 else 0
      | inr _ => 0
      end
  end.

(** Whether the check query with the given where clause finds a row. *)
Definition finds (conditions : list (string * option string))
    (table : list StoredRow) : bool :=
  (0 <? length (take 1 (filter (fun row : StoredRow =>
                                  forallb (holds row) conditions = true) table)))%nat.

(** A row that has an id is a row of a table with an id column. *)
Definition idListed (columnNames : list string) (hasId : bool) (row : Obj) : Prop :=
  hasId && negb (Js.isNullish (Js.prop row "id")) = true -> "id"%string ∈ columnNames.

(** Processing [row] on [table] inserts nothing: a statement is rejected,
    or the check query finds a row. *)
Definition settled (backupTableName : string) (columnNames : list string)
    (hasId : bool) (table : list StoredRow) (row : Obj) : Prop :=
  fault (checkQuery backupTableName columnNames hasId row) <> None \/
  finds (whereConditions columnNames hasId row) table = true \/
  fault (insertQuery backupTableName columnNames row) <> None.

End WithDatabase.

(** A snapshot of a table with the given columns: every property of a row
    is one of the columns. *)
Definition snapshotOf (columns : list Column) (data : list Obj) : bool :=
  forallb (fun row : Obj =>
             forallb (fun c => bool_decide (c ∈ map name columns))
                     (map_to_list row).*1) data.

(** *** A database for the examples *)

(** The double quote. *)
Definition dq : string := String "034" EmptyString.

(** [JSON.stringify] of a [Date]: the ISO text between double quotes. *)
Definition jsonDate (iso : string) : Js.JsValue := Js.JObject (dq ++ iso ++ dq).

Definition timestampMessage : string := "invalid input syntax for type timestamp".

(** A database that rejects an insert holding a literal that starts with a
    double quote, as PostgreSQL rejects such text for a timestamp column,
    and accepts every other statement. *)
Definition rejectsQuotedText (stmt : Stmt) : option string :=
  match stmt with
  | InsertInto _ _ values =>
    if existsb (fun v => match v with
                         | Some s => Js.startsWith dq s
                         | None => false
                         end) values
    then Some timestampMessage else None
  | _ => None
  end.

(** A database that rejects every insert as a duplicate. *)
Definition duplicateMessage : string :=
  "duplicate key value violates unique constraint".

Definition rejectsAsDuplicate (stmt : Stmt) : option string :=
  match stmt with
  | InsertInto _ _ _ => Some duplicateMessage
  | _ => None
  end.

(** A database that accepts every statement. *)
Definition noFault (stmt : Stmt) : option string := None.

(** The table of the specification's scenario. *)
Definition widgetColumns : list Column :=
  [ {| name := "id"; type := "integer" |}; {| name := "label"; type := "text" |} ].

Definition widget (id label : string) : Obj :=
  {[ "id"%string := Js.JPrim id; "label"%string := Js.JPrim label ]}.

(** A table with a timestamp column, and rows with and without a date. *)
Definition eventColumns : list Column :=
  [ {| name := "id"; type := "integer" |};
    {| name := "created_at"; type := "timestamp" |} ].

Definition event (id : string) (created_at : Js.JsValue) : Obj :=
  {[ "id"%string := Js.JPrim id; "created_at"%string := created_at ]}.

End Reconciler.

(* ===================================================================== *)
(** ** Row reconciler, upload direction: [uploadTableRecords] of
       services/uploadService.js *)
(* ===================================================================== *)

Module Uploader.

Abbreviation Obj := (gmap string Js.JsValue).

(** A row of the remote table: the columns that are not NULL. *)
Abbreviation StoredRow := (gmap string string).

(** The calls made on the remote connection, by content. *)
Inductive Stmt :=
| Connect
| SelectColumns (table : string)
| SelectPrimaryKey (table : string)
| InsertOnConflict (table primaryKey : string) (assignments : list (string * Js.JsValue))
| CountByKey (table primaryKey : string) (key : string).

(** A query parameter as the driver sends it. *)
Definition param (value : Js.JsValue) : option string :=
  match value with
  | Js.JUndefined | Js.JNull => None
  | Js.JObject json => Some json
  | Js.JPrim str => Some str
  end.

Record ErrorEntry := {
  record : Js.JsValue;
  error : string
}.

Record Result := {
  totalRecords : nat;
  uploadedRecords : nat;
  matchedRecords : nat;
  errors : option (list ErrorEntry)
}.

Record LoopState := {
  remote : list StoredRow;
  uploadedCount : nat;
  matchedCount : nat;
  errorList : list ErrorEntry
}.

(** [record[primaryKey] || 'unknown'].  Of the falsy primitives only the
    empty string is told apart by [JPrim]. *)
Definition orUnknown (v : Js.JsValue) : Js.JsValue :=
  match v with
  | Js.JUndefined | Js.JNull => Js.JPrim "unknown"
  | Js.JPrim s => if Js.truthy (Some s) then v else Js.JPrim "unknown"
  | Js.JObject _ => v
  end.

(** [SET c = EXCLUDED.c] for every assigned column, on an existing row. *)
Definition overwrite (row : StoredRow) (assignments : list (string * Js.JsValue)) : StoredRow :=
  foldl (fun r cv => match param cv.2 with
                     | Some s => <[cv.1 := s]> r
                     | None => delete cv.1 r
                     end) row assignments.

Definition notNullMessage : string :=
  "null value in column violates not-null constraint".

Section WithDatabase.

(** The remote database: [fault] gives the error message of a call it
    rejects, [columnsOf] and [primaryKeyOf] are its catalog, and
    [defaultKey] is the value the key column takes when an insert leaves
    it out ([None]: the column has no default); a key given as [null]
    violates the not-null constraint of a key column. *)
Variable fault : Stmt -> option string.
Variable columnsOf : string -> list string.
Variable primaryKeyOf : string -> list string.
Variable defaultKey : list StoredRow -> option string.

(** [INSERT ... ON CONFLICT (pk) DO UPDATE SET ... RETURNING pk] on a
    table whose key column is not null: the table afterwards and the
    returned keys. *)
Definition insertOnConflict (primaryKey : string)
    (assignments : list (string * Js.JsValue)) (table : list StoredRow)
    : string + (list StoredRow * list string) :=
  let key : option string :=
    match (list_to_map assignments : Obj) !! primaryKey with
    | Some value => param value
    | None => defaultKey table
    end in
  match key with
  | None => inl notNullMessage
  | Some k =>
    if existsb (fun row => bool_decide (row !! primaryKey = Some k)) table then
      inr (map (fun row => if bool_decide (row !! primaryKey = Some k)
                           then <[primaryKey := k]> (overwrite row assignments)
                           else row) table,
           [k])
    else
      inr (table ++ [<[primaryKey := k]> (overwrite ∅ assignments)], [k])
  end.

(** [client.query(insertQuery, values)] *)
Definition runInsert (table primaryKey : string)
    (assignments : list (string * Js.JsValue)) (rows : list StoredRow)
    : string + (list StoredRow * list string) :=
  match fault (InsertOnConflict table primaryKey assignments) with
  | Some message => inl message
  | None => insertOnConflict primaryKey assignments rows
  end.

(** [client.query(checkQuery, [key])]: the count. *)
Definition runCount (table primaryKey key : string) (rows : list StoredRow)
    : string + nat :=
  match fault (CountByKey table primaryKey key) with
  | Some message => inl message
  | None =>
    inr (length (filter (fun row => row !! primaryKey = Some key) rows))
  end.

(** The body of [for (const record of batch)]. *)
Definition processRecord (tableName primaryKey : string)
    (st : LoopState) (record : Obj) : LoopState :=
  let cleanRecord : Obj := delete "backup_updated_at" (delete "backup_created_at" record) in
  let recordColumns :=
    filter (fun cv => cv.2 <> Js.JUndefined) (map_to_list cleanRecord) in
  let failed (rows : list StoredRow) (message : string) :=
    {| remote := rows;
       uploadedCount := uploadedCount st;
       matchedCount := matchedCount st;
       errorList := errorList st ++
         [{| record := orUnknown (Js.prop record primaryKey); error := message |}] |} in
  match runInsert tableName primaryKey recordColumns (remote st) with
  | inl message => failed (remote st) message
  | inr (rows, returned) =>
    match returned with
    | key :: _ =>
      match runCount tableName primaryKey key rows with
      | inl message => failed rows message
      | inr count =>
        if (0 <? count)%nat then
          {| remote := rows;
             uploadedCount := uploadedCount st;
             matchedCount := S (matchedCount st);
             errorList := errorList st |}
        else
          {| remote := rows;
             uploadedCount := S (uploadedCount st);
             matchedCount := matchedCount st;
             errorList := errorList st |}
      end
    | [] =>
      {| remote := rows;
         uploadedCount := uploadedCount st;
         matchedCount := matchedCount st;
         errorList := errorList st |}
    end
  end.

Definition batchSize : nat := 100.

(** [for (let i = 0; i < records.length; i += batchSize)], with the
    inner loop over [records.slice(i, i + batchSize)].  [fuel] bounds
    the number of batches. *)
Fixpoint batchLoop (fuel : nat) (tableName primaryKey : string)
    (records : list Obj) (i : nat) (st : LoopState) : LoopState :=
  match fuel with
  | O => st
  | S fuel' =>
    if (i <? length records)%nat then
      let batch := Js.slice i (i + batchSize) records in
      batchLoop fuel' tableName primaryKey records (i + batchSize)
        (foldl (processRecord tableName primaryKey) st batch)
    else st
  end.

(** [uploadTableRecords(remoteDbUrl, tableName, records)] on the remote
    table [rows]: the table afterwards, and the thrown message or the
    result. *)
Definition uploadTableRecords (tableName : string) (records : list Obj)
    (rows : list StoredRow) : list StoredRow * (string + Result) :=
  let thrown (message : string) : string + Result :=
    inl ("Failed to upload table records: " ++ message)%string in
  match fault Connect with
  | Some message => (rows, thrown message)
  | None =>
    if bool_decide (length records = 0%nat) then
      (rows, inr {| totalRecords := 0; uploadedRecords := 0;
                    matchedRecords := 0; errors := Some [] |})
    else
      match fault (SelectColumns tableName) with
      | Some message => (rows, thrown message)
      | None =>
        if bool_decide (length (columnsOf tableName) = 0%nat) then
          (rows, thrown ("Table " ++ tableName ++ " does not exist in remote database")%string)
        else
          match fault (SelectPrimaryKey tableName) with
          | Some message => (rows, thrown message)
          | None =>
            let primaryKey :=
              match primaryKeyOf tableName with
              | attname :: _ => attname
              | [] => "id"%string
              end in
            let st := batchLoop (S (length records)) tableName primaryKey records 0
                        {| remote := rows; uploadedCount := 0;
                           matchedCount := 0; errorList := [] |} in
            (remote st,
             inr {| totalRecords := length records;
                    uploadedRecords := uploadedCount st;
                    matchedRecords := matchedCount st;
                    errors := if (0 <? length (errorList st))%nat
                              then Some (errorList st) else None |})
          end
      end
  end.

End WithDatabase.

(** *** A remote database for the examples *)

Definition noFault (stmt : Stmt) : option string := None.

(** The remote [widgets] table: columns [id] and [label], key [id], no
    default for the key. *)
Definition widgetCatalog (table : string) : list string :=
  if bool_decide (table = "widgets") then ["id"; "label"] else [].

Definition widgetKey (table : string) : list string :=
  if bool_decide (table = "widgets") then ["id"] else [].

Definition noDefault (rows : list StoredRow) : option string := None.

(** A mirror row of [widgets], with its two bookkeeping columns. *)
Definition mirrorWidget (id label : string) : Obj :=
  {[ "id"%string := Js.JPrim id;
     "label"%string := Js.JPrim label;
     "backup_created_at"%string := Js.JObject "2026-01-17T11:19:19.000Z";
     "backup_updated_at"%string := Js.JObject "2026-01-17T11:19:19.000Z" ]}.

End Uploader.

(* ===================================================================== *)
(** ** File comparison: [compareBackupFiles] of
       controllers/comparisonController.js *)
(* ===================================================================== *)

Module FileCompare.

(** A file of a folder structure, as [getAllFiles] and
    [getLocalBackupFiles] build it: [name] and [key] are strings, [size]
    and [lastModified] may be missing. *)
Record File := {
  name : string;
  key : string;
  size : option Z;
  lastModified : option string
}.

(** [{ files: [...], folders: { name: node, ... } }], the folders in the
    order of [Object.keys]. *)
Inductive Node :=
| mkNode (files : list File) (folders : list (string * Node)).

(** A value of the flattened map. *)
Record Descriptor := {
  dKey : string;
  dName : string;
  dSize : Z;
  dLastModified : option string
}.

(** A JavaScript [Map] from strings: the entries in insertion order, one
    per key. *)
Abbreviation FileMap := (list (string * Descriptor)).

(** [map.set(k, v)]: a key already present keeps its place. *)
Fixpoint mapSet (m : FileMap) (k : string) (v : Descriptor) : FileMap :=
  match m with
  | [] => [(k, v)]
  | (k', v') :: m' =>
    if decide (k = k') then (k, v) :: m' else (k', v') :: mapSet m' k v
  end.

(** [map.get(k)] *)
Fixpoint mapGet (m : FileMap) (k : string) : option Descriptor :=
  match m with
  | [] => None
  | (k', v') :: m' => if decide (k = k') then Some v' else mapGet m' k
  end.

(** [map.has(k)] *)
Definition mapHas (m : FileMap) (k : string) : bool :=
  match mapGet m k with Some _ => true | None => false end.

(** [file.name || file.key] *)
Definition nameOrKey (file : File) : string :=
  if Js.truthy (Some (name file)) then name file else key file.

(** [currentPath ? `${currentPath}/${x}` : x] *)
Definition joinPath (currentPath x : string) : string :=
  if Js.truthy (Some currentPath) then (currentPath ++ "/" ++ x)%string else x.

(** The [forEach] over [node.files] inside [traverse]. *)
Definition addFile (currentPath : string) (fileMap : FileMap) (file : File) : FileMap :=
  let key := joinPath currentPath (nameOrKey file) in
  mapSet fileMap key
    {| dKey := key;
       dName := nameOrKey file;
       dSize := default 0 (size file);
       dLastModified := lastModified file |}.

(** [traverse(node, currentPath)], threading the map it fills. *)
Fixpoint traverse (node : Node) (currentPath : string) (fileMap : FileMap) : FileMap :=
  match node with
  | mkNode files folders =>
    let fileMap := foldl (addFile currentPath) fileMap files in
    (fix subfolders (fs : list (string * Node)) (fileMap : FileMap) : FileMap :=
       match fs with
       | [] => fileMap
       | (folderName, sub) :: rest =>
         subfolders rest (traverse sub (joinPath currentPath folderName) fileMap)
       end) folders fileMap
  end.

(** [flattenFiles(structure)] *)
Definition flattenFiles (structure : Node) : FileMap := traverse structure "" [].

Record MissingEntry := {
  mKey : string;
  mName : string;
  mSize : Z;
  mLastModified : option string
}.

Record MatchingEntry := {
  eKey : string;
  eName : string;
  eSize : Z;
  eBucketLastModified : option string;
  eLocalLastModified : option string
}.

Record DifferentEntry := {
  xKey : string;
  xName : string;
  xBucketSize : Z;
  xLocalSize : Z;
  xBucketLastModified : option string;
  xLocalLastModified : option string
}.

Record Comparison := {
  totalBucketFiles : nat;
  totalLocalFiles : nat;
  missingInLocal : list MissingEntry;
  missingInBucket : list MissingEntry;
  matchingFiles : list MatchingEntry;
  differentFiles : list DifferentEntry
}.

(** One step of "Check bucket files against local". *)
Definition checkBucketFile (localFileMap : FileMap) (c : Comparison)
    (entry : string * Descriptor) : Comparison :=
  let '(key, bucketFile) := entry in
  match mapGet localFileMap key with
  | None =>
    {| totalBucketFiles := totalBucketFiles c;
       totalLocalFiles := totalLocalFiles c;
       missingInLocal := missingInLocal c ++
         [{| mKey := key; mName := dName bucketFile; mSize := dSize bucketFile;
             mLastModified := dLastModified bucketFile |}];
       missingInBucket := missingInBucket c;
       matchingFiles := matchingFiles c;
       differentFiles := differentFiles c |}
  | Some localFile =>
    let sizeMatch := dSize bucketFile =? dSize localFile in
    if sizeMatch then
      {| totalBucketFiles := totalBucketFiles c;
         totalLocalFiles := totalLocalFiles c;
         missingInLocal := missingInLocal c;
         missingInBucket := missingInBucket c;
         matchingFiles := matchingFiles c ++
           [{| eKey := key; eName := dName bucketFile; eSize := dSize bucketFile;
               eBucketLastModified := dLastModified bucketFile;
               eLocalLastModified := dLastModified localFile |}];
         differentFiles := differentFiles c |}
    else
      {| totalBucketFiles := totalBucketFiles c;
         totalLocalFiles := totalLocalFiles c;
         missingInLocal := missingInLocal c;
         missingInBucket := missingInBucket c;
         matchingFiles := matchingFiles c;
         differentFiles := differentFiles c ++
           [{| xKey := key; xName := dName bucketFile;
               xBucketSize := dSize bucketFile; xLocalSize := dSize localFile;
               xBucketLastModified := dLastModified bucketFile;
               xLocalLastModified := dLastModified localFile |}] |}
  end.

(** One step of "Check local files against bucket". *)
Definition checkLocalFile (bucketFileMap : FileMap) (c : Comparison)
    (entry : string * Descriptor) : Comparison :=
  let '(key, localFile) := entry in
  if negb (mapHas bucketFileMap key) then
    {| totalBucketFiles := totalBucketFiles c;
       totalLocalFiles := totalLocalFiles c;
       missingInLocal := missingInLocal c;
       missingInBucket := missingInBucket c ++
         [{| mKey := key; mName := dName localFile; mSize := dSize localFile;
             mLastModified := dLastModified localFile |}];
       matchingFiles := matchingFiles c;
       differentFiles := differentFiles c |}
  else c.

(** [compareBackupFiles] once both trees are listed: [bucketFiles] is the
    result of [getAllFiles] and [localFiles] of [getLocalBackupFiles].
    The summary counters are the lengths of the four lists. *)
Definition compareBackupFiles (bucketFiles localFiles : Node) : Comparison :=
  let bucketFileMap := flattenFiles bucketFiles in
  let localFileMap := flattenFiles localFiles in
  let comparison :=
    {| totalBucketFiles := length bucketFileMap;
       totalLocalFiles := length localFileMap;
       missingInLocal := [];
       missingInBucket := [];
       matchingFiles := [];
       differentFiles := [] |} in
  let comparison := foldl (checkBucketFile localFileMap) comparison bucketFileMap in
  foldl (checkLocalFile bucketFileMap) comparison localFileMap.

(** The keys each result list reports. *)
Definition keysMissingInLocal (c : Comparison) : list string := map mKey (missingInLocal c).
Definition keysMissingInBucket (c : Comparison) : list string := map mKey (missingInBucket c).
Definition keysMatching (c : Comparison) : list string := map eKey (matchingFiles c).
Definition keysDifferent (c : Comparison) : list string := map xKey (differentFiles c).

(** The three verdicts of "Check bucket files against local" on an entry
    of the bucket map, as predicates on the entry. *)
Definition bucketOnly (localFileMap : FileMap) (e : string * Descriptor) : bool :=
  match mapGet localFileMap e.1 with
  | None => true
  | Some _ => false
  end.

Definition sameSize (localFileMap : FileMap) (e : string * Descriptor) : bool :=
  match mapGet localFileMap e.1 with
  | None => false
  | Some localFile => dSize e.2 =? dSize localFile
  end.

Definition otherSize (localFileMap : FileMap) (e : string * Descriptor) : bool :=
  match mapGet localFileMap e.1 with
  | None => false
  | Some localFile => negb (dSize e.2 =? dSize localFile)
  end.

End FileCompare.

(* ===================================================================== *)
(** ** Plain HTTP listing: [getAllFilesFromHttp] of
       services/fhsFilesService.js *)
(* ===================================================================== *)

Module HttpListing.

(** What [JSON.parse] returns. *)
Inductive Json :=
| JNull
| JBool (b : bool)
| JNumber (n : Z)
| JString (s : string)
| JArray (items : list Json)
| JObject (members : list (string * Json)).

(** [new URL(bucketUrl)] *)
Record Url := {
  protocol : string;
  hostname : string;
  port : string;
  pathname : string;
  search : string
}.

Record RequestOptions := {
  optHostname : string;
  optPort : string;
  optPath : string;
  optMethod : string;
  optUserAgent : string
}.

(** What happens to the request: a complete response, with its status
    code and [JSON.parse] of its body ([None] when that throws); an
    ['error'] event; or no activity on the socket for the time set with
    [req.setTimeout]. *)
Inductive Exchange :=
| Response (statusCode : Z) (parsedBody : option Json)
| SocketError (message : string)
| Idle.

(** How the returned promise settles. *)
Inductive Settled :=
| Resolve (files : list Json)
| Reject (message : string).

(** The delay given to [req.setTimeout], in milliseconds. *)
Definition requestTimeout : Z := 10000.

Definition requestOptions (url : Url) : RequestOptions :=
  {| optHostname := hostname url;
     optPort := if Js.truthy (Some (port url)) then port url
                else if bool_decide (protocol url = "https:") then "443" else "80";
     optPath := (pathname url ++ search url)%string;
     optMethod := "GET";
     optUserAgent := "BackupSystem/1.0" |}.

(** [getAllFilesFromHttp(bucketUrl)]: [url] is [new URL(bucketUrl)], or
    the message it throws; [network] answers the request. *)
Definition getAllFilesFromHttp (url : string + Url)
    (network : RequestOptions -> Exchange) : Settled :=
  match url with
  | inl message => Reject ("Invalid bucket URL: " ++ message)%string
  | inr u =>
    match network (requestOptions u) with
    | Response _ (Some (JArray files)) => Resolve files
    | Response _ (Some _) => Resolve []
    | Response _ None => Resolve []
    | SocketError message => Reject ("Failed to fetch files: " ++ message)%string
    | Idle => Reject "Request timeout"
    end
  end.

(** [Array.isArray] of the parsed body; a body that does not parse is no
    array. *)
Definition isJsonArray (parsedBody : option Json) : bool :=
  match parsedBody with
  | Some (JArray _) => true
  | _ => false
  end.

(** A URL for the examples. *)
Definition exampleUrl : Url :=
  {| protocol := "http:"; hostname := "files.example"; port := "";
     pathname := "/bucket"; search := "" |}.

End HttpListing.


(* ===================================================================== *)
(** ** Job tracker, accessors: [getBackupStatus], [getAllBackupStatuses],
       [deleteBackupStatus], [generateJobId], [generateUploadJobId] *)
(* ===================================================================== *)

Module JobQueries.

Import JobTracker.

(** The object the accessors build from a row.  [vIsAutomatic] is [None]
    in the object of [getBackupStatus], which leaves the property out; the
    two times stand for their ISO strings. *)
Record StatusView := {
  vJobId : string;
  vStatus : string;
  vType : string;
  vBackendName : string;
  vProgress : Z;
  vMessage : option string;
  vResult : option string;
  vError : option string;
  vIsAutomatic : option bool;
  vCreatedAt : Z;
  vUpdatedAt : Z
}.

Definition view (withAutomatic : bool) (status : JobRecord) : StatusView :=
  {| vJobId := jobId status;
     vStatus := JobTracker.status status;
     vType := type status;
     vBackendName := backendName status;
     vProgress := progress status;
     vMessage := message status;
     vResult := result status;
     vError := error status;
     vIsAutomatic := if withAutomatic then Some (isAutomatic status) else None;
     vCreatedAt := createdAt status;
     vUpdatedAt := updatedAt status |}.

(** [getBackupStatus(jobId)]: [None] is [null]. *)
Definition getBackupStatus (prisma : option Store) (jobId : string) : option StatusView :=
  match prisma with
  | None => None
  | Some db => view false <$> db !! jobId
  end.

(** [orderBy: { createdAt: 'desc' }] *)
Definition newerFirst (a b : JobRecord) : Prop := createdAt b <= createdAt a.

#[global] Instance newerFirst_dec (a b : JobRecord) : Decision (newerFirst a b).
Proof. unfold newerFirst. apply _. Defined.

(** [findMany({ orderBy: { createdAt: 'desc' }, take: limit })].  The
    order among rows created at the same time is the database's choice; it
    is here the one of a stable sort of the rows by job id. *)
Definition findManyNewestFirst (db : Store) (limit : nat) : list JobRecord :=
  take limit (merge_sort newerFirst (map_to_list db).*2).

(** [getAllBackupStatuses(limit)] *)
Definition getAllBackupStatuses (prisma : option Store) (limit : nat) : list StatusView :=
  match prisma with
  | None => []
  | Some db => view true <$> findManyNewestFirst db limit
  end.

Definition recordNotFound : string := "Record to delete does not exist.".
Definition modelMissing : string := "Cannot read properties of undefined (reading 'delete')".

(** [deleteBackupStatus(jobId)]: [prisma.backupStatus.delete] throws when
    there is no such row, and the call on a missing model throws as well;
    both are caught and logged. *)
Definition deleteBackupStatus (prisma : option Store) (jobId : string) : Run :=
  match prisma with
  | None => {| store := None; outcome := Resolved; logged := Some modelMissing |}
  | Some db =>
    match db !! jobId with
    | Some _ => {| store := Some (delete jobId db); outcome := Resolved; logged := None |}
    | None => {| store := Some db; outcome := Resolved; logged := Some recordNotFound |}
    end
  end.

(** [generateJobId(backendName, type)] at the time [now] of [Date.now()]. *)
Definition generateJobId (backendName type : string) (now : Z) : string :=
  (backendName ++ "_" ++ type ++ "_" ++ pretty now)%string.

(** [generateUploadJobId(backendName, type, tableName)] *)
Definition generateUploadJobId (backendName type : string) (tableName : option string)
    (now : Z) : string :=
  let timestamp := now in
  let tablePart :=
    match tableName with
    | Some t => if Js.truthy tableName then ("_" ++ t)%string else ""%string
    | None => ""%string
    end in
  ("upload_" ++ backendName ++ "_" ++ type ++ tablePart ++ "_" ++ pretty timestamp)%string.

End JobQueries.

(* ===================================================================== *)
(** ** Background jobs: [createBackup] and [processBackupInBackground] of
       the backup controller, [processUploadInBackground] of
       controllers/uploadController.js *)
(* ===================================================================== *)

Module Background.

Import JobTracker.

(** A row of [settings], without its attributes. *)
Record Setting := {
  backendname : string;
  DBurl : option string;
  bucketurl : option string
}.

(** [Setting.findByBackendName(backendName)] *)
Definition findByBackendName (settings : list Setting) (backendName : string)
    : option Setting :=
  find (fun s => bool_decide (backendname s = backendName)) settings.

(** [{ status, progress, message }] *)
Definition progressPatch (status : string) (progress : Z) (message : string) : Patch :=
  {| pStatus := Some status; pType := None; pBackendName := None; pTableName := None;
     pProgress := Some progress; pMessage := val message; pResult := undefined;
     pError := undefined; pIsAutomatic := None |}.

(** [{ status: 'failed', error }] *)
Definition failedPatch (error : string) : Patch :=
  {| pStatus := Some "failed"%string; pType := None; pBackendName := None;
     pTableName := None; pProgress := None; pMessage := undefined;
     pResult := undefined; pError := val error; pIsAutomatic := None |}.

(** [{ status: 'failed', error, message }] *)
Definition failedWithMessagePatch (error message : string) : Patch :=
  {| pStatus := Some "failed"%string; pType := None; pBackendName := None;
     pTableName := None; pProgress := None; pMessage := val message;
     pResult := undefined; pError := val error; pIsAutomatic := None |}.

(** [{ status: 'completed', progress: 100, message, result }] *)
Definition completedPatch (message result : string) : Patch :=
  {| pStatus := Some "completed"%string; pType := None; pBackendName := None;
     pTableName := None; pProgress := Some 100; pMessage := val message;
     pResult := val result; pError := undefined; pIsAutomatic := None |}.

(** The first patch of [createBackup]. *)
Definition startedPatch (type backendName : string) : Patch :=
  {| pStatus := Some "processing"%string; pType := Some type;
     pBackendName := Some backendName; pTableName := None; pProgress := Some 0;
     pMessage := val "Backup process started..."%string; pResult := null;
     pError := null; pIsAutomatic := Some false |}.

(** [error.message || 'Backup process failed'] *)
Definition messageOr (message fallback : string) : string :=
  if Js.truthy (Some message) then message else fallback.

(** [processBackupInBackground(jobId, type, setting)].  [clock k] is the
    time of the [k]-th status write; [backupFiles] and [backupDatabase] are
    what the two workers do when called: the message they throw, or the
    result object they return, kept opaque.  The result is the tracker when
    the task has ended. *)
Definition processBackupInBackground (prisma : option Store) (clock : nat -> Z)
    (jobId type : string) (setting : Setting)
    (backupFiles backupDatabase : string + string) : option Store :=
  let set (k : nat) (p : option Store) (status : Patch) :=
    store (setBackupStatus p (clock k) jobId status) in
  if bool_decide (type = "files"%string) then
    if negb (Js.truthy (bucketurl setting)) then
      set 1%nat prisma (failedPatch "Bucket URL not configured for this backend")
    else
      let p := set 1%nat prisma (progressPatch "processing" 10 "Fetching files from bucket...") in
      let p := set 2%nat p (progressPatch "processing" 30 "Downloading files...") in
      match backupFiles with
      | inr result => set 3%nat p (completedPatch "Backup completed successfully" result)
      | inl message => set 3%nat p (failedPatch (messageOr message "Backup process failed"))
      end
  else if bool_decide (type = "database"%string) then
    if negb (Js.truthy (DBurl setting)) then
      set 1%nat prisma (failedPatch "Database URL not configured for this backend")
    else
      let p := set 1%nat prisma (progressPatch "processing" 10 "Connecting to database...") in
      let p := set 2%nat p (progressPatch "processing" 30 "Fetching tables...") in
      match backupDatabase with
      | inr result => set 3%nat p (completedPatch "Backup completed successfully" result)
      | inl message => set 3%nat p (failedPatch (messageOr message "Backup process failed"))
      end
  else prisma.

(** What [createBackup] answers. *)
Inductive Response :=
| BadRequest (message : string)
| NotFound (message : string)
| Started (jobId : string).

(** [`"${x}"`] *)
Definition quoted (x : string) : string := (Reconciler.dq ++ x ++ Reconciler.dq)%string.

(** [createBackup]: the answer, and the tracker once the background task
    has ended.  [type] and [backendName] are the two properties of the
    request body, [now] is the time of [Date.now()] in [generateJobId] and
    [clock 0] the time of the first status write. *)
Definition createBackup (prisma : option Store) (now : Z) (clock : nat -> Z)
    (settings : list Setting) (type backendName : option string)
    (backupFiles backupDatabase : string + string) : Response * option Store :=
  if negb (Js.truthy type) || negb (Js.truthy backendName) then
    (BadRequest "Type and backendName are required in request body", prisma)
  else
    let type := JobTracker.show type in
    let backendName := JobTracker.show backendName in
    if negb (bool_decide (type = "files"%string)) && negb (bool_decide (type = "database"%string)) then
      (BadRequest ("Type must be either " ++ quoted "files" ++ " or " ++ quoted "database")%string,
       prisma)
    else
      match findByBackendName settings backendName with
      | None =>
        (NotFound ("Setting with backend name " ++ quoted backendName ++ " not found")%string,
         prisma)
      | Some setting =>
        let jobId := JobQueries.generateJobId backendName type now in
        let p := store (setBackupStatus prisma (clock 0%nat) jobId
                          (startedPatch type (backendname setting))) in
        (Started jobId,
         processBackupInBackground p clock jobId type setting backupFiles backupDatabase)
      end.

(** [processUploadInBackground(jobId, type, setting, backupTableName,
    remoteTableName)].  [uploadFiles] is what the file worker does;
    [fetchRecords] is what the loop over [getBackupTableData] does, the
    message it throws or the number of records it collects, and
    [uploadTableRecords] what the table worker does with them.  The result
    is the tracker when the task has ended, and how the task ended: it
    rejects when the status write inside its [catch] rejects. *)
Definition processUploadInBackground (prisma : option Store) (clock : nat -> Z)
    (jobId type : string) (setting : Setting) (backupTableName remoteTableName : string)
    (uploadFiles : string + string) (fetchRecords : string + nat)
    (uploadTableRecords : string + string) : option Store * Outcome :=
  (* the [catch] *)
  let failed (k : nat) (p : option Store) (message : string) :=
    let run := setUploadStatus p (clock k) jobId
                 (failedWithMessagePatch message ("Upload failed: " ++ message)) in
    (store run, outcome run) in
  (* a status write inside the [try] *)
  let attempt (k : nat) (p : option Store) (status : Patch)
      (next : option Store -> option Store * Outcome) :=
    let run := setUploadStatus p (clock k) jobId status in
    match outcome run with
    | Resolved => next (store run)
    | Rejected message => failed (S k) (store run) message
    end in
  let finish (k : nat) (p : option Store) (status : Patch) :=
    attempt k p status (fun p => (p, Resolved)) in
  if bool_decide (type = "files"%string) then
    if negb (Js.truthy (bucketurl setting)) then
      finish 1%nat prisma (failedPatch "Bucket URL not configured for this backend")
    else
      attempt 1%nat prisma (progressPatch "processing" 10 "Reading local files...") (fun p =>
      attempt 2%nat p (progressPatch "processing" 30 "Uploading files to remote...") (fun p =>
      match uploadFiles with
      | inr result => finish 3%nat p (completedPatch "Upload completed successfully" result)
      | inl message => failed 3%nat p message
      end))
  else if bool_decide (type = "database"%string) then
    if negb (Js.truthy (DBurl setting)) then
      finish 1%nat prisma (failedPatch "Database URL not configured for this backend")
    else
      attempt 1%nat prisma
        (progressPatch "processing" 10
           ("Fetching data from local backup table: " ++ backupTableName ++ "...")) (fun p =>
      match fetchRecords with
      | inl message => failed 2%nat p message
      | inr count =>
        attempt 2%nat p
          (progressPatch "processing" 50
             ("Uploading " ++ pretty count ++ " records to remote table: "
              ++ remoteTableName ++ "...")) (fun p =>
        match uploadTableRecords with
        | inr result => finish 3%nat p (completedPatch "Upload completed successfully" result)
        | inl message => failed 3%nat p message
        end)
      end)
  else (prisma, Resolved).

End Background.

(* ===================================================================== *)
(** * Table names of the comparison

    [src/Backend/services/comparisonService.js], the helpers at the head of
    [compareBackupWithRemote] and the two loops of its body.  Strings are
    strings of bytes; [toLowerCase] and [trim] are the ASCII parts of the
    JavaScript functions. *)
(* ===================================================================== *)

Module TableNames.

(** The white space of [trim] in the ASCII range: tab, line feed, vertical
    tab, form feed, carriage return and space. *)
Definition isSpace (c : ascii) : bool :=
  let n := nat_of_ascii c in
  ((9 <=? n) && (n <=? 13))%nat || (n =? 32)%nat.

(** [s.trimStart()] *)
Fixpoint trimStart (s : string) : string :=
  match s with
  | EmptyString => EmptyString
  | String c s' => if isSpace c then trimStart s' else s
  end.

(** [s.trimEnd()] *)
Fixpoint trimEnd (s : string) : string :=
  match s with
  | EmptyString => EmptyString
  | String c s' =>
    match trimEnd s' with
    | EmptyString => if isSpace c then EmptyString else String c EmptyString
    | t => String c t
    end
  end.

(** [s.trim()] *)
Definition trim (s : string) : string := trimEnd (trimStart s).

(** [s.substring(n)] *)
Fixpoint substringFrom (n : nat) (s : string) : string :=
  match n, s with
  | O, _ => s
  | S n', String _ s' => substringFrom n' s'
  | S _, EmptyString => EmptyString
  end.

Definition backupPrefix : string := "backup_".

(** [s.toLowerCase().startsWith('backup_')], which is also whether
    [/^backup_/i] matches [s]. *)
Definition hasBackupPrefix (s : string) : bool :=
  Js.startsWith backupPrefix (Js.toLowerCase s).

(** [s.replace(/^backup_/i, '')] *)
Definition dropBackupPrefix (s : string) : string :=
  if hasBackupPrefix s then substringFrom (String.length backupPrefix) s else s.

(** The [while] loop of [getBaseTableName]; [fuel] bounds the number of
    iterations. *)
Fixpoint stripLoop (fuel : nat) (baseName : string) : string :=
  match fuel with
  | O => baseName
  | S fuel' =>
    if hasBackupPrefix baseName then stripLoop fuel' (dropBackupPrefix baseName)
    else baseName
  end.

(** [getBaseTableName(tableName)].  The empty name is falsy and gives the
    empty string, which is also what the loop gives for it.  The loop gets
    as many iterations as the name has characters. *)
Definition getBaseTableName (tableName : string) : string :=
  if negb (Js.truthy (Some tableName)) then EmptyString
  else trim (Js.toLowerCase (stripLoop (String.length tableName) tableName)).

Definition internalTables : list string := ["settings"; "backup_statuses"]%string.

(** [isInternalTable(tableName)] *)
Definition isInternalTable (tableName : string) : bool :=
  if negb (Js.truthy (Some tableName)) then false
  else
    let baseName := getBaseTableName tableName in
    existsb (fun internal => String.eqb (Js.toLowerCase internal) baseName) internalTables.

(** The filter that gives [backupTableNames]. *)
Definition keepBackupTable (tableName : string) : bool :=
  if negb (Js.truthy (Some tableName)) then false
  else
    let lowerName := trim (Js.toLowerCase tableName) in
    if String.eqb lowerName "backup_statuses"
       || String.eqb lowerName "backup_backup_statuses"
       || String.eqb lowerName "backup_settings" then false
    else
      let baseName := getBaseTableName tableName in
      if isInternalTable baseName then false
      else
        let withoutFirstPrefix := trim (Js.toLowerCase (dropBackupPrefix tableName)) in
        if String.eqb withoutFirstPrefix "settings"
           || String.eqb withoutFirstPrefix "backup_statuses" then false
        else if isInternalTable withoutFirstPrefix then false
        else true.

(** The tests at the head of the second loop: whether the mirror table is
    passed over ([continue]). *)
Definition passedOver (backupTableName : string) : bool :=
  let lowerBackupName := trim (Js.toLowerCase backupTableName) in
  if String.eqb lowerBackupName "backup_statuses"
     || String.eqb lowerBackupName "backup_backup_statuses"
     || String.eqb lowerBackupName "backup_settings"
     || Js.includes "backup_statuses" lowerBackupName
     || (Js.includes "settings" lowerBackupName
         && negb (Js.includes "backup_settings" lowerBackupName)) then true
  else
    let baseTableName := getBaseTableName backupTableName in
    if String.eqb baseTableName "settings" || String.eqb baseTableName "backup_statuses"
    then true
    else
      let originalTableName := dropBackupPrefix backupTableName in
      let lowerOriginalName := trim (Js.toLowerCase originalTableName) in
      if String.eqb lowerOriginalName "settings"
         || String.eqb lowerOriginalName "backup_statuses" then true
      else
        isInternalTable baseTableName || isInternalTable originalTableName
        || isInternalTable lowerOriginalName.

(** [n] times the prefix [backup_]. *)
Fixpoint prefixes (n : nat) : string :=
  match n with
  | O => EmptyString
  | S n' => (backupPrefix ++ prefixes n')%string
  end.

(** A printable ASCII character other than the space. *)
Definition plain (c : ascii) : bool :=
  let n := nat_of_ascii c in
  ((33 <=? n) && (n <=? 126))%nat.

(** A name of plain characters, as an identifier of the database is. *)
Fixpoint plainName (s : string) : bool :=
  match s with
  | EmptyString => true
  | String c s' => plain c && plainName s'
  end.

End TableNames.

(* ===================================================================== *)
(** * The comparison of a mirror with its remote database

    [compareBackupWithRemote] of
    [src/Backend/services/comparisonService.js]. *)
(* ===================================================================== *)

Module ComparatorRun.
Import Comparator TableNames.

Record MissingInBackup := {
  mbTableName : string;
  mbRemoteCount : Z;
  mbBackupCount : Z;
  mbProgress : Z
}.

Record MissingInRemote := {
  mrTableName : string;
  mrBackupTableName : string;
  mrBackupCount : Z;
  mrRemoteCount : Z
}.

Record Summary := {
  fullyBackedUp : nat;
  partiallyBackedUp : nat;
  notBackedUp : nat;
  missingInRemoteCount : nat
}.

Record Comparison := {
  backendName : string;
  totalRemoteTables : nat;
  totalBackupTables : nat;
  tablesComparison : list TableEntry;
  missingInBackup : list MissingInBackup;
  missingInRemote : list MissingInRemote;
  summary : Summary
}.

Definition emptySummary : Summary :=
  {| fullyBackedUp := 0; partiallyBackedUp := 0; notBackedUp := 0;
     missingInRemoteCount := 0 |}.

(** The counter the "Determine status" block increments. *)
Definition countStatus (s : Summary) (st : TableStatus) : Summary :=
  match st with
  | fully_backed_up =>
    {| fullyBackedUp := S (fullyBackedUp s); partiallyBackedUp := partiallyBackedUp s;
       notBackedUp := notBackedUp s; missingInRemoteCount := missingInRemoteCount s |}
  | partially_backed_up =>
    {| fullyBackedUp := fullyBackedUp s; partiallyBackedUp := S (partiallyBackedUp s);
       notBackedUp := notBackedUp s; missingInRemoteCount := missingInRemoteCount s |}
  | not_backed_up =>
    {| fullyBackedUp := fullyBackedUp s; partiallyBackedUp := partiallyBackedUp s;
       notBackedUp := S (notBackedUp s); missingInRemoteCount := missingInRemoteCount s |}
  | status_error => s
  end.

Definition countMissingInRemote (s : Summary) : Summary :=
  {| fullyBackedUp := fullyBackedUp s; partiallyBackedUp := partiallyBackedUp s;
     notBackedUp := notBackedUp s; missingInRemoteCount := S (missingInRemoteCount s) |}.

Section WithDatabases.

(** What the databases answer.  [countOf t] is the row count of the mirror
    table [t], [None] when the count query throws.  [remoteIdsOf] and
    [backupIdsOf] are the results of the two id queries of
    [findMissingRecords] for a remote and a mirror table, and [fetchRows]
    the result of its query for the full records. *)
Variable countOf : string -> option Z.
Variable remoteIdsOf backupIdsOf : string -> option (list string).
Variable fetchRows : string -> list string -> option (list Obj).

(** One iteration of the loop over the remote tables. *)
Definition compareRemoteTable (backupTableNames : list string)
    (c : Comparison) (remote : string * Z) : Comparison :=
  let remoteTableName := remote.1 in
  let remoteCount := remote.2 in
  let backupTableName := ("backup_" ++ remoteTableName)%string in
  let existsInBackup := bool_decide (backupTableName ∈ backupTableNames) in
  let entry := compareTable remoteTableName remoteCount existsInBackup
                 (countOf backupTableName) (remoteIdsOf remoteTableName)
                 (backupIdsOf backupTableName) (fetchRows remoteTableName) in
  if existsInBackup then
    {| backendName := backendName c;
       totalRemoteTables := totalRemoteTables c;
       totalBackupTables := totalBackupTables c;
       tablesComparison := tablesComparison c ++ [entry];
       missingInBackup := missingInBackup c;
       missingInRemote := missingInRemote c;
       summary :=
         match countOf backupTableName with
         | Some backupCount =>
           countStatus (summary c) (tableStatus (progress backupCount remoteCount))
         | None => summary c
         end |}
  else
    {| backendName := backendName c;
       totalRemoteTables := totalRemoteTables c;
       totalBackupTables := totalBackupTables c;
       tablesComparison := tablesComparison c ++ [entry];
       missingInBackup :=
         missingInBackup c ++
         [ {| mbTableName := remoteTableName; mbRemoteCount := remoteCount;
              mbBackupCount := 0; mbProgress := 0 |} ];
       missingInRemote := missingInRemote c;
       summary := countStatus (summary c) not_backed_up |}.

(** One iteration of the loop over the mirror tables. *)
Definition compareBackupTable (remoteTableNames : list string)
    (c : Comparison) (backupTableName : string) : Comparison :=
  if passedOver backupTableName then c
  else
    let originalTableName := dropBackupPrefix backupTableName in
    if negb (bool_decide (originalTableName ∈ remoteTableNames)) then
      match countOf backupTableName with
      | Some backupCount =>
        {| backendName := backendName c;
           totalRemoteTables := totalRemoteTables c;
           totalBackupTables := totalBackupTables c;
           tablesComparison := tablesComparison c;
           missingInBackup := missingInBackup c;
           missingInRemote :=
             missingInRemote c ++
             [ {| mrTableName := originalTableName; mrBackupTableName := backupTableName;
                  mrBackupCount := backupCount; mrRemoteCount := 0 |} ];
           summary := countMissingInRemote (summary c) |}
      | None => c
      end
    else c.

(** [compareBackupWithRemote(databaseUrl, backendName)].
    [remoteTablesData] is the object [getAllTablesWithCounts] returned, as
    the list of its keys in the order of [Object.keys], each with the
    [count] of its value; [backupTablesResult] is the [table_name] column
    the query for the mirror tables returned. *)
Definition compareBackupWithRemote (backendName : string)
    (remoteTablesData : list (string * Z)) (backupTablesResult : list string)
    : Comparison :=
  let remoteTables :=
    filter (fun remote => negb (isInternalTable remote.1) = true) remoteTablesData in
  let remoteTableNames := remoteTables.*1 in
  let backupTableNames :=
    filter (fun tableName => keepBackupTable tableName = true) backupTablesResult in
  let comparison :=
    {| backendName := backendName;
       totalRemoteTables := length remoteTableNames;
       totalBackupTables := length backupTableNames;
       tablesComparison := [];
       missingInBackup := [];
       missingInRemote := [];
       summary := emptySummary |} in
  let comparison := foldl (compareRemoteTable backupTableNames) comparison remoteTables in
  foldl (compareBackupTable remoteTableNames) comparison backupTableNames.

End WithDatabases.

#[global] Instance TableStatus_eq_dec : EqDecision TableStatus.
Proof. solve_decision. Defined.

(** The number of entries of a comparison with a given status. *)
Definition withStatus (st : TableStatus) (entries : list TableEntry) : nat :=
  length (filter (fun e => status e = st) entries).

(** The counters of the summary agree with the entries. *)
Definition agrees (c : Comparison) : Prop :=
  fullyBackedUp (summary c) = withStatus fully_backed_up (tablesComparison c) /\
  partiallyBackedUp (summary c) = withStatus partially_backed_up (tablesComparison c) /\
  notBackedUp (summary c) = withStatus not_backed_up (tablesComparison c).

End ComparatorRun.

(* ===================================================================== *)
(** * The backup of the files of a bucket

    [backupFiles] of [src/Backend/services/backupService.js], on the folder
    structure [getAllFiles] returns. *)
(* ===================================================================== *)

Module FileBackup.
Import FileCompare.

(** [s.endsWith(p)] *)
Definition endsWith (p s : string) : bool :=
  (String.length p <=? String.length s)%nat
  && String.eqb p (TableNames.substringFrom (String.length s - String.length p) s).

(** How a download ends: [downloadFileFromS3] returns [true] or [false],
    [downloadFileFromHttp] resolves or rejects with a message.
    [leftBehind] says whether a failed download left something at the
    local path: a write that failed half way, or a stream the [unlink]
    could not remove. *)
Inductive Download :=
| Saved
| Failed (message : string) (leftBehind : bool).

(** [fs.mkdir(dir, { recursive: true })]: the message it throws, if it
    throws, and the directories it made. *)
Record Mkdir := {
  mkError : option string;
  made : gset string
}.

(** The counters of [backupFiles] with the paths that exist on the disk.
    [fetched] lists the downloads that were started, each with what was
    asked for and the local path it was written to. *)
Record Progress := {
  disk : gset string;
  totalFiles : nat;
  downloadedFiles : nat;
  skippedFiles : nat;
  errors : list string;
  fetched : list (string * string)
}.

Section WithStore.

(** [pathJoin] is [path.join] on three segments; [mkdir filePath] is
    [fs.mkdir(path.dirname(filePath), { recursive: true })]; [download] is
    the download function in use, [downloadFileFromS3] when [viaS3], which
    is the value of [s3Client && bucketName], and [downloadFileFromHttp]
    otherwise. *)
Variable pathJoin : string -> string -> string -> string.
Variable mkdir : string -> Mkdir.
Variable download : string -> string -> Download.
Variable bucketUrl : string.
Variable viaS3 : bool.

(** [file.key || fullKey] *)
Definition keyOf (currentPath : string) (file : File) : string :=
  if Js.truthy (Some (key file)) then key file else joinPath currentPath (name file).

(** What the download function is asked for: the key, or the URL of the
    file. *)
Definition sourceOf (k : string) : string :=
  if viaS3 then k
  else if endsWith "/" bucketUrl then (bucketUrl ++ k)%string
  else (bucketUrl ++ "/" ++ k)%string.

(** The body of the loop over [structure.files]. *)
Definition processFile (backupPath : string) (s : Progress)
    (entry : string * File) : Progress :=
  let currentPath := entry.1 in
  let file := entry.2 in
  let filePath := pathJoin backupPath currentPath (name file) in
  let k := keyOf currentPath file in
  let exist := disk s ∪ made (mkdir filePath) in
  match mkError (mkdir filePath) with
  | Some message =>
    {| disk := exist;
       totalFiles := S (totalFiles s);
       downloadedFiles := downloadedFiles s;
       skippedFiles := skippedFiles s;
       errors := errors s ++ [("Error processing " ++ k ++ ": " ++ message)%string];
       fetched := fetched s |}
  | None =>
    if decide (filePath ∈ exist) then
      {| disk := exist;
         totalFiles := S (totalFiles s);
         downloadedFiles := downloadedFiles s;
         skippedFiles := S (skippedFiles s);
         errors := errors s;
         fetched := fetched s |}
    else
      match download (sourceOf k) filePath with
      | Saved =>
        {| disk := {[ filePath ]} ∪ exist;
           totalFiles := S (totalFiles s);
           downloadedFiles := S (downloadedFiles s);
           skippedFiles := skippedFiles s;
           errors := errors s;
           fetched := fetched s ++ [(sourceOf k, filePath)] |}
      | Failed message leftBehind =>
        {| disk := if leftBehind then {[ filePath ]} ∪ exist else exist;
           totalFiles := S (totalFiles s);
           downloadedFiles := downloadedFiles s;
           skippedFiles := skippedFiles s;
           errors :=
             errors s
             ++ (if viaS3 then []
                 else [("Failed to download " ++ k ++ ": " ++ message)%string])
             ++ [("Failed to download " ++ k)%string];
           fetched := fetched s ++ [(sourceOf k, filePath)] |}
      end
  end.

(** [processFolder(structure, currentPath)] *)
Fixpoint processFolder (backupPath : string) (structure : Node) (currentPath : string)
    (s : Progress) : Progress :=
  match structure with
  | mkNode files folders =>
    let s := foldl (processFile backupPath) s ((fun file => (currentPath, file)) <$> files) in
    (fix subfolders (fs : list (string * Node)) (s : Progress) : Progress :=
       match fs with
       | [] => s
       | (folderName, folder) :: rest =>
         subfolders rest (processFolder backupPath folder (joinPath currentPath folderName) s)
       end) folders s
  end.

(** The files of a structure in the order [processFolder] meets them, each
    with the path of its folder. *)
Fixpoint listing (structure : Node) (currentPath : string) : list (string * File) :=
  match structure with
  | mkNode files folders =>
    ((fun file => (currentPath, file)) <$> files)
    ++ (fix subfolders (fs : list (string * Node)) : list (string * File) :=
          match fs with
          | [] => []
          | (folderName, folder) :: rest =>
            listing folder (joinPath currentPath folderName) ++ subfolders rest
          end) folders
  end.

Definition start (disk : gset string) : Progress :=
  {| disk := disk; totalFiles := 0; downloadedFiles := 0; skippedFiles := 0;
     errors := []; fetched := [] |}.

(** [backupFiles(bucketUrl, attributes, backupPath)] on a disk holding the
    paths [disk].  [root] is what [fs.mkdir(backupPath)] does and [listed]
    what [getAllFiles] does: the message it throws, or the structure it
    returns.  The result is the message of the rejection, or the counters
    returned with the disk as the run leaves it. *)
Definition backupFiles (disk : gset string) (backupPath : string) (root : Mkdir)
    (listed : string + Node) : string + Progress :=
  match mkError root with
  | Some message => inl ("Backup files failed: " ++ message)%string
  | None =>
    match listed with
    | inl message => inl ("Backup files failed: " ++ message)%string
    | inr folderStructure =>
      inr (processFolder backupPath folderStructure "" (start (disk ∪ made root)))
    end
  end.

(** The path a file is written to. *)
Definition pathOf (backupPath : string) (entry : string * File) : string :=
  pathJoin backupPath entry.1 (name entry.2).

End WithStore.

End FileBackup.

(* ===================================================================== *)
(** * The backup of a database

    [getTableDataPaginated] of
    [src/Backend/services/fhsDatabaseService.js] and [backupDatabase] of
    [src/Backend/services/backupService.js].  A remote table is the list
    of its rows in the order in which the database returns them; it does
    not change while it is read. *)
(* ===================================================================== *)

Module DatabaseBackup.
Import Reconciler.

(** [SELECT * ... LIMIT limit OFFSET offset] *)
Definition limitOffset (rows : list Obj) (limit offset : nat) : list Obj :=
  take limit (drop offset rows).

(** [Math.ceil(total / limit)] for [limit > 0] *)
Definition ceilDiv (total limit : nat) : nat := (total + limit - 1) / limit.

Record Page := {
  data : list Obj;
  total : nat;
  page : nat;
  pageLimit : nat;
  totalPages : nat
}.

(** [getTableDataPaginated(databaseUrl, tableName, page, limit)] for
    [limit > 0] on a table that can be read.  For a page below 1 the
    offset is negative and the database rejects the query. *)
Definition getTableDataPaginated (rows : list Obj) (page limit : nat) : string + Page :=
  if (page =? 0)%nat then inl "OFFSET must not be negative"%string
  else
    let offset := ((page - 1) * limit)%nat in
    inr {| data := limitOffset rows limit offset;
           total := length rows;
           page := page;
           pageLimit := limit;
           totalPages := ceilDiv (length rows) limit |}.

(** [const limit = 1000] *)
Definition limit : nat := 1000.

Record Totals := {
  totalInserted : nat;
  totalUpdated : nat
}.

Record TableError := {
  errorTable : string;
  errorMessage : string
}.

(** The counters [backupDatabase] returns.  A manual command is given by
    the statement it spells out. *)
Record Results := {
  totalTables : nat;
  processedTables : nat;
  insertedRecords : nat;
  skippedRecords : nat;
  errors : list TableError;
  manualCommands : list Stmt
}.

(** The mirror tables, by the name of the remote table, and the counters. *)
Record State := {
  mirrors : string -> list StoredRow;
  results : Results
}.

Section WithDatabases.

(** [fault] is the local database, as for [upsertTableData].  On the
    remote side [rowsOf] gives the rows of a table, [columnsOf] what
    [getTableColumns] does, and [fetchFault tableName page] the message
    with which reading a page fails. *)
Variable fault : Stmt -> option string.
Variable rowsOf : string -> list Obj.
Variable columnsOf : string -> string + list Column.
Variable fetchFault : string -> nat -> option string.

(** The [while (true)] loop over the pages of one table, from page
    [page]; [fuel] bounds the number of pages read. *)
Fixpoint pageLoop (fuel : nat) (tableName : string) (columns : list Column)
    (page : nat) (table : list StoredRow) (totals : Totals)
    : option (list StoredRow * (string + Totals)) :=
  match fuel with
  | O => None
  | S fuel' =>
    match fetchFault tableName page with
    | Some message => Some (table, inl message)
    | None =>
      match getTableDataPaginated (rowsOf tableName) page limit with
      | inl message => Some (table, inl message)
      | inr pageData =>
        if (length (data pageData) =? 0)%nat then Some (table, inr totals)
        else
          match upsertTableData fault tableName (data pageData) columns table with
          | (table', inl message) => Some (table', inl message)
          | (table', inr result) =>
            let totals' :=
              {| totalInserted := totalInserted totals + inserted result;
                 totalUpdated := totalUpdated totals + skipped result |} in
            if (length (data pageData) <? limit)%nat then Some (table', inr totals')
            else pageLoop fuel' tableName columns (S page) table' totals'
          end
      end
    end
  end.

(** The statement of the manual command for a table: it always has a
    serial [id]. *)
Definition manualCommand (tableName : string) (columns : list Column) : Stmt :=
  CreateTable ("backup_" ++ tableName) true
    (map (fun col => (Js.sanitize (name col), columnType (type col))) columns).

Definition setMirror (mirrors : string -> list StoredRow) (tableName : string)
    (table : list StoredRow) : string -> list StoredRow :=
  fun t => if decide (t = tableName) then table else mirrors t.

Definition pushError (r : Results) (tableName message : string) : Results :=
  {| totalTables := totalTables r;
     processedTables := processedTables r;
     insertedRecords := insertedRecords r;
     skippedRecords := skippedRecords r;
     errors := errors r ++ [ {| errorTable := tableName; errorMessage := message |} ];
     manualCommands := manualCommands r |}.

(** The body of [for (const tableName of tableNames)]. *)
Definition backupTable (fuel : nat) (st : State) (tableName : string) : option State :=
  match columnsOf tableName with
  | inl message =>
    Some {| mirrors := mirrors st; results := pushError (results st) tableName message |}
  | inr columns =>
    match pageLoop fuel tableName columns 1 (mirrors st tableName)
            {| totalInserted := 0; totalUpdated := 0 |} with
    | None => None
    | Some (table', inl message) =>
      Some {| mirrors := setMirror (mirrors st) tableName table';
              results := pushError (results st) tableName message |}
    | Some (table', inr totals) =>
      Some {| mirrors := setMirror (mirrors st) tableName table';
              results :=
                {| totalTables := totalTables (results st);
                   processedTables := S (processedTables (results st));
                   insertedRecords := insertedRecords (results st) + totalInserted totals;
                   skippedRecords := skippedRecords (results st) + totalUpdated totals;
                   errors := errors (results st);
                   manualCommands :=
                     manualCommands (results st) ++ [manualCommand tableName columns] |} |}
    end
  end.

Fixpoint backupTables (fuel : nat) (st : State) (tableNames : list string) : option State :=
  match tableNames with
  | [] => Some st
  | tableName :: rest =>
    match backupTable fuel st tableName with
    | None => None
    | Some st' => backupTables fuel st' rest
    end
  end.

(** [backupDatabase(databaseUrl, backendName)] once
    [getAllTablesWithCounts] has returned the tables [tableNames]. *)
Definition backupDatabase (fuel : nat) (mirrors : string -> list StoredRow)
    (tableNames : list string) : option State :=
  backupTables fuel
    {| mirrors := mirrors;
       results := {| totalTables := length tableNames; processedTables := 0;
                     insertedRecords := 0; skippedRecords := 0; errors := [];
                     manualCommands := [] |} |}
    tableNames.

End WithDatabases.

(** The rows by which the mirrors of the tables [tableNames] have grown. *)
Definition grown (before after : string -> list StoredRow) (tableNames : list string) : nat :=
  sum_list ((fun t => length (after t) - length (before t))%nat <$> tableNames).

(** What [upsertTableData] returns, as the totals of the page loop. *)
Definition asTotals (r : list StoredRow * (string + Result))
    : list StoredRow * (string + Totals) :=
  (r.1, match r.2 with
        | inl message => inl message
        | inr result =>
          inr {| totalInserted := inserted result; totalUpdated := skipped result |}
        end).

End DatabaseBackup.

(* ===================================================================== *)
(** * Deleting from the mirror tables

    [deleteBackupById], [deleteBackupByDateRange] and
    [deleteAllBackupTablesByDateRange] of
    [src/Backend/services/backupService.js]. *)
(* ===================================================================== *)

Module BackupDeletion.

(** A row of a mirror table: its [id], the instant in [backup_created_at]
    and the other columns. *)
Record Row := {
  id : Z;
  backup_created_at : Z;
  others : gmap string string
}.

(** The local database: the rows of every table that exists. *)
Abbreviation Database := (gmap string (list Row)).

(** The statements the functions send, by content. *)
Inductive Query :=
| TableExists (table : string)
| CountRange (table : string) (startISO endISO : Z)
| DeleteRange (table : string) (startISO endISO : Z)
| DeleteId (table : string) (recordId : Z).

(** [backup_created_at >= start AND backup_created_at <= end] *)
Definition inRange (start end_ : Z) (row : Row) : bool :=
  (start <=? backup_created_at row) && (backup_created_at row <=? end_).

Record Deleted := {
  deletedCount : nat;
  startDate : Z;
  endDate : Z
}.

Record TableDetail := {
  detailTable : string;
  detailCount : nat
}.

Record TableError := {
  errorTable : string;
  errorMessage : string
}.

Record RangeResults := {
  totalTables : nat;
  processedTables : nat;
  totalDeletedRecords : nat;
  resultStart : Z;
  resultEnd : Z;
  tableDetails : list TableDetail;
  errors : list TableError
}.

Definition doesNotExist (table : string) : string :=
  ("Table " ++ table ++ " does not exist")%string.

Definition relationMissing (table : string) : string :=
  ("relation " ++ Reconciler.dq ++ table ++ Reconciler.dq ++ " does not exist")%string.

Definition invalidDate : string := "Invalid date format. Use YYYY-MM-DD or ISO format".
Definition startAfterEnd : string := "Start date must be before end date".

(** The validation of the two dates: [new Date(s)] is an instant, or the
    invalid date, [None]. *)
Definition validDates (startDate endDate : option Z) : string + Z * Z :=
  match startDate, endDate with
  | Some start, Some end_ =>
    if (end_ <? start) then inl startAfterEnd else inr (start, end_)
  | _, _ => inl invalidDate
  end.

Section WithDatabase.

(** The database rejects the statements on which [fault] gives a message;
    a statement on a table that does not exist is rejected as well. *)
Variable fault : Query -> option string.

(** The count query and the delete of a range on one table: the database
    afterwards, and the message thrown or the count. *)
Definition deleteRange (table : string) (start end_ : Z) (guarded : bool) (db : Database)
    : Database * (string + nat) :=
  match fault (CountRange table start end_) with
  | Some message => (db, inl message)
  | None =>
    match db !! table with
    | None => (db, inl (relationMissing table))
    | Some rows =>
      let totalBefore := length (filter (fun row => inRange start end_ row = true) rows) in
      if guarded && negb (0 <? totalBefore)%nat then (db, inr totalBefore)
      else
        match fault (DeleteRange table start end_) with
        | Some message => (db, inl message)
        | None =>
          (<[table := filter (fun row => inRange start end_ row = false) rows]> db,
           inr totalBefore)
        end
    end
  end.

(** [deleteBackupByDateRange(tableName, backendName, startDate, endDate)] *)
Definition deleteBackupByDateRange (tableName : string) (startDate endDate : option Z)
    (db : Database) : Database * (string + Deleted) :=
  let failed message :=
    (db, inl ("Failed to delete backup data by date range: " ++ message)%string) in
  let backupTableName := ("backup_" ++ tableName)%string in
  match fault (TableExists backupTableName) with
  | Some message => failed message
  | None =>
    if negb (bool_decide (is_Some (db !! backupTableName))) then
      failed (doesNotExist backupTableName)
    else
      match validDates startDate endDate with
      | inl message => failed message
      | inr (start, end_) =>
        match deleteRange backupTableName start end_ false db with
        | (_, inl message) => failed message
        | (db', inr totalBefore) =>
          (db', inr {| deletedCount := totalBefore; startDate := start; endDate := end_ |})
        end
      end
  end.

(** The body of the loop of [deleteAllBackupTablesByDateRange]. *)
Definition deleteFromTable (start end_ : Z) (st : Database * RangeResults)
    (tableName : string) : Database * RangeResults :=
  let '(db, results) := st in
  match deleteRange tableName start end_ true db with
  | (_, inl message) =>
    (db,
     {| totalTables := totalTables results;
        processedTables := processedTables results;
        totalDeletedRecords := totalDeletedRecords results;
        resultStart := resultStart results;
        resultEnd := resultEnd results;
        tableDetails := tableDetails results;
        errors := errors results
                  ++ [ {| errorTable := tableName; errorMessage := message |} ] |})
  | (db', inr totalBefore) =>
    if (0 <? totalBefore)%nat then
      (db',
       {| totalTables := totalTables results;
          processedTables := S (processedTables results);
          totalDeletedRecords := totalDeletedRecords results + totalBefore;
          resultStart := resultStart results;
          resultEnd := resultEnd results;
          tableDetails := tableDetails results
                          ++ [ {| detailTable := tableName; detailCount := totalBefore |} ];
          errors := errors results |})
    else (db', results)
  end.

(** [deleteAllBackupTablesByDateRange(backendName, startDate, endDate)];
    [tables] is what the query for the tables [LIKE 'backup_%'] returns,
    or the message with which it fails. *)
Definition deleteAllBackupTablesByDateRange (startDate endDate : option Z)
    (tables : string + list string) (db : Database)
    : Database * (string + RangeResults) :=
  let failed message :=
    (db, inl ("Failed to delete backup data by date range from all tables: "
              ++ message)%string) in
  match validDates startDate endDate with
  | inl message => failed message
  | inr (start, end_) =>
    match tables with
    | inl message => failed message
    | inr tables =>
      let results :=
        {| totalTables := length tables; processedTables := 0; totalDeletedRecords := 0;
           resultStart := start; resultEnd := end_; tableDetails := []; errors := [] |} in
      let '(db', results) := foldl (deleteFromTable start end_) (db, results) tables in
      (db', inr results)
    end
  end.

(** [deleteBackupById(tableName, backendName, id)]; [recordId] is
    [parseInt(id)], [None] when it is [NaN]. *)
Definition deleteBackupById (tableName : string) (recordId : option Z) (idText : string)
    (db : Database) : Database * (string + Z) :=
  let failed message :=
    (db, inl ("Failed to delete backup record: " ++ message)%string) in
  let backupTableName := ("backup_" ++ tableName)%string in
  match fault (TableExists backupTableName) with
  | Some message => failed message
  | None =>
    match db !! backupTableName with
    | None => failed (doesNotExist backupTableName)
    | Some rows =>
      match recordId with
      | None => failed "Invalid ID format"%string
      | Some recordId =>
        match fault (DeleteId backupTableName recordId) with
        | Some message => failed message
        | None =>
          let result := filter (fun row => id row = recordId) rows in
          let db' := <[backupTableName := filter (fun row => id row <> recordId) rows]> db in
          match result with
          | [] => (db', inl ("Failed to delete backup record: Record with id "
                             ++ idText ++ " not found")%string)
          | first :: _ => (db', inr (id first))
          end
        end
      end
    end
  end.

End WithDatabase.

(** The rows of all tables of a database. *)
Definition rowCount (db : Database) (tables : list string) : nat :=
  sum_list ((fun t => length (default [] (db !! t))) <$> tables).

Definition noFault (q : Query) : option string := None.

End BackupDeletion.

(* ===================================================================== *)
(** * The folder structure of a listing

    [organizeFilesByFolder] of
    [src/Backend/services/fhsFilesService.js]. *)
(* ===================================================================== *)

Module Organize.
Import FileCompare.

(** [s.split('/')] *)
Fixpoint splitSlash (s : string) : list string :=
  match s with
  | EmptyString => [EmptyString]
  | String c s' =>
    if Ascii.eqb c "/" then EmptyString :: splitSlash s'
    else
      match splitSlash s' with
      | [] => [String c EmptyString]
      | part :: parts => String c part :: parts
      end
  end.

(** [key.split('/').filter(part => part.length > 0)] *)
Definition partsOf (key : string) : list string :=
  filter (fun part => part <> EmptyString) (splitSlash key).

(** The names every object inherits from [Object.prototype]: for them
    [folders[name]] is truthy on an object that has no such folder. *)
Definition inherited : list string :=
  [ "constructor"; "hasOwnProperty"; "isPrototypeOf"; "propertyIsEnumerable";
    "toLocaleString"; "toString"; "valueOf"; "__proto__"; "__defineGetter__";
    "__defineSetter__"; "__lookupGetter__"; "__lookupSetter__" ]%string.

Definition isDigit (c : ascii) : bool :=
  let n := nat_of_ascii c in ((48 <=? n) && (n <=? 57))%nat.

Fixpoint digitsValue (acc : N) (s : string) : option N :=
  match s with
  | EmptyString => Some acc
  | String c s' =>
    if isDigit c then digitsValue (10 * acc + N.of_nat (nat_of_ascii c - 48))%N s'
    else None
  end.

(** The array index a property name stands for, if it is one: a canonical
    decimal numeral below [2^32 - 1].  [Object.keys] lists such names first,
    in the order of the numbers, and the other names in the order in which
    they were added. *)
Definition arrayIndex (s : string) : option N :=
  match s with
  | EmptyString => None
  | String c s' =>
    if Ascii.eqb c "0" then (if String.eqb s' EmptyString then Some 0%N else None)
    else
      match digitsValue 0 s with
      | Some n => if (n <? 4294967295)%N then Some n else None
      | None => None
      end
  end.

(** [folders[name] = node] for a name the object does not have, with the
    properties in the order of [Object.keys]. *)
Fixpoint addFolder (folders : list (string * Node)) (name : string) (node : Node)
    : list (string * Node) :=
  match folders with
  | [] => [(name, node)]
  | (name', node') :: rest =>
    match arrayIndex name, arrayIndex name' with
    | Some n, Some n' =>
      if (n <? n')%N then (name, node) :: folders
      else (name', node') :: addFolder rest name node
    | Some _, None => (name, node) :: folders
    | None, _ => (name', node') :: addFolder rest name node
    end
  end.

(** [folders[name]] for an own property. *)
Fixpoint getFolder (folders : list (string * Node)) (name : string) : option Node :=
  match folders with
  | [] => None
  | (name', node') :: rest => if decide (name = name') then Some node' else getFolder rest name
  end.

(** The object with the folder [name] replaced. *)
Fixpoint setFolder (folders : list (string * Node)) (name : string) (node : Node)
    : list (string * Node) :=
  match folders with
  | [] => []
  | (name', node') :: rest =>
    if decide (name = name') then (name, node) :: rest
    else (name', node') :: setFolder rest name node
  end.

Definition emptyNode : Node := mkNode [] [].

Definition typeError : string := "TypeError".

(** The walk along the folders of a key from [current], creating the
    folders that are missing, and the [push] into the folder reached. *)
Fixpoint insertInto (folderNames : list string) (file : File) (current : Node)
    : string + Node :=
  match current with
  | mkNode files folders =>
    match folderNames with
    | [] => inr (mkNode (files ++ [file]) folders)
    | folderName :: rest =>
      match getFolder folders folderName with
      | Some sub =>
        match insertInto rest file sub with
        | inl message => inl message
        | inr sub' => inr (mkNode files (setFolder folders folderName sub'))
        end
      | None =>
        if bool_decide (folderName ∈ inherited) then inl typeError
        else
          match insertInto rest file emptyNode with
          | inl message => inl message
          | inr sub' => inr (mkNode files (addFolder folders folderName sub'))
          end
      end
    end
  end.

(** [file.key || file.name]; when both are missing the code goes on with
    the file itself, which has no [split]. *)
Definition listedKey (file : File) : option string :=
  if Js.truthy (Some (key file)) then Some (key file)
  else if Js.truthy (Some (name file)) then Some (name file)
  else None.

(** [{ ...file, name: fileName, key: key }]; a missing last part leaves
    the name undefined, which reads as the empty name. *)
Definition placedFile (file : File) (k : string) : File :=
  {| name := List.last (partsOf k) EmptyString;
     key := k;
     size := size file;
     lastModified := lastModified file |}.

(** The body of [files.forEach]. *)
Definition organizeFile (folderStructure : Node) (file : File) : string + Node :=
  match listedKey file with
  | None => inl typeError
  | Some k =>
    let parts := partsOf k in
    if (length parts =? 1)%nat then
      match folderStructure with
      | mkNode files folders => inr (mkNode (files ++ [placedFile file k]) folders)
      end
    else insertInto (removelast parts) (placedFile file k) folderStructure
  end.

(** [organizeFilesByFolder(files)]: the structure, or the error thrown. *)
Fixpoint organizeFrom (folderStructure : Node) (files : list File) : string + Node :=
  match files with
  | [] => inr folderStructure
  | file :: rest =>
    match organizeFile folderStructure file with
    | inl message => inl message
    | inr folderStructure' => organizeFrom folderStructure' rest
    end
  end.

Definition organizeFilesByFolder (files : list File) : string + Node :=
  organizeFrom emptyNode files.

(** The path of the folder reached from [base] along [folderNames], as
    [traverse] and [processFolder] build it. *)
Definition folderPath (base : string) (folderNames : list string) : string :=
  foldl joinPath base folderNames.

(** A listed file where the structure holds it: the path of its folder
    and the file stored. *)
Definition placed (file : File) : string * File :=
  let k := default EmptyString (listedKey file) in
  (folderPath EmptyString (removelast (partsOf k)), placedFile file k).

(** A key with its empty parts left out. *)
Definition normalKey (k : string) : string :=
  match partsOf k with
  | [] => k
  | parts => String.concat "/" parts
  end.

(** The key of a file of the structure in the flattened map. *)
Definition flatKey (entry : string * File) : string :=
  joinPath entry.1 (nameOrKey entry.2).

End Organize.

(* ===================================================================== *)
(** * The listing of a bucket

    [getAllFilesFromS3] of [src/Backend/services/fhsFilesService.js]. *)
(* ===================================================================== *)

Module S3Listing.
Import FileCompare.

(** An element of [response.Contents]. *)
Record S3Object := {
  Key : string;
  Size : option Z;
  LastModified : option string;
  ETag : option string
}.

(** What [ListObjectsV2] answers. *)
Record ListResponse := {
  Contents : option (list S3Object);
  NextContinuationToken : option string
}.

(** [key.split('/').pop()] *)
Definition lastSegment (k : string) : string :=
  List.last (Organize.splitSlash k) EmptyString.

(** The object pushed on [files]; its [etag] is not read again. *)
Definition fileOf (obj : S3Object) : File :=
  {| name := lastSegment (Key obj);
     key := Key obj;
     size := Size obj;
     lastModified := LastModified obj |}.

(** The files one response adds: the folder markers are skipped. *)
Definition filesOf (response : ListResponse) : list File :=
  fileOf <$> filter (fun obj => FileBackup.endsWith "/" (Key obj) = false)
                    (default [] (Contents response)).

(** [...(continuationToken && { ContinuationToken: continuationToken })] *)
Definition tokenSent (continuationToken : option string) : option string :=
  if Js.truthy continuationToken then continuationToken else None.

(** The [do ... while (continuationToken)] loop.  [responses] are the
    answers of the bucket to the requests in the order in which they are
    sent, each a response or the message of an error.  The result is what
    the loop ends with, [None] when the answers given do not reach its
    end, and the tokens of the requests sent. *)
Fixpoint listLoop (responses : list (string + ListResponse))
    (continuationToken : option string) (files : list File) (sent : list (option string))
    : option (string + list File) * list (option string) :=
  match responses with
  | [] => (None, sent)
  | answer :: later =>
    let sent := sent ++ [tokenSent continuationToken] in
    match answer with
    | inl message => (Some (inl message), sent)
    | inr response =>
      let files := files ++ filesOf response in
      let continuationToken := NextContinuationToken response in
      if Js.truthy continuationToken then listLoop later continuationToken files sent
      else (Some (inr files), sent)
    end
  end.

(** The credentials [getAllFilesFromS3] finds: in the attributes, else in
    the environment. *)
Record Credentials := {
  S3_REGION : option string;
  AWS_ACCESS_KEY_ID : option string;
  AWS_SECRET_ACCESS_KEY : option string
}.

Definition credentialsMissing : string :=
  "AWS credentials not found in attributes or environment variables".

(** [getAllFilesFromS3(bucketUrl, attributes)]; [url] is [new URL(bucketUrl)]
    as far as it matters, the message it throws if it throws. *)
Definition getAllFilesFromS3 (url : option string) (attributes env : Credentials)
    (responses : list (string + ListResponse)) : option (string + list File) :=
  let failed message := Some (inl ("Failed to list S3 files: " ++ message)%string) in
  match url with
  | Some message => failed message
  | None =>
    let accessKeyId := Js.orElse (AWS_ACCESS_KEY_ID attributes) (AWS_ACCESS_KEY_ID env) in
    let secretAccessKey :=
      Js.orElse (AWS_SECRET_ACCESS_KEY attributes) (AWS_SECRET_ACCESS_KEY env) in
    if negb (Js.truthy accessKeyId) || negb (Js.truthy secretAccessKey) then
      failed credentialsMissing
    else
      match (listLoop responses None [] []).1 with
      | None => None
      | Some (inl message) => failed message
      | Some (inr files) => Some (inr files)
      end
  end.

End S3Listing.

(* ===================================================================== *)
(** * The tables of the remote database

    [getTableData], [getTableRowCount] and [getAllTablesWithCounts] of
    [src/Backend/services/fhsDatabaseService.js]. *)
(* ===================================================================== *)

Module RemoteTables.

(** The text of the query of [getTableData]. *)
Definition selectAllQuery (tableName : string) : string :=
  ("SELECT * FROM " ++ Reconciler.dq ++ Js.sanitize tableName ++ Reconciler.dq)%string.

(** The text of the count query of [getTableRowCount] and
    [getTableDataPaginated]. *)
Definition countQuery (tableName : string) : string :=
  ("SELECT COUNT(*) as total FROM "
   ++ Reconciler.dq ++ Js.sanitize tableName ++ Reconciler.dq)%string.

(** The number of times a character occurs in a text. *)
Fixpoint occurrences (c : ascii) (s : string) : nat :=
  match s with
  | EmptyString => 0
  | String c' s' => (if Ascii.eqb c c' then 1 else 0) + occurrences c s'
  end.

(** Every character of a text is a letter, a digit or the underscore. *)
Fixpoint isIdentifier (s : string) : bool :=
  match s with
  | EmptyString => true
  | String c s' => Js.isIdentChar c && isIdentifier s'
  end.

(** [getTableRowCount(databaseUrl, tableName)]; [run] is the database: the
    total a count query returns, or the message with which it or the
    connection fails. *)
Definition getTableRowCount (run : string -> string + Z) (tableName : string) : Z :=
  match run (countQuery tableName) with
  | inr total => total
  | inl _ => 0
  end.

(** A value of the object [getAllTablesWithCounts] returns. *)
Record TableCount := {
  count : Z;
  error : option string
}.

(** [getAllTablesWithCounts(databaseUrl)]; [tableNames] is what
    [getAllTableNames] does.  The [catch] inside the loop is written down
    with the call it guards, which returns. *)
Definition getAllTablesWithCounts (tableNames : string + list string)
    (run : string -> string + Z) : string + gmap string TableCount :=
  match tableNames with
  | inl message => inl ("Failed to get tables from database: " ++ message)%string
  | inr tableNames =>
    inr (foldl (fun result tableName =>
                  <[tableName := {| count := getTableRowCount run tableName;
                                    error := None |}]> result)
               ∅ tableNames)
  end.

End RemoteTables.

(* ===================================================================== *)
(** * The script that clears the local database

    [deleteAllExceptSettings], the script kept with
    [src/Backend/services/fhsFilesService.js]. *)
(* ===================================================================== *)

Module ClearScript.

Abbreviation Database := (gmap string (list Reconciler.StoredRow)).

(** [DELETE FROM "tableName"]: the database afterwards, or the message of
    the error; [fault] gives the tables whose rows cannot be deleted. *)
Definition deleteFrom (fault : string -> option string) (tableName : string)
    (db : Database) : string + Database :=
  match fault tableName with
  | Some message => inl message
  | None =>
    match db !! tableName with
    | Some _ => inr (<[tableName := []]> db)
    | None => inl (BackupDeletion.relationMissing tableName)
    end
  end.

(** The loop of the script; an error ends it, and the process with exit
    code 1. *)
Fixpoint clearTables (fault : string -> option string) (allTables : list string)
    (db : Database) : Database * Z :=
  match allTables with
  | [] => (db, 0)
  | tableName :: rest =>
    if bool_decide (tableName = "settings"%string) then clearTables fault rest db
    else
      match deleteFrom fault tableName db with
      | inl _ => (db, 1)
      | inr db' => clearTables fault rest db'
      end
  end.

(** [deleteAllExceptSettings()]; [allTables] is what the query for the
    tables returns, or the message with which it fails. *)
Definition deleteAllExceptSettings (fault : string -> option string)
    (allTables : string + list string) (db : Database) : Database * Z :=
  match allTables with
  | inl _ => (db, 1)
  | inr allTables => clearTables fault allTables db
  end.

End ClearScript.

(* ===================================================================== *)
(** * Properties *)
(* ===================================================================== *)

(** ** Comparator *)

Section ComparatorFacts.

Import Comparator.

Lemma roundPercent_spec (b r q : Z) :
  0 < r -> (roundPercent b r = q <-> 2 * r * q <= 200 * b + r < 2 * r * (q + 1)).
Proof.
  intros Hr. unfold roundPercent.
  pose proof (Z.div_mod (200 * b + r) (2 * r) ltac:(lia)) as Hdm.
  pose proof (Z.mod_pos_bound (200 * b + r) (2 * r) ltac:(lia)) as Hm.
  split.
  - intros <-. nia.
  - intros Hq. symmetry. apply (Z.div_unique _ _ q (200 * b + r - 2 * r * q)); lia.
Qed.

(** The scenario of the specification: three rows on both sides. *)
Example progress_widgets : progress 3 3 = 100 /\ tableStatus (progress 3 3) = fully_backed_up.
Proof. split; reflexivity. Qed.

(** Rounding reaches 100 while a row is still missing. *)
Example progress_rounds_up : progress 999 1000 = 100.
Proof. reflexivity. Qed.




(** *** Missing records *)

Lemma foldl_setAdd_elem (xs acc : list string) (x : string) :
  x ∈ foldl setAdd acc xs <-> x ∈ acc \/ x ∈ xs.
Proof.
  revert acc. induction xs as [|y xs IH]; intros acc; simpl.
  - rewrite elem_of_nil. tauto.
  - rewrite IH. unfold setAdd. rewrite elem_of_cons.
    destruct (decide (y ∈ acc)) as [Hy | Hy].
    + split; [tauto|]. intros [H | [-> | H]]; tauto.
    + rewrite elem_of_app, list_elem_of_singleton. tauto.
Qed.

Lemma foldl_setAdd_NoDup (xs acc : list string) :
  NoDup acc -> NoDup (foldl setAdd acc xs).
Proof.
  revert acc. induction xs as [|y xs IH]; intros acc Hacc; simpl; [done|].
  apply IH. unfold setAdd. destruct (decide (y ∈ acc)) as [Hy | Hy]; [done|].
  apply NoDup_app. split; [done|]. split.
  - intros z Hz Hz'. apply list_elem_of_singleton in Hz'. by subst.
  - apply NoDup_singleton.
Qed.

Lemma newSet_elem (xs : list string) (x : string) : x ∈ newSet xs <-> x ∈ xs.
Proof. unfold newSet. rewrite foldl_setAdd_elem, elem_of_nil. tauto. Qed.

Lemma newSet_NoDup (xs : list string) : NoDup (newSet xs).
Proof. apply foldl_setAdd_NoDup, NoDup_nil_2. Qed.

(** The ids [findMissingRecords] returns when both id queries succeed. *)
Lemma findMissingRecords_ids (rs bs : list string) fetchRows :
  let found := findMissingRecords (Some rs) (Some bs) fetchRows in
  NoDup (ids found) /\
  (forall x, x ∈ ids found <-> x ∈ rs /\ x ∉ bs) /\
  totalMissing found = length (ids found).
Proof.
  simpl. split; [|split; [|done]].
  - apply NoDup_filter, newSet_NoDup.
  - intros x. rewrite list_elem_of_filter, newSet_elem. unfold setHas.
    rewrite negb_true_iff, bool_decide_eq_false, newSet_elem. tauto.
Qed.

Lemma findMissingRecords_set (rs bs : list string) fetchRows :
  list_to_set (ids (findMissingRecords (Some rs) (Some bs) fetchRows))
  = missingSetSpec rs bs.
Proof.
  destruct (findMissingRecords_ids rs bs fetchRows) as (_ & Hin & _).
  unfold missingSetSpec. apply set_eq. intros x.
  rewrite elem_of_list_to_set, Hin, elem_of_difference, !elem_of_list_to_set. done.
Qed.

Lemma compareTable_behind (tableName : string) (remoteCount backupCount : Z)
    (remoteIdsResult backupIdsResult : option (list string))
    (fetchRows : list string -> option (list Obj)) :
  0 <= backupCount -> backupCount < remoteCount ->
  let found := findMissingRecords remoteIdsResult backupIdsResult fetchRows in
  compareTable tableName remoteCount true (Some backupCount)
    remoteIdsResult backupIdsResult fetchRows =
  {| tableName := tableName;
     backupTableName := Some ("backup_" ++ tableName)%string;
     remoteCount := remoteCount;
     backupCount := backupCount;
     difference := remoteCount - backupCount;
     entryProgress := progress backupCount remoteCount;
     status := tableStatus (progress backupCount remoteCount);
     missingRecordsCount := totalMissing found;
     missingRecordsIds := Js.slice0 100 (ids found);
     missingRecords := Js.slice0 100 (records found) |}.
Proof.
  intros Hb Hlt. unfold compareTable.
  assert ((backupCount <? remoteCount) && (0 <? remoteCount) = true) as ->; [|done].
  apply andb_true_iff. split; apply Z.ltb_lt; lia.
Qed.

Lemma findMissingRecords_total remoteIdsResult backupIdsResult fetchRows :
  totalMissing (findMissingRecords remoteIdsResult backupIdsResult fetchRows)
  = length (ids (findMissingRecords remoteIdsResult backupIdsResult fetchRows)).
Proof. destruct remoteIdsResult, backupIdsResult; reflexivity. Qed.



(** A table without an [id] column: the id query throws and the report
    lists nothing. *)
Example missing_records_without_id :
  let entry := compareTable "events" 3 true (Some 1) None (Some ["1"]%string)
                 (fun _ => None) in
  missingRecordsCount entry = 0%nat /\ missingRecordsIds entry = [] /\
  missingRecords entry = [].
Proof. repeat split. Qed.

(** Above the cap: 150 missing ids are counted in full and 100 are listed. *)
Example missing_records_capped :
  let entry := compareTable "t" 150 true (Some 0)
                 (Some (map (fun n : nat => pretty n) (seq 0 150))) (Some [])
                 (fun _ => None) in
  missingRecordsCount entry = 150%nat /\
  length (missingRecordsIds entry) = 100%nat /\
  length (missingRecords entry) = 100%nat.
Proof. vm_compute. done. Qed.

End ComparatorFacts.

(** ** Job tracker *)

Section JobTrackerFacts.

Import JobTracker.

(** C3, as stated, fails for [setBackupStatus]: on an empty tracker the
    patch [{ status: 'processing' }] does not make the call fail; the error
    is caught and logged, and the call resolves. *)
Lemma setBackupStatus_swallows_error :
  ~ (exists m, outcome (setBackupStatus (Some ∅) 0 "A_database_1" onlyProcessing) = Rejected m).
Proof. intros [m H]. vm_compute in H. discriminate H. Qed.

Lemma missing_fields_unresolved (db : Store) (jobId : string) (status : Patch) :
  db !! jobId = None ->
  Js.truthy (pType status) = false \/ Js.truthy (pBackendName status) = false ->
  negb (Js.truthy (Js.orElse (pType status) (type <$> db !! jobId)))
  || negb (Js.truthy (Js.orElse (pBackendName status) (backendName <$> db !! jobId))) = true.
Proof.
  intros -> H. unfold Js.orElse. simpl.
  destruct H as [H | H]; rewrite H; simpl; [done|].
  apply orb_true_r.
Qed.

(** C3, amended: a patch for a job that has no record, with no usable
    [type] or no usable [backendName], never creates a record.
    [setUploadStatus] fails with the error it logs; [setBackupStatus] logs
    the error and resolves without raising it. *)
Theorem set_status_missing_fields
    (db : Store) (now : Z) (jobId : string) (status : Patch) :
  db !! jobId = None ->
  Js.truthy (pType status) = false \/ Js.truthy (pBackendName status) = false ->
  (exists m,
     setUploadStatus (Some db) now jobId status
     = {| store := Some db; outcome := Rejected m; logged := Some m |}) /\
  (exists m,
     setBackupStatus (Some db) now jobId status
     = {| store := Some db; outcome := Resolved; logged := Some m |}).
Proof.
  intros Hnone Hmiss.
  pose proof (missing_fields_unresolved db jobId status Hnone Hmiss) as Hguard.
  unfold setUploadStatus, setBackupStatus.
  destruct (db !! jobId) eqn:E; [discriminate Hnone|].
  rewrite Hguard. split; eexists; reflexivity.
Qed.

Lemma set_status_missing_fields_witness :
  (exists m,
     setUploadStatus (Some ∅) 0 "upload_A_database_1" onlyProcessing
     = {| store := Some ∅; outcome := Rejected m; logged := Some m |}) /\
  (exists m,
     setBackupStatus (Some ∅) 0 "upload_A_database_1" onlyProcessing
     = {| store := Some ∅; outcome := Resolved; logged := Some m |}).
Proof.
  apply (set_status_missing_fields ∅ 0 "upload_A_database_1" onlyProcessing).
  - reflexivity.
  - left. reflexivity.
Defined.

(** With both fields in the patch the record is created. *)
Example setUploadStatus_creates :
  let status :=
    {| pStatus := Some "processing"%string; pType := Some "database"%string;
       pBackendName := Some "A"%string; pTableName := None; pProgress := None;
       pMessage := undefined; pResult := undefined; pError := undefined;
       pIsAutomatic := None |} in
  let run := setUploadStatus (Some ∅) 5 "j" status in
  outcome run = Resolved /\
  (forall db, store run = Some db -> JobTracker.status <$> db !! "j" = Some "processing"%string).
Proof.
  split; [reflexivity|]. intros db [= <-]. vm_compute. reflexivity.
Qed.

(** *** Retention sweep *)

Lemma deleteMany_lookup (where_ : JobRecord -> bool) (db : Store) (j : string) :
  (deleteMany where_ db).1 !! j =
  match db !! j with
  | Some r => if where_ r then None else Some r
  | None => None
  end.
Proof.
  unfold deleteMany. simpl.
  destruct (db !! j) as [r|] eqn:E.
  - destruct (where_ r) eqn:W.
    + apply map_lookup_filter_None. right. intros x Hx. simpl. congruence.
    + apply map_lookup_filter_Some. split; [done|]. simpl. done.
  - apply map_lookup_filter_None. by left.
Qed.

Lemma expired_iff (cutoff : Z) (r : JobRecord) :
  expired cutoff r = true <->
  (status r = "completed" \/ status r = "failed")%string /\ createdAt r < cutoff.
Proof.
  unfold expired, terminalStatuses.
  rewrite andb_true_iff, Z.ltb_lt, bool_decide_eq_true.
  rewrite !elem_of_cons, elem_of_nil. tauto.
Qed.


(** Thirty days after three jobs were created, and one day after a fourth
    failed, a sweep with the default of 7 days removes the old completed
    and failed jobs and keeps the old processing job and the recent one. *)
Example sweep_scenario :
  let day := msPerDay in
  let db : Store :=
    {[ "old_done"%string := job "old_done" "completed" 0;
       "old_failed"%string := job "old_failed" "failed" 0;
       "old_running"%string := job "old_running" "processing" 0;
       "new_failed"%string := job "new_failed" "failed" (29 * day) ]} in
  cleanupOldStatuses (Some db) (30 * day) (Some 7)
  = (Some {[ "old_running"%string := job "old_running" "processing" 0;
             "new_failed"%string := job "new_failed" "failed" (29 * day) ]}, 2%nat).
Proof. vm_compute. reflexivity. Qed.

(** Without a usable retention setting, or without the model, the sweep
    removes nothing. *)
Lemma sweep_without_cutoff (prisma : option Store) (now : Z) :
  cleanupOldStatuses prisma now None = (prisma, 0%nat) /\
  cleanupOldStatuses None now (Some 7) = (None, 0%nat).
Proof. split; [by destruct prisma | done]. Qed.

End JobTrackerFacts.

(** ** Plain HTTP listing *)

Section HttpListingFacts.

Import HttpListing.

(** C10, as stated, fails: the status code is never read, so a 404 response
    whose body is a JSON array resolves to that array, not to the empty
    list. *)
Lemma non_200_array_is_listed :
  getAllFilesFromHttp (inr exampleUrl)
    (fun _ => Response 404 (Some (JArray [JString "a.txt"])))
  <> Resolve [].
Proof. vm_compute. intros H. discriminate H. Qed.

(** C10, amended: whatever the status code, a response whose body is not
    JSON, or is JSON but no array, resolves to the empty list, and a
    response whose body is a JSON array resolves to that array; the request
    is given a timeout of 10000 milliseconds, and when it fires the promise
    is rejected with [Request timeout]. *)
Theorem http_listing_best_effort (u : Url) (network : RequestOptions -> Exchange) :
  (forall statusCode parsedBody,
     network (requestOptions u) = Response statusCode parsedBody ->
     isJsonArray parsedBody = false ->
     getAllFilesFromHttp (inr u) network = Resolve []) /\
  (forall statusCode files,
     network (requestOptions u) = Response statusCode (Some (JArray files)) ->
     getAllFilesFromHttp (inr u) network = Resolve files) /\
  requestTimeout = 10000 /\
  (network (requestOptions u) = Idle ->
   getAllFilesFromHttp (inr u) network = Reject "Request timeout").
Proof.
  unfold getAllFilesFromHttp. split; [|split; [|split]].
  - intros statusCode parsedBody -> H.
    destruct parsedBody as [[]|]; try reflexivity. discriminate H.
  - intros statusCode files ->. reflexivity.
  - reflexivity.
  - intros ->. reflexivity.
Qed.

Lemma http_listing_best_effort_witness :
  getAllFilesFromHttp (inr exampleUrl) (fun _ => Response 500 None) = Resolve [] /\
  getAllFilesFromHttp (inr exampleUrl)
    (fun _ => Response 200 (Some (JArray [JString "a.txt"]))) = Resolve [JString "a.txt"] /\
  getAllFilesFromHttp (inr exampleUrl) (fun _ => Idle) = Reject "Request timeout".
Proof.
  split; [|split].
  - apply (proj1 (http_listing_best_effort exampleUrl (fun _ => Response 500 None))
             500 None); reflexivity.
  - apply (proj1 (proj2 (http_listing_best_effort exampleUrl
                           (fun _ => Response 200 (Some (JArray [JString "a.txt"])))))
             200 [JString "a.txt"]); reflexivity.
  - apply (proj2 (proj2 (proj2 (http_listing_best_effort exampleUrl (fun _ => Idle)))));
      reflexivity.
Defined.

End HttpListingFacts.

(** ** Row reconciler, backup direction *)

Section ReconcilerFacts.

Import Reconciler.

(** The scenario of the specification: three rows into an empty mirror,
    then the same three rows again. *)
Example widgets_twice :
  let data := [widget "1" "a"; widget "2" "b"; widget "3" "c"] in
  let first := upsertTableData noFault "widgets" data widgetColumns [] in
  let second := upsertTableData noFault "widgets" data widgetColumns first.1 in
  first.2 = inr {| inserted := 3; skipped := 0 |} /\
  second.2 = inr {| inserted := 0; skipped := 3 |} /\
  second.1 = first.1.
Proof. repeat split; vm_compute; reflexivity. Qed.

(** *** Row-level errors *)

Lemma isDuplicateError_includes (message : string) :
  isDuplicateError message =
  Js.includes "duplicate" message || Js.includes "unique" message
  || Js.includes "constraint" message.
Proof. destruct message; reflexivity. Qed.

Lemma processRow_rowError fault bt cn hasId st row message :
  rowError fault bt cn hasId (mirror st) row = Some message ->
  processRow fault bt cn hasId st row = onRowError st message.
Proof.
  unfold rowError, processRow.
  destruct (queryRaw fault _ (mirror st)) as [m | existing]; [congruence|].
  destruct (0 <? length existing)%nat; [discriminate|].
  destruct (executeRaw fault _ (mirror st)) as [m | t]; [congruence | discriminate].
Qed.



(** A row the database rejects as a duplicate is counted as skipped, and
    the rows after a dropped row are still inserted. *)
Example row_errors_counted :
  (upsertTableData rejectsAsDuplicate "widgets"
     [widget "1" "a"; widget "2" "b"] widgetColumns []).2
  = inr {| inserted := 0; skipped := 2 |} /\
  (upsertTableData rejectsQuotedText "events"
     [event "1" Js.JNull; event "2" (jsonDate "2024-01-01T00:00:00.000Z");
      event "3" Js.JNull] eventColumns []).2
  = inr {| inserted := 2; skipped := 0 |}.
Proof. split; vm_compute; reflexivity. Qed.

(** *** Running twice *)

Lemma sanitize_idempotent (s : string) : Js.sanitize (Js.sanitize s) = Js.sanitize s.
Proof.
  induction s as [|c s IH]; simpl; [done|].
  destruct (Js.isIdentChar c) eqn:E; simpl; [rewrite E, IH|]; done.
Qed.

Lemma map_sanitize_fixed (cn : list string) :
  Forall (fun c => Js.sanitize c = c) cn -> map Js.sanitize cn = cn.
Proof. induction 1 as [|c cn Hc _ IH]; simpl; [done|]. by rewrite Hc, IH. Qed.

Lemma storeRow_lookup (g : string -> option string) (cs : list string) (c : string) :
  (c ∈ cs -> storeRow cs (map g cs) !! c = g c) /\
  (c ∉ cs -> storeRow cs (map g cs) !! c = None).
Proof.
  unfold storeRow. induction cs as [|c0 cs [IHin IHout]]; simpl.
  - split; [intros H; by apply elem_of_nil in H | intros _; apply lookup_empty].
  - rewrite not_elem_of_cons, elem_of_cons.
    destruct (g c0) as [v|] eqn:E; simpl.
    + destruct (decide (c = c0)) as [-> | Hne].
      * rewrite lookup_insert_eq. split; [done | tauto].
      * rewrite lookup_insert_ne by done. split; [|tauto].
        intros [? | Hin]; [done | by apply IHin].
    + split; [|tauto]. intros Hc.
      destruct (decide (c ∈ cs)) as [Hin | Hnin]; [by apply IHin|].
      destruct Hc as [Hc | Hc]; [|done].
      transitivity (@None string); [by apply IHout | by rewrite Hc, E].
Qed.

(** The row just inserted satisfies the where clause built from the same
    source row. *)
Lemma stored_row_matches (cn : list string) (hasId : bool) (row : Obj) :
  Forall (fun c => Js.sanitize c = c) cn ->
  (hasId && negb (Js.isNullish (Js.prop row "id")) = true -> "id"%string ∈ cn) ->
  forallb
    (holds (storeRow (map Js.sanitize cn) (map (fun col => literal (Js.prop row col)) cn)))
    (whereConditions cn hasId row) = true.
Proof.
  intros Hcn Hid. rewrite (map_sanitize_fixed cn Hcn).
  unfold whereConditions.
  destruct (hasId && negb (Js.isNullish (Js.prop row "id"))) eqn:E.
  - simpl. rewrite andb_true_r. unfold holds. simpl.
    apply bool_decide_eq_true. by apply storeRow_lookup, Hid.
  - apply forallb_forall. intros [c v] Hin. apply in_map_iff in Hin as (c' & [= <- <-] & Hc').
    apply list_elem_of_In in Hc'.
    unfold holds. simpl. apply bool_decide_eq_true.
    rewrite (proj1 (Forall_forall _ _) Hcn c' Hc').
    by apply storeRow_lookup.
Qed.

Local Abbreviation hit := Reconciler.finds.

Lemma hit_true (conds : list (string * option string)) (table : list StoredRow) :
  hit conds table = true <-> exists s, s ∈ table /\ forallb (holds s) conds = true.
Proof.
  unfold finds. destruct (filter _ table) as [|x l] eqn:E; simpl.
  - split; [done|]. intros (s & Hs & Hm).
    assert (s ∈ filter (fun row : StoredRow => forallb (holds row) conds = true) table) as Hin
      by (apply list_elem_of_filter; done).
    rewrite E in Hin. by apply elem_of_nil in Hin.
  - split; [intros _ | done].
    assert (x ∈ filter (fun row : StoredRow => forallb (holds row) conds = true) table) as Hin
      by (rewrite E; left).
    apply list_elem_of_filter in Hin as [Hm Hx]. eauto.
Qed.

Lemma hit_app (conds : list (string * option string)) (table added : list StoredRow) :
  hit conds table = true -> hit conds (table ++ added) = true.
Proof.
  rewrite !hit_true. intros (s & Hs & Hm). exists s. split; [|done].
  apply elem_of_app. by left.
Qed.

Lemma processRow_cases fault bt cn hasId st row :
  processRow fault bt cn hasId st row =
  match fault (checkQuery bt cn hasId row) with
  | Some m => onRowError st m
  | None =>
    if finds (whereConditions cn hasId row) (mirror st) then
      {| mirror := mirror st;
         insertedSoFar := insertedSoFar st;
         skippedSoFar := S (skippedSoFar st) |}
    else
      match fault (insertQuery bt cn row) with
      | Some m => onRowError st m
      | None =>
        {| mirror := mirror st ++
             [storeRow (map Js.sanitize cn)
                (map (fun col => literal (Js.prop row col)) cn)];
           insertedSoFar := S (insertedSoFar st);
           skippedSoFar := skippedSoFar st |}
      end
  end.
Proof.
  unfold processRow, queryRaw, executeRaw, finds.
  destruct (fault (checkQuery bt cn hasId row)); [done|].
  unfold checkQuery. destruct (0 <? _)%nat; [done|].
  destruct (fault (insertQuery bt cn row)); done.
Qed.

Lemma countsAsSkipped_cases fault bt cn hasId table row :
  countsAsSkipped fault bt cn hasId table row =
  match fault (checkQuery bt cn hasId row) with
  | Some m => if isDuplicateError m then 1%nat else 0%nat
  | None =>
    if finds (whereConditions cn hasId row) table then 1%nat
    else
      match fault (insertQuery bt cn row) with
      | Some m => if isDuplicateError m then 1%nat else 0%nat
      | None => 0%nat
      end
  end.
Proof.
  unfold countsAsSkipped, queryRaw, executeRaw, finds.
  destruct (fault (checkQuery bt cn hasId row)); [done|].
  unfold checkQuery. destruct (0 <? _)%nat; [done|].
  destruct (fault (insertQuery bt cn row)); done.
Qed.

Section TwoRuns.

Variable fault : Stmt -> option string.
Variable bt : string.
Variable cn : list string.
Variable hasId : bool.

Hypothesis cn_sanitized : Forall (fun c => Js.sanitize c = c) cn.

Local Abbreviation step := (processRow fault bt cn hasId).
Local Abbreviation counted := (countsAsSkipped fault bt cn hasId).
Local Abbreviation total st := (insertedSoFar st + skippedSoFar st)%nat.

Local Abbreviation idListed := (Reconciler.idListed cn hasId).
Local Abbreviation settled := (Reconciler.settled fault bt cn hasId).

Lemma counted_le_1 table row : (counted table row <= 1)%nat.
Proof.
  rewrite countsAsSkipped_cases.
  repeat (match goal with |- context [match ?x with _ => _ end] => destruct x end); lia.
Qed.

Lemma step_first_run (st : LoopState) (row : Obj) :
  idListed row ->
  (exists added, mirror (step st row) = mirror st ++ added) /\
  (forall more,
     settled (mirror (step st row) ++ more) row /\
     (total (step st row) <= total st + counted (mirror (step st row) ++ more) row)%nat).
Proof.
  intros Hid. rewrite processRow_cases. unfold Reconciler.settled.
  setoid_rewrite countsAsSkipped_cases.
  destruct (fault (checkQuery bt cn hasId row)) as [m|] eqn:Eq.
  { unfold onRowError. destruct (isDuplicateError m); simpl.
    - split; [exists []; by rewrite app_nil_r|]. intros more. split; [by left | lia].
    - split; [exists []; by rewrite app_nil_r|]. intros more. split; [by left | lia]. }
  destruct (hit (whereConditions cn hasId row) (mirror st)) eqn:Eh.
  { simpl. split; [exists []; by rewrite app_nil_r|]. intros more.
    rewrite (hit_app _ _ more Eh). split; [right; by left | lia]. }
  destruct (fault (insertQuery bt cn row)) as [m|] eqn:Ei.
  { unfold onRowError. destruct (isDuplicateError m); simpl.
    - split; [exists []; by rewrite app_nil_r|]. intros more.
      split; [right; by right|]. destruct (hit _ (mirror st ++ more)); lia.
    - split; [exists []; by rewrite app_nil_r|]. intros more.
      split; [right; by right|]. lia. }
  simpl. split; [eexists; reflexivity|]. intros more.
  assert (hit (whereConditions cn hasId row)
            ((mirror st ++ [storeRow (map Js.sanitize cn)
                              (map (fun col => literal (Js.prop row col)) cn)]) ++ more)
          = true) as Hhit.
  { apply hit_true. eexists. split; [|by apply stored_row_matches].
    rewrite !elem_of_app, list_elem_of_singleton. left. by right. }
  rewrite Hhit. split; [right; by left | lia].
Qed.

Lemma first_run (data : list Obj) (st : LoopState) :
  Forall idListed data ->
  let st' := foldl step st data in
  (exists added, mirror st' = mirror st ++ added) /\
  Forall (settled (mirror st')) data /\
  (total st' <= total st + sum_list (counted (mirror st') <$> data))%nat.
Proof.
  intros Hdata. revert st.
  induction Hdata as [|row data Hrow _ IH]; intros st; cbn [foldl].
  - simpl. split; [exists []; by rewrite app_nil_r|]. split; [constructor | lia].
  - destruct (IH (step st row)) as ([added' Hm'] & Hset & Htot).
    destruct (step_first_run st row Hrow) as ([added Hm] & Hmore).
    destruct (Hmore added') as [Hs Hc]. rewrite <- Hm' in Hs, Hc.
    split; [|split].
    + exists (added ++ added'). rewrite Hm', Hm. by rewrite app_assoc.
    + by constructor.
    + rewrite fmap_cons. simpl. lia.
Qed.

Lemma step_second_run (st : LoopState) (row : Obj) :
  settled (mirror st) row ->
  step st row =
  {| mirror := mirror st;
     insertedSoFar := insertedSoFar st;
     skippedSoFar := skippedSoFar st + counted (mirror st) row |}.
Proof.
  rewrite processRow_cases, countsAsSkipped_cases. unfold Reconciler.settled.
  intros Hs. destruct st as [t i k]. simpl in *.
  destruct (fault (checkQuery bt cn hasId row)) as [m|] eqn:Eq.
  { unfold onRowError. destruct (isDuplicateError m); simpl; f_equal; lia. }
  destruct (hit (whereConditions cn hasId row) t) eqn:Eh.
  { f_equal. lia. }
  destruct (fault (insertQuery bt cn row)) as [m|] eqn:Ei.
  { unfold onRowError. destruct (isDuplicateError m); simpl; f_equal; lia. }
  destruct Hs as [H | [H | H]]; congruence.
Qed.

Lemma second_run (data : list Obj) (st : LoopState) :
  Forall (settled (mirror st)) data ->
  foldl step st data =
  {| mirror := mirror st;
     insertedSoFar := insertedSoFar st;
     skippedSoFar := skippedSoFar st + sum_list (counted (mirror st) <$> data) |}.
Proof.
  revert st. induction data as [|row data IH]; intros st Hset; cbn [foldl].
  - destruct st; simpl. f_equal. lia.
  - apply Forall_cons in Hset as [Hrow Hset].
    rewrite (step_second_run st row Hrow).
    rewrite IH by done. rewrite fmap_cons. simpl. f_equal. lia.
Qed.

Lemma counted_sum_le (table : list StoredRow) (data : list Obj) :
  (sum_list (counted table <$> data) <= length data)%nat.
Proof.
  induction data as [|row data IH]; [simpl; lia|].
  rewrite fmap_cons. cbn [sum_list_with length].
  pose proof (counted_le_1 table row). unfold id at 1. lia.
Qed.

End TwoRuns.

Lemma snapshot_idListed (columns : list Column) (data : list Obj) :
  snapshotOf columns data = true ->
  Forall (idListed (map (fun col => Js.sanitize (name col)) columns) (hasIdColumn columns)) data.
Proof.
  unfold snapshotOf. rewrite forallb_forall. intros Hall.
  apply Forall_forall. intros row Hrow%list_elem_of_In. specialize (Hall row Hrow).
  rewrite forallb_forall in Hall.
  intros [_ Hid%negb_true_iff]%andb_true_iff.
  unfold Js.prop in Hid. destruct (row !! "id"%string) as [v|] eqn:E; [|done].
  assert ("id"%string ∈ map name columns) as Hin.
  { eapply bool_decide_eq_true_1, Hall, list_elem_of_In, list_elem_of_fmap.
    exists ("id"%string, v). split; [done|]. by apply elem_of_map_to_list. }
  apply list_elem_of_In, in_map_iff in Hin as (col & Hname & Hcol).
  apply list_elem_of_In, in_map_iff. exists col. split; [|done]. by rewrite Hname.
Qed.

Lemma columnNames_sanitized (columns : list Column) :
  Forall (fun c => Js.sanitize c = c) (map (fun col => Js.sanitize (name col)) columns).
Proof.
  apply Forall_forall. intros c Hc%list_elem_of_In%in_map_iff.
  destruct Hc as (col & <- & _). apply sanitize_idempotent.
Qed.

Lemma createTable_again fault tableName columns table created (table' : list StoredRow) :
  createTableIfNotExists fault tableName columns table = inr created ->
  exists created',
    createTableIfNotExists fault tableName columns table' = inr created'.
Proof.
  unfold createTableIfNotExists.
  destruct (fault (CreateTable _ _ _)); [discriminate|].
  destruct (fault (TableExists _)); [discriminate|].
  destruct (fault (CountRows _)); [discriminate|]. eauto.
Qed.




End ReconcilerFacts.




(** ** Row reconciler, upload direction *)

Section UploaderFacts.

Import Uploader.

Lemma insertOnConflict_returns defaultKey primaryKey assignments table rows returned :
  insertOnConflict defaultKey primaryKey assignments table = inr (rows, returned) ->
  exists k, returned = [k] /\ exists row, row ∈ rows /\ row !! primaryKey = Some k.
Proof.
  unfold insertOnConflict.
  destruct (match list_to_map assignments !! primaryKey with
            | Some value => param value
            | None => defaultKey table
            end) as [k|]; [|discriminate].
  destruct (existsb _ table) eqn:E; intros [= <- <-]; exists k; (split; [done|]).
  - apply existsb_exists in E as (row & Hin & Hk).
    exists (<[primaryKey := k]> (overwrite row assignments)). split.
    + apply list_elem_of_fmap. exists row. rewrite Hk. split; [done|].
      by apply list_elem_of_In.
    + apply lookup_insert_eq.
  - exists (<[primaryKey := k]> (overwrite ∅ assignments)). split.
    + apply elem_of_app. right. by apply list_elem_of_singleton.
    + apply lookup_insert_eq.
Qed.

(** After a write that returned [key], the count of rows with that key is
    positive. *)
Lemma runCount_positive fault tableName primaryKey key rows row count :
  row ∈ rows -> row !! primaryKey = Some key ->
  runCount fault tableName primaryKey key rows = inr count ->
  (0 <? count)%nat = true.
Proof.
  intros Hin Hk. unfold runCount. destruct (fault _); [discriminate|].
  intros [= <-]. apply Nat.ltb_lt.
  assert (row ∈ filter (fun r : StoredRow => r !! primaryKey = Some key) rows) as Hf
    by (apply list_elem_of_filter; done).
  destruct (filter _ rows); [by apply elem_of_nil in Hf | simpl; lia].
Qed.

(** One record: [uploadedCount] never moves, and the record is either
    counted as matched or entered in the error list. *)
Lemma processRecord_counts fault defaultKey tableName primaryKey st record :
  let st' := processRecord fault defaultKey tableName primaryKey st record in
  uploadedCount st' = uploadedCount st /\
  ((matchedCount st' = S (matchedCount st) /\ errorList st' = errorList st) \/
   (matchedCount st' = matchedCount st /\
    exists entry, errorList st' = errorList st ++ [entry])).
Proof.
  unfold processRecord, runInsert.
  destruct (fault (InsertOnConflict _ _ _)) as [m|]; [simpl; eauto|].
  destruct (insertOnConflict _ _ _ _) as [m | [rows returned]] eqn:Ew; [simpl; eauto|].
  apply insertOnConflict_returns in Ew as (k & -> & row & Hin & Hk).
  destruct (runCount _ _ _ _ _) as [m | count] eqn:Ec; [simpl; eauto|].
  rewrite (runCount_positive _ _ _ _ _ _ _ Hin Hk Ec). simpl. eauto.
Qed.

Lemma foldl_processRecord_counts fault defaultKey tableName primaryKey records st :
  let st' := foldl (processRecord fault defaultKey tableName primaryKey) st records in
  uploadedCount st' = uploadedCount st /\
  (matchedCount st' + length (errorList st')
   = matchedCount st + length (errorList st) + length records)%nat.
Proof.
  revert st. induction records as [|record records IH]; intros st; cbn [foldl].
  - simpl. lia.
  - destruct (IH (processRecord fault defaultKey tableName primaryKey st record)) as [Hu Hm].
    destruct (processRecord_counts fault defaultKey tableName primaryKey st record)
      as [Hu' [[Hm' He'] | [Hm' [entry He']]]];
      cbv zeta in *; rewrite Hu, Hm, Hu', Hm', He'; rewrite ?length_app; simpl; lia.
Qed.

(** The batches cover the records in order: with enough fuel the two loops
    are one pass over [records]. *)
Lemma batchLoop_foldl fault defaultKey tableName primaryKey records fuel i st :
  (length records <= i + fuel)%nat ->
  batchLoop fault defaultKey fuel tableName primaryKey records i st
  = foldl (processRecord fault defaultKey tableName primaryKey) st (drop i records).
Proof.
  revert i st. induction fuel as [|fuel IH]; intros i st Hlen; simpl.
  - rewrite drop_ge by lia. done.
  - destruct (Nat.ltb_spec i (length records)) as [Hi | Hi].
    + rewrite IH by (unfold batchSize; lia). rewrite <- foldl_app.
      unfold Js.slice. replace (i + batchSize - i)%nat with batchSize by lia.
      rewrite <- drop_drop, take_drop. done.
    + rewrite drop_ge by lia. done.
Qed.

Section OneTable.

Variable fault : Stmt -> option string.
Variable columnsOf : string -> list string.
Variable primaryKeyOf : string -> list string.
Variable defaultKey : list StoredRow -> option string.
Variable tableName : string.

Local Abbreviation upload := (uploadTableRecords fault columnsOf primaryKeyOf defaultKey tableName).

Local Abbreviation primaryKey :=
  (match primaryKeyOf tableName with
   | attname :: _ => attname
   | [] => "id"%string
   end).

Local Abbreviation loop rows records :=
  (foldl (processRecord fault defaultKey tableName primaryKey)
     {| remote := rows; uploadedCount := 0; matchedCount := 0; errorList := [] |} records).

(** The calls before the loop succeed. *)
Local Abbreviation reachable :=
  (fault Connect = None /\ fault (SelectColumns tableName) = None /\
   length (columnsOf tableName) <> 0%nat /\ fault (SelectPrimaryKey tableName) = None).

Lemma upload_returned (records : list Obj) (rows : list StoredRow) (result : Result) :
  records <> [] -> (upload records rows).2 = inr result -> reachable.
Proof.
  intros Hne. unfold uploadTableRecords.
  destruct (fault Connect); [discriminate|].
  rewrite bool_decide_eq_false_2 by (by destruct records).
  destruct (fault (SelectColumns tableName)); [discriminate|].
  destruct (bool_decide (length (columnsOf tableName) = 0%nat)) eqn:E; [discriminate|].
  apply bool_decide_eq_false in E.
  destruct (fault (SelectPrimaryKey tableName)); [discriminate|]. done.
Qed.

Lemma upload_loop (records : list Obj) (rows : list StoredRow) :
  records <> [] -> reachable ->
  upload records rows =
  (remote (loop rows records),
   inr {| totalRecords := length records;
          uploadedRecords := uploadedCount (loop rows records);
          matchedRecords := matchedCount (loop rows records);
          errors := if (0 <? length (errorList (loop rows records)))%nat
                    then Some (errorList (loop rows records)) else None |}).
Proof.
  intros Hne (H1 & H2 & H3 & H4). unfold uploadTableRecords.
  rewrite H1, H2, H4.
  rewrite bool_decide_eq_false_2 by (by destruct records).
  rewrite bool_decide_eq_false_2 by done.
  rewrite batchLoop_foldl by lia. rewrite drop_0. done.
Qed.

Lemma loop_counts (records : list Obj) (rows : list StoredRow) :
  uploadedCount (loop rows records) = 0%nat /\
  (matchedCount (loop rows records) + length (errorList (loop rows records))
   = length records)%nat.
Proof.
  pose proof (foldl_processRecord_counts fault defaultKey tableName primaryKey records
                {| remote := rows; uploadedCount := 0; matchedCount := 0; errorList := [] |})
    as [Hu Hm].
  simpl in Hu, Hm. split; [exact Hu | lia].
Qed.

(** C8: the presence check runs after the write, on the key the write
    returned, so it always finds the row.  In every result of
    [uploadTableRecords], [uploadedRecords] is 0 and each record is either
    counted in [matchedRecords] or listed in [errors]; and a record that is
    processed without an error adds one to the matched count, whether or not
    its key was in the table before. *)
Theorem upload_counts_writes_as_matched
    (records : list Obj) (rows : list StoredRow) (result : Result) :
  (upload records rows).2 = inr result ->
  uploadedRecords result = 0%nat /\
  (matchedRecords result + length (default [] (errors result)) = length records)%nat /\
  (forall pk st record,
     let st' := processRecord fault defaultKey tableName pk st record in
     uploadedCount st' = uploadedCount st /\
     (errorList st' = errorList st -> matchedCount st' = S (matchedCount st))).
Proof.
  intros Hres. split; [|split].
  - destruct records as [|r records].
    + unfold uploadTableRecords in Hres. destruct (fault Connect); [discriminate|].
      simpl in Hres. by simplify_eq.
    + assert (r :: records <> []) as Hne by done.
      pose proof (upload_returned _ _ _ Hne Hres) as Hreach.
      rewrite upload_loop in Hres by done. cbn [snd] in Hres. simplify_eq.
      cbn [uploadedRecords]. apply loop_counts.
  - destruct records as [|r records].
    + unfold uploadTableRecords in Hres. destruct (fault Connect); [discriminate|].
      simpl in Hres. by simplify_eq.
    + assert (r :: records <> []) as Hne by done.
      pose proof (upload_returned _ _ _ Hne Hres) as Hreach.
      rewrite upload_loop in Hres by done. cbn [snd] in Hres. simplify_eq.
      cbn [matchedRecords errors].
      destruct (loop_counts (r :: records) rows) as [_ Hm].
      destruct (errorList (loop rows (r :: records))) eqn:E; simpl in *; lia.
  - intros pk st record.
    destruct (processRecord_counts fault defaultKey tableName pk st record)
      as [Hu [[Hm He] | [Hm [entry He]]]]; cbv zeta.
    + split; [done|]. intros _. done.
    + split; [done|]. intros Heq. rewrite Heq in He.
      apply (f_equal length) in He. rewrite length_app in He. simpl in He. lia.
Qed.

(** C7: when [uploadTableRecords] has returned for a non-empty list of
    records, running it again with the same records on the table it left
    returns as well, with [uploadedRecords] 0 and, when the second run lists
    no error, [matchedRecords] equal to the number of records. *)
Theorem upload_rerun
    (records : list Obj) (rows : list StoredRow) (r1 : Result) :
  let first := upload records rows in
  records <> [] ->
  first.2 = inr r1 ->
  exists r2,
    (upload records first.1).2 = inr r2 /\
    totalRecords r2 = length records /\
    uploadedRecords r2 = 0%nat /\
    (errors r2 = None -> matchedRecords r2 = length records).
Proof.
  intros first Hne Hres.
  pose proof (upload_returned _ _ _ Hne Hres) as Hreach.
  rewrite (upload_loop records first.1 Hne Hreach). cbn [snd].
  eexists. split; [reflexivity|]. cbn [totalRecords uploadedRecords matchedRecords errors].
  destruct (loop_counts records first.1) as [Hu Hm].
  split; [done|]. split; [done|].
  destruct (errorList (loop first.1 records)) eqn:E; simpl in *; [lia | discriminate].
Qed.

End OneTable.

Lemma upload_counts_writes_as_matched_witness :
  let records := [mirrorWidget "1" "a"; mirrorWidget "2" "b"] in
  uploadedRecords {| totalRecords := 2; uploadedRecords := 0;
                     matchedRecords := 2; errors := None |} = 0%nat /\
  (2 + length (default [] (@None (list ErrorEntry))) = length records)%nat.
Proof.
  intros records.
  pose proof (upload_counts_writes_as_matched noFault widgetCatalog widgetKey noDefault
                "widgets" records []
                {| totalRecords := 2; uploadedRecords := 0;
                   matchedRecords := 2; errors := None |}
                ltac:(vm_compute; reflexivity)) as (H1 & H2 & _).
  exact (conj H1 H2).
Defined.

Lemma upload_rerun_witness :
  let records := [mirrorWidget "1" "a"; mirrorWidget "2" "b"] in
  let first := uploadTableRecords noFault widgetCatalog widgetKey noDefault
                 "widgets" records [] in
  exists r2,
    (uploadTableRecords noFault widgetCatalog widgetKey noDefault
       "widgets" records first.1).2 = inr r2 /\
    totalRecords r2 = length records /\
    uploadedRecords r2 = 0%nat /\
    (errors r2 = None -> matchedRecords r2 = length records).
Proof.
  intros records first.
  refine (upload_rerun noFault widgetCatalog widgetKey noDefault "widgets" records []
            {| totalRecords := 2; uploadedRecords := 0;
               matchedRecords := 2; errors := None |} _ _).
  - discriminate.
  - vm_compute. reflexivity.
Defined.

(** Two rows that are new to the remote table are written and counted as
    matched; the same holds when they are uploaded again. *)
Example upload_widgets_twice :
  let records := [mirrorWidget "1" "a"; mirrorWidget "2" "b"] in
  let first := uploadTableRecords noFault widgetCatalog widgetKey noDefault
                 "widgets" records [] in
  let second := uploadTableRecords noFault widgetCatalog widgetKey noDefault
                  "widgets" records first.1 in
  length first.1 = 2%nat /\
  first.2 = inr {| totalRecords := 2; uploadedRecords := 0;
                   matchedRecords := 2; errors := None |} /\
  second.2 = first.2 /\
  second.1 = first.1.
Proof. repeat split; vm_compute; reflexivity. Qed.

End UploaderFacts.


(** ** File comparison *)

Section FileCompareFacts.

Import FileCompare.

Lemma mapSet_keys_elem (m : FileMap) (k k' : string) (v : Descriptor) :
  k' ∈ (mapSet m k v).*1 <-> k' = k \/ k' ∈ m.*1.
Proof.
  induction m as [|[k0 v0] m IH]; simpl.
  - rewrite list_elem_of_singleton, elem_of_nil. tauto.
  - destruct (decide (k = k0)) as [-> | Hne]; simpl.
    + rewrite !elem_of_cons. tauto.
    + rewrite !elem_of_cons, IH. tauto.
Qed.

Lemma mapSet_keys_NoDup (m : FileMap) (k : string) (v : Descriptor) :
  NoDup m.*1 -> NoDup (mapSet m k v).*1.
Proof.
  induction m as [|[k0 v0] m IH]; simpl; intros Hnd.
  - apply NoDup_singleton.
  - apply NoDup_cons in Hnd as [Hk0 Hnd].
    destruct (decide (k = k0)) as [-> | Hne]; simpl.
    + by apply NoDup_cons.
    + apply NoDup_cons. split; [|by apply IH].
      rewrite mapSet_keys_elem. intros [-> | H]; [done | by apply Hk0].
Qed.

Lemma addFiles_keys_NoDup (path : string) (files : list File) (m : FileMap) :
  NoDup m.*1 -> NoDup (foldl (addFile path) m files).*1.
Proof.
  revert m. induction files as [|f files IH]; intros m Hnd; simpl; [done|].
  apply IH. unfold addFile. by apply mapSet_keys_NoDup.
Qed.

Lemma traverse_keys_NoDup (node : Node) :
  forall (path : string) (m : FileMap), NoDup m.*1 -> NoDup (traverse node path m).*1.
Proof.
  revert node. fix IH 1. intros [files folders] path m Hnd. simpl.
  pose proof (addFiles_keys_NoDup path files m Hnd) as Hstart.
  revert Hstart. generalize (foldl (addFile path) m files). clear m Hnd.
  induction folders as [|[folderName sub] rest IHrest]; intros m Hnd; [done|].
  apply IHrest. by apply IH.
Qed.

Lemma flattenFiles_NoDup (structure : Node) : NoDup (flattenFiles structure).*1.
Proof. apply traverse_keys_NoDup. simpl. apply NoDup_nil_2. Qed.

Lemma mapGet_None (m : FileMap) (k : string) : mapGet m k = None <-> k ∉ m.*1.
Proof.
  induction m as [|[k0 v0] m IH]; simpl.
  - split; [intros _; apply not_elem_of_nil | done].
  - rewrite not_elem_of_cons. destruct (decide (k = k0)); [|tauto].
    split; [done | tauto].
Qed.

Lemma mapGet_Some_elem (m : FileMap) (k : string) (d : Descriptor) :
  NoDup m.*1 -> (mapGet m k = Some d <-> (k, d) ∈ m).
Proof.
  induction m as [|[k0 v0] m IH]; simpl; intros Hnd.
  - rewrite elem_of_nil. split; [done | tauto].
  - apply NoDup_cons in Hnd as [Hk0 Hnd]. rewrite elem_of_cons.
    destruct (decide (k = k0)) as [-> | Hne].
    + split.
      * intros [= ->]. by left.
      * intros [[= ->] | Hin]; [done|].
        exfalso. apply Hk0. apply list_elem_of_fmap. by exists (k0, d).
    + rewrite (IH Hnd). split; [tauto|]. intros [[= -> _] | H]; [done | exact H].
Qed.

Lemma mapHas_true (m : FileMap) (k : string) : mapHas m k = true <-> k ∈ m.*1.
Proof.
  unfold mapHas. pose proof (mapGet_None m k) as H.
  destruct (mapGet m k).
  - split; [intros _ | done].
    destruct (decide (k ∈ m.*1)) as [|Hn]; [done|]. apply H in Hn. discriminate Hn.
  - split; [done|]. intros Hin. exfalso. by apply H.
Qed.

Lemma bucket_loop_keys (L : FileMap) (es : list (string * Descriptor)) (c : Comparison) :
  let c' := foldl (checkBucketFile L) c es in
  keysMissingInLocal c' = keysMissingInLocal c ++ (filter (fun e => bucketOnly L e = true) es).*1 /\
  keysMatching c' = keysMatching c ++ (filter (fun e => sameSize L e = true) es).*1 /\
  keysDifferent c' = keysDifferent c ++ (filter (fun e => otherSize L e = true) es).*1 /\
  keysMissingInBucket c' = keysMissingInBucket c.
Proof.
  revert c. induction es as [|[k b] es IH]; intros c; cbv zeta; cbn [foldl].
  - rewrite filter_nil. simpl. rewrite !app_nil_r. done.
  - destruct (IH (checkBucketFile L c (k, b))) as (H1 & H2 & H3 & H4).
    rewrite H1, H2, H3, H4. clear IH H1 H2 H3 H4.
    unfold bucketOnly, sameSize, otherSize.
    unfold keysMissingInLocal, keysMatching, keysDifferent, keysMissingInBucket.
    rewrite !filter_cons. simpl.
    destruct (mapGet L k) as [l|] eqn:E; simpl.
    + destruct (dSize b =? dSize l) eqn:S; simpl;
        repeat case_decide; try congruence; simpl;
        rewrite ?map_app, <- ?app_assoc; simpl; done.
    + repeat case_decide; try congruence; simpl.
      rewrite ?map_app, <- ?app_assoc; simpl; done.
Qed.

Lemma local_loop_keys (B : FileMap) (es : list (string * Descriptor)) (c : Comparison) :
  let c' := foldl (checkLocalFile B) c es in
  keysMissingInLocal c' = keysMissingInLocal c /\
  keysMatching c' = keysMatching c /\
  keysDifferent c' = keysDifferent c /\
  keysMissingInBucket c' =
    keysMissingInBucket c ++ (filter (fun e => mapHas B e.1 = false) es).*1.
Proof.
  revert c. induction es as [|[k l] es IH]; intros c; cbv zeta; cbn [foldl].
  - rewrite filter_nil. simpl. rewrite !app_nil_r. done.
  - destruct (IH (checkLocalFile B c (k, l))) as (H1 & H2 & H3 & H4).
    rewrite H1, H2, H3, H4. clear IH H1 H2 H3 H4.
    unfold keysMissingInLocal, keysMatching, keysDifferent, keysMissingInBucket.
    rewrite !filter_cons. simpl.
    destruct (mapHas B k) eqn:E; simpl;
      repeat case_decide; try congruence; simpl;
      rewrite ?map_app, <- ?app_assoc; simpl; done.
Qed.

Lemma filter_keys_NoDup (P : string * Descriptor -> Prop)
    `{!forall e, Decision (P e)} (es : FileMap) :
  NoDup es.*1 -> NoDup (filter P es).*1.
Proof.
  intros Hnd. eapply sublist_NoDup; [exact Hnd|].
  apply fmap_sublist, sublist_filter.
Qed.

Lemma filter_keys_elem (P : string * Descriptor -> Prop)
    `{!forall e, Decision (P e)} (es : FileMap) (k : string) :
  k ∈ (filter P es).*1 <-> exists d, (k, d) ∈ es /\ P (k, d).
Proof.
  rewrite list_elem_of_fmap. split.
  - intros [[k' d] [-> Hin]]. apply list_elem_of_filter in Hin as [HP Hin].
    exists d. done.
  - intros [d [Hin HP]]. exists (k, d). split; [done|].
    apply list_elem_of_filter. done.
Qed.

Lemma keys_elem_get (m : FileMap) (k : string) :
  NoDup m.*1 -> (k ∈ m.*1 <-> exists d, mapGet m k = Some d).
Proof.
  intros Hnd. pose proof (mapGet_None m k) as HN.
  destruct (mapGet m k) as [d|] eqn:E.
  - split; [by exists d|]. intros _.
    destruct (decide (k ∈ m.*1)) as [|Hn]; [done|]. apply HN in Hn. discriminate Hn.
  - split; [|intros [d Hd]; discriminate Hd].
    intros Hin. exfalso. by apply HN.
Qed.

(** The four key lists of the result, read off the two flattened maps. *)
Lemma compare_keys (bucketFiles localFiles : Node) :
  let c := compareBackupFiles bucketFiles localFiles in
  let B := flattenFiles bucketFiles in
  let L := flattenFiles localFiles in
  keysMissingInLocal c = (filter (fun e => bucketOnly L e = true) B).*1 /\
  keysMatching c = (filter (fun e => sameSize L e = true) B).*1 /\
  keysDifferent c = (filter (fun e => otherSize L e = true) B).*1 /\
  keysMissingInBucket c = (filter (fun e => mapHas B e.1 = false) L).*1.
Proof.
  intros c B L. unfold c, compareBackupFiles. fold B L.
  set (c0 := {| totalBucketFiles := length B; totalLocalFiles := length L;
                missingInLocal := []; missingInBucket := [];
                matchingFiles := []; differentFiles := [] |}).
  destruct (local_loop_keys B L (foldl (checkBucketFile L) c0 B)) as (H1 & H2 & H3 & H4).
  destruct (bucket_loop_keys L B c0) as (G1 & G2 & G3 & G4).
  rewrite H1, H2, H3, H4, G1, G2, G3, G4. done.
Qed.

(** C6: every key of either flattened map is reported in exactly one of the
    four lists, and exactly once; no other key is reported.  A key is in
    [missingInLocal] when only the bucket has it, in [missingInBucket] when
    only the local tree has it, and a key of both is in [matchingFiles] when
    the two sizes are equal and in [differentFiles] when they differ:
    nothing but the size is compared. *)
Theorem compare_files_partition (bucketFiles localFiles : Node) :
  let c := compareBackupFiles bucketFiles localFiles in
  let B := flattenFiles bucketFiles in
  let L := flattenFiles localFiles in
  NoDup (keysMissingInLocal c ++ keysMissingInBucket c ++
         keysMatching c ++ keysDifferent c) /\
  (forall k, k ∈ keysMissingInLocal c ++ keysMissingInBucket c ++
                 keysMatching c ++ keysDifferent c
             <-> k ∈ B.*1 \/ k ∈ L.*1) /\
  (forall k, k ∈ keysMissingInLocal c <-> k ∈ B.*1 /\ k ∉ L.*1) /\
  (forall k, k ∈ keysMissingInBucket c <-> k ∈ L.*1 /\ k ∉ B.*1) /\
  (forall k, k ∈ keysMatching c <->
     exists b l, mapGet B k = Some b /\ mapGet L k = Some l /\ dSize b = dSize l) /\
  (forall k, k ∈ keysDifferent c <->
     exists b l, mapGet B k = Some b /\ mapGet L k = Some l /\ dSize b <> dSize l).
Proof.
  intros c B L.
  destruct (compare_keys bucketFiles localFiles) as (E1 & E2 & E3 & E4).
  fold c B L in E1, E2, E3, E4.
  pose proof (flattenFiles_NoDup bucketFiles) as HB. fold B in HB.
  pose proof (flattenFiles_NoDup localFiles) as HL. fold L in HL.
  assert (forall k, k ∈ keysMissingInLocal c <-> k ∈ B.*1 /\ k ∉ L.*1) as C1.
  { intros k. rewrite E1, filter_keys_elem, (keys_elem_get B k HB), <- mapGet_None.
    unfold bucketOnly. simpl. split.
    - intros (d & Hin & HP). split; [exists d; by apply mapGet_Some_elem|].
      by destruct (mapGet L k).
    - intros [[d Hd] Hn]. exists d. split; [by apply mapGet_Some_elem|]. by rewrite Hn. }
  assert (forall k, k ∈ keysMissingInBucket c <-> k ∈ L.*1 /\ k ∉ B.*1) as C2.
  { intros k. rewrite E4, filter_keys_elem, (keys_elem_get L k HL), <- mapHas_true.
    simpl. split.
    - intros (d & Hin & HP). split; [exists d; by apply mapGet_Some_elem|]. congruence.
    - intros [[d Hd] Hn]. exists d. split; [by apply mapGet_Some_elem|].
      by destruct (mapHas B k). }
  assert (forall k, k ∈ keysMatching c <->
     exists b l, mapGet B k = Some b /\ mapGet L k = Some l /\ dSize b = dSize l) as C3.
  { intros k. rewrite E2, filter_keys_elem. unfold sameSize. simpl. split.
    - intros (b & Hin & HP). exists b. destruct (mapGet L k) as [l|]; [|done].
      exists l. split; [by apply mapGet_Some_elem|]. split; [done|]. by apply Z.eqb_eq.
    - intros (b & l & Hb & Hl & Hs). exists b. split; [by apply mapGet_Some_elem|].
      rewrite Hl. by apply Z.eqb_eq. }
  assert (forall k, k ∈ keysDifferent c <->
     exists b l, mapGet B k = Some b /\ mapGet L k = Some l /\ dSize b <> dSize l) as C4.
  { intros k. rewrite E3, filter_keys_elem. unfold otherSize. simpl. split.
    - intros (b & Hin & HP). exists b. destruct (mapGet L k) as [l|]; [|done].
      exists l. split; [by apply mapGet_Some_elem|]. split; [done|].
      apply negb_true_iff in HP. by apply Z.eqb_neq.
    - intros (b & l & Hb & Hl & Hs). exists b. split; [by apply mapGet_Some_elem|].
      rewrite Hl. apply negb_true_iff. by apply Z.eqb_neq. }
  split; [|split; [|done]].
  - rewrite !NoDup_app. repeat split.
    + rewrite E1. by apply filter_keys_NoDup.
    + intros k Hk. apply C1 in Hk as [HkB HkL].
      rewrite !elem_of_app, C2, C3, C4.
      intros [[_ Hn] | [(b & l & _ & Hl & _) | (b & l & _ & Hl & _)]]; [done| |];
        apply HkL, keys_elem_get; eauto.
    + rewrite E4. by apply filter_keys_NoDup.
    + intros k Hk. apply C2 in Hk as [HkL HkB].
      rewrite !elem_of_app, C3, C4.
      intros [(b & l & Hb & _) | (b & l & Hb & _)];
        apply HkB, keys_elem_get; eauto.
    + rewrite E2. by apply filter_keys_NoDup.
    + intros k Hk. apply C3 in Hk as (b & l & Hb & Hl & Hs).
      rewrite C4. intros (b' & l' & Hb' & Hl' & Hs'). congruence.
    + rewrite E3. by apply filter_keys_NoDup.
  - intros k. rewrite !elem_of_app, C1, C2, C3, C4.
    rewrite (keys_elem_get B k HB), (keys_elem_get L k HL).
    split.
    + intros [[H _] | [[H _] | [(b & l & Hb & Hl & _) | (b & l & Hb & Hl & _)]]]; eauto.
    + intros H.
      destruct (mapGet B k) as [b|] eqn:Eb; destruct (mapGet L k) as [l|] eqn:El.
      * destruct (decide (dSize b = dSize l)); [right; right; left | right; right; right];
          eauto 6.
      * left. split; [eauto|]. intros [d Hd]. discriminate Hd.
      * right. left. split; [eauto|]. intros [d Hd]. discriminate Hd.
      * destruct H as [[d Hd] | [d Hd]]; discriminate Hd.
Qed.

(** The scenario of the specification: four files on both sides, one more
    in the bucket and one more in the local tree. *)
Example compare_files_scenario :
  let file n s := {| name := n; key := n; size := Some s; lastModified := None |} in
  let docs := [file "a.txt" 10; file "b.txt" 20; file "c.txt" 30; file "d.txt" 40]%string in
  let bucket := mkNode [] [("docs", mkNode docs []);
                           ("img", mkNode [file "logo.png" 200] [])]%string in
  let local_ := mkNode [] [("docs", mkNode (docs ++ [file "e.txt" 50]) [])]%string in
  let c := compareBackupFiles bucket local_ in
  keysMissingInLocal c = ["img/logo.png"]%string /\
  map mSize (missingInLocal c) = [200] /\
  keysMissingInBucket c = ["docs/e.txt"]%string /\
  length (matchingFiles c) = 4%nat /\
  differentFiles c = [].
Proof. vm_compute. done. Qed.

End FileCompareFacts.

(* ===================================================================== *)
(** * Further properties *)
(* ===================================================================== *)

(** ** Job tracker: writes, reads and deletion *)

Section JobStoreFacts.

Import JobTracker JobQueries.

(** X1: a status write touches one job only.  Whatever the patch, both
    [setBackupStatus] and [setUploadStatus] leave the record of every other
    job as it was, and a job that had a record still has one. *)
Theorem set_status_touches_one_job
    (db : Store) (now : Z) (jobId : string) (status : Patch) :
  exists db1 db2 : Store,
    store (setBackupStatus (Some db) now jobId status) = Some db1 /\
    store (setUploadStatus (Some db) now jobId status) = Some db2 /\
    (forall j, j <> jobId -> db1 !! j = db !! j /\ db2 !! j = db !! j) /\
    (is_Some (db !! jobId) -> is_Some (db1 !! jobId) /\ is_Some (db2 !! jobId)).
Proof.
  unfold setBackupStatus, setUploadStatus.
  destruct (db !! jobId) as [r|] eqn:E.
  - do 2 eexists. cbn [store]. split; [reflexivity|]. split; [reflexivity|]. split.
    + intros j Hj. by rewrite !lookup_insert_ne.
    + intros _. rewrite !lookup_insert_eq. eauto.
  - destruct (negb _ || negb _).
    + exists db, db. cbn [store]. repeat split; try done; by intros [? ?].
    + destruct (pStatus status) as [st|].
      * do 2 eexists. cbn [store]. split; [reflexivity|]. split; [reflexivity|]. split.
        -- intros j Hj. by rewrite !lookup_insert_ne.
        -- by intros [? ?].
      * exists db, db. cbn [store]. repeat split; try done; by intros [? ?].
Qed.





(** X4: [deleteBackupStatus] always resolves.  It removes the record of
    the job, so that [getBackupStatus] returns null for it afterwards, and
    leaves every other record as it was; for a job without a record the
    failure of the delete is logged and the tracker is unchanged. *)
Theorem delete_backup_status (db : Store) (id : string) :
  let run := deleteBackupStatus (Some db) id in
  outcome run = Resolved /\
  getBackupStatus (store run) id = None /\
  (forall j, j <> id -> getBackupStatus (store run) j = getBackupStatus (Some db) j) /\
  (db !! id = None -> store run = Some db /\ logged run = Some recordNotFound).
Proof.
  unfold deleteBackupStatus. destruct (db !! id) as [r|] eqn:E; cbn.
  - split; [done|]. split; [by rewrite lookup_delete_eq|]. split; [|done].
    intros j Hj. by rewrite lookup_delete_ne.
  - split; [done|]. split; [by rewrite E|]. done.
Qed.

(** X5: [getAllBackupStatuses(limit)] lists the jobs newest first and at
    most [limit] of them: it is the first [limit] entries of an ordering of
    all records by decreasing creation time, so no job left out is newer
    than a listed one. *)
Theorem all_statuses_newest_first (db : Store) (limit : nat) :
  exists l : list JobRecord,
    l ≡ₚ (map_to_list db).*2 /\
    StronglySorted (fun a b => createdAt b <= createdAt a) l /\
    getAllBackupStatuses (Some db) limit = view true <$> take limit l /\
    length (getAllBackupStatuses (Some db) limit) = (limit `min` size db)%nat /\
    (forall a b, a ∈ take limit l -> b ∈ drop limit l -> createdAt b <= createdAt a).
Proof.
  set (l := merge_sort newerFirst (map_to_list db).*2).
  assert (Transitive newerFirst) as Htrans.
  { intros a b c. unfold newerFirst. lia. }
  assert (Total newerFirst) as Htotal.
  { intros a b. unfold newerFirst. lia. }
  assert (StronglySorted newerFirst l) as Hsorted
    by apply (StronglySorted_merge_sort newerFirst).
  exists l. split; [apply merge_sort_Permutation|]. split; [exact Hsorted|].
  split; [reflexivity|]. split.
  - unfold getAllBackupStatuses, findManyNewestFirst. fold l.
    rewrite length_fmap, length_take.
    assert (length l = size db) as ->; [|done].
    unfold l. rewrite (Permutation_length (merge_sort_Permutation _ _)).
    rewrite length_fmap. apply length_map_to_list.
  - intros a b Ha Hb.
    apply (StronglySorted_app_1_elem_of newerFirst (take limit l) (drop limit l) a b);
      [|done|done].
    rewrite take_drop. done.
Qed.

(** X6: sweeping twice is sweeping once.  A second sweep with the same
    time and retention removes nothing and returns 0. *)
Theorem sweep_twice (db : Store) (now days : Z) :
  let first := cleanupOldStatuses (Some db) now (Some days) in
  cleanupOldStatuses first.1 now (Some days) = (first.1, 0%nat).
Proof.
  unfold cleanupOldStatuses, deleteMany. cbn [fst].
  set (w := expired (cutoffDate now days)).
  set (kept := filter (fun kv : string * JobRecord => w kv.2 = false) db).
  assert (filter (fun kv : string * JobRecord => w kv.2 = false) kept = kept) as Hk.
  { apply map_eq. intros j. unfold kept.
    destruct (filter (fun kv : string * JobRecord => w kv.2 = false) db !! j) as [r|] eqn:E.
    - apply map_lookup_filter_Some. split; [done|].
      apply map_lookup_filter_Some in E as [_ E]. done.
    - apply map_lookup_filter_None. by left. }
  assert (filter (fun kv : string * JobRecord => w kv.2 = true) kept = ∅) as He.
  { apply map_empty. intros j. apply map_lookup_filter_None. right.
    intros r Hr. unfold kept in Hr. apply map_lookup_filter_Some in Hr as [_ Hr].
    simpl in *. congruence. }
  rewrite Hk, He. by rewrite map_size_empty.
Qed.

(** X7: two job ids of the same backend and kind are equal exactly when
    they were generated in the same millisecond, and an upload job id
    without a table name is the backup job id behind [upload_]. *)
Theorem job_id_by_time (backendName type : string) (t1 t2 : Z) :
  (generateJobId backendName type t1 = generateJobId backendName type t2 <-> t1 = t2) /\
  generateUploadJobId backendName type None t1
    = ("upload_" ++ generateJobId backendName type t1)%string /\
  generateUploadJobId backendName type (Some ""%string) t1
    = generateUploadJobId backendName type None t1.
Proof.
  split; [|split; reflexivity].
  split; [|by intros ->]. unfold generateJobId. intros H.
  apply (inj (String.app backendName)) in H. simpl in H. injection H as H.
  apply (inj (String.app type)) in H. simpl in H. injection H as H.
  by apply (inj pretty).
Qed.

End JobStoreFacts.
(** ** Background jobs *)

Section BackgroundFacts.

Import JobTracker JobQueries Background.

(** A write with a status on a job that has a record: the record after it,
    seen from a record [r0] of the same job and a tracker [db0] with the
    same other jobs. *)
Lemma status_write_step (withAutomatic : bool) (db0 db : Store) (now : Z) (id : string)
    (p : Patch) (r0 r : JobRecord) (st : string) :
  db !! id = Some r -> pStatus p = Some st ->
  (type r = type r0 /\ backendName r = backendName r0 /\ createdAt r = createdAt r0) ->
  (forall j, j <> id -> db !! j = db0 !! j) ->
  let db' := <[id := updateData withAutomatic now p r]> db in
  exists r', db' !! id = Some r' /\ status r' = st /\
    (type r' = type r0 /\ backendName r' = backendName r0 /\ createdAt r' = createdAt r0) /\
    (forall j, j <> id -> db' !! j = db0 !! j).
Proof.
  intros Hr Hst Hsame Hframe db'. eexists. split; [apply lookup_insert_eq|].
  cbn. rewrite Hst. split; [done|]. split; [done|].
  intros j Hj. unfold db'. rewrite lookup_insert_ne by done. by apply Hframe.
Qed.

Lemma setBackupStatus_existing (db : Store) (now : Z) (id : string) (p : Patch) (r : JobRecord) :
  db !! id = Some r ->
  store (setBackupStatus (Some db) now id p) = Some (<[id := updateData true now p r]> db).
Proof. intros Hr. unfold setBackupStatus. by rewrite Hr. Qed.

Lemma setUploadStatus_existing (db : Store) (now : Z) (id : string) (p : Patch) (r : JobRecord) :
  db !! id = Some r ->
  setUploadStatus (Some db) now id p
  = {| store := Some (<[id := updateData false now p r]> db);
       outcome := Resolved; logged := None |}.
Proof. intros Hr. unfold setUploadStatus. by rewrite Hr. Qed.

(** The worker a backup of the given kind calls returned, and the URL it
    needs is configured. *)
Local Abbreviation worked type setting files database :=
  (if bool_decide (type = "files"%string)
   then Js.truthy (bucketurl setting) = true /\ exists result : string, files = inr result
   else Js.truthy (DBurl setting) = true /\ exists result : string, database = inr result).

Local Ltac write_step :=
  match goal with
  | H : ?db !! ?id = Some ?r,
    Hsame : (type ?r = _ /\ _),
    Hframe : (forall j, j <> ?id -> ?db !! j = _)
    |- context [setBackupStatus (Some ?db) ?now ?id ?p] =>
    rewrite (setBackupStatus_existing db now id p r H);
    let r' := fresh "r" in
    let H' := fresh "Hr" in
    let Hs' := fresh "Hst" in
    let Hsame' := fresh "Hsame" in
    let Hframe' := fresh "Hframe" in
    destruct (status_write_step true _ db now id p _ r _ H eq_refl Hsame Hframe)
      as (r' & H' & Hs' & Hsame' & Hframe');
    clear H Hframe Hsame;
    try match goal with Hs : status r = _ |- _ => clear Hs end
  | H : ?db !! ?id = Some ?r,
    Hsame : (type ?r = _ /\ _),
    Hframe : (forall j, j <> ?id -> ?db !! j = _)
    |- context [setUploadStatus (Some ?db) ?now ?id ?p] =>
    rewrite (setUploadStatus_existing db now id p r H); cbn [outcome store];
    let r' := fresh "r" in
    let H' := fresh "Hr" in
    let Hs' := fresh "Hst" in
    let Hsame' := fresh "Hsame" in
    let Hframe' := fresh "Hframe" in
    destruct (status_write_step false _ db now id p _ r _ H eq_refl Hsame Hframe)
      as (r' & H' & Hs' & Hsame' & Hframe');
    clear H Hframe Hsame;
    try match goal with Hs : status r = _ |- _ => clear Hs end
  end.

Local Ltac ended :=
  do 2 eexists; split; [reflexivity|]; split; [eassumption|];
  match goal with Hs : status _ = _ |- _ => rewrite Hs end.

Lemma background_backup_run (db : Store) (clock : nat -> Z) (id type : string)
    (setting : Setting) (files database : string + string) (r : JobRecord) :
  db !! id = Some r ->
  type = "files"%string \/ type = "database"%string ->
  exists (db' : Store) (r' : JobRecord),
    processBackupInBackground (Some db) clock id type setting files database = Some db' /\
    db' !! id = Some r' /\
    (status r' = "completed"%string \/ status r' = "failed"%string) /\
    (status r' = "completed"%string <-> worked type setting files database) /\
    (JobTracker.type r' = JobTracker.type r /\ backendName r' = backendName r /\
     createdAt r' = createdAt r) /\
    (forall j, j <> id -> db' !! j = db !! j).
Proof.
  intros Hr Hty.
  assert (JobTracker.type r = JobTracker.type r /\ backendName r = backendName r /\
          createdAt r = createdAt r) as Hsame by done.
  assert (forall j, j <> id -> db !! j = db !! j) as Hframe by done.
  unfold processBackupInBackground.
  destruct Hty as [-> | ->]; rewrite ?bool_decide_eq_true_2 by done;
    rewrite ?(bool_decide_eq_false_2 ("database"%string = "files"%string)) by done.
  - destruct (Js.truthy (bucketurl setting)) eqn:Eu; cbn [negb].
    + do 2 write_step. destruct files as [message | result]; write_step; ended.
      * split; [by right|]. split; [|done]. split; [done | intros [_ [? ?]]; done].
      * split; [by left|]. split; [|done]. split; [eauto | done].
    + write_step. ended. split; [by right|]. split; [|done].
      split; [done | intros [? _]; done].
  - destruct (Js.truthy (DBurl setting)) eqn:Eu; cbn [negb].
    + do 2 write_step. destruct database as [message | result]; write_step; ended.
      * split; [by right|]. split; [|done]. split; [done | intros [_ [? ?]]; done].
      * split; [by left|]. split; [|done]. split; [eauto | done].
    + write_step. ended. split; [by right|]. split; [|done].
      split; [done | intros [? _]; done].
Qed.

(** X8: a backup task ends.  For a job that has a record and a kind
    [files] or [database], [processBackupInBackground] leaves the job
    [completed] or [failed], never [processing]: [completed] exactly when
    the URL the kind needs is configured and the worker returned.  The job
    keeps its kind, backend and creation time, and no other job is
    touched. *)
Theorem background_backup_ends (db : Store) (clock : nat -> Z) (id type : string)
    (setting : Setting) (files database : string + string) (r : JobRecord) :
  db !! id = Some r ->
  type = "files"%string \/ type = "database"%string ->
  exists (db' : Store) (r' : JobRecord),
    processBackupInBackground (Some db) clock id type setting files database = Some db' /\
    db' !! id = Some r' /\
    (status r' = "completed"%string \/ status r' = "failed"%string) /\
    (status r' = "completed"%string <-> worked type setting files database) /\
    (JobTracker.type r' = JobTracker.type r /\ backendName r' = backendName r /\
     createdAt r' = createdAt r) /\
    (forall j, j <> id -> db' !! j = db !! j).
Proof. apply background_backup_run. Qed.

Lemma background_backup_ends_witness :
  exists (db' : Store) (r' : JobRecord),
    processBackupInBackground (Some {[ "j"%string := job "j" "processing" 5 ]})
      (fun k => 10 + Z.of_nat k) "j" "files"
      {| backendname := "A"; DBurl := None; bucketurl := None |}
      (inr "{}"%string) (inr "{}"%string) = Some db' /\
    db' !! "j"%string = Some r' /\
    (status r' = "completed"%string \/ status r' = "failed"%string).
Proof.
  destruct (background_backup_ends {[ "j"%string := job "j" "processing" 5 ]}
              (fun k => 10 + Z.of_nat k) "j" "files"
              {| backendname := "A"; DBurl := None; bucketurl := None |}
              (inr "{}"%string) (inr "{}"%string) (job "j" "processing" 5)
              ltac:(apply lookup_singleton_eq) ltac:(by left))
    as (db' & r' & H1 & H2 & H3 & _).
  exists db', r'. done.
Defined.

Lemma findByBackendName_name (settings : list Setting) (name : string) (setting : Setting) :
  findByBackendName settings name = Some setting -> backendname setting = name.
Proof.
  unfold findByBackendName. intros H. apply List.find_some in H as [_ H].
  by apply bool_decide_eq_true in H.
Qed.

Lemma truthy_nonempty (s : string) : s <> ""%string -> Js.truthy (Some s) = true.
Proof. destruct s; [done | reflexivity]. Qed.

(** X9: [createBackup] either answers with an error and leaves the tracker
    as it was, or starts a job.  A request for [files] or [database] on a
    registered backend is answered with the generated job id, and when the
    background task has ended the tracker holds that job as [completed] or
    [failed], with every other job unchanged. *)
Theorem create_backup_job :
  (forall prisma now clock settings type backendName files database,
     let run := createBackup prisma now clock settings type backendName files database in
     (exists id, run.1 = Started id) \/ run.2 = prisma) /\
  (forall (db : Store) now clock settings (type backendName : string) setting files database,
     type = "files"%string \/ type = "database"%string ->
     backendName <> ""%string ->
     findByBackendName settings backendName = Some setting ->
     let run := createBackup (Some db) now clock settings (Some type) (Some backendName)
                  files database in
     let id := generateJobId backendName type now in
     run.1 = Started id /\
     exists (db' : Store) (r' : JobRecord),
       run.2 = Some db' /\ db' !! id = Some r' /\
       (status r' = "completed"%string \/ status r' = "failed"%string) /\
       (status r' = "completed"%string <-> worked type setting files database) /\
       (forall j, j <> id -> db' !! j = db !! j)).
Proof.
  split.
  - intros. unfold run, createBackup.
    destruct (negb _ || negb _); [by right|].
    destruct (negb _ && negb _); [by right|].
    destruct (findByBackendName _ _); [left; eauto | by right].
  - intros db now clock settings type backendName setting files database Hty Hbn Hfind run id.
    assert (Js.truthy (Some type) = true) as Ht by (destruct Hty as [-> | ->]; reflexivity).
    pose proof (truthy_nonempty _ Hbn) as Hb.
    pose proof (findByBackendName_name _ _ _ Hfind) as Hname.
    unfold run, createBackup. rewrite Ht, Hb. cbn [negb orb].
    change (show (Some type)) with type. change (show (Some backendName)) with backendName.
    assert (negb (bool_decide (type = "files"%string))
            && negb (bool_decide (type = "database"%string)) = false) as ->.
    { destruct Hty as [-> | ->]; reflexivity. }
    rewrite Hfind. cbn [fst snd]. fold id. split; [done|].
    assert (exists (db1 : Store) (r1 : JobRecord),
              store (setBackupStatus (Some db) (clock 0%nat) id
                       (startedPatch type (backendname setting))) = Some db1 /\
              db1 !! id = Some r1 /\ (forall j, j <> id -> db1 !! j = db !! j))
      as (db1 & r1 & -> & Hr1 & Hframe1).
    { unfold setBackupStatus. destruct (db !! id) as [r|] eqn:E.
      - do 2 eexists. cbn [store]. split; [reflexivity|].
        split; [apply lookup_insert_eq|]. intros j Hj. by rewrite lookup_insert_ne.
      - cbn [startedPatch pType pBackendName pStatus fmap option_fmap option_map].
        unfold Js.orElse. rewrite Hname. repeat (rewrite Ht || rewrite Hb).
        cbn [negb orb]. do 2 eexists. cbn [store]. split; [reflexivity|].
        split; [apply lookup_insert_eq|]. intros j Hj. by rewrite lookup_insert_ne. }
    destruct (background_backup_run db1 clock id type setting files database r1 Hr1 Hty)
      as (db' & r' & Hrun & Hr' & Hend & Hdone & _ & Hframe).
    exists db', r'. split; [done|]. split; [done|]. split; [done|]. split; [done|].
    intros j Hj. rewrite Hframe by done. by apply Hframe1.
Qed.

Lemma create_backup_job_witness :
  let settings := [ {| backendname := "A"; DBurl := Some "postgres://a"%string;
                       bucketurl := None |} ] in
  let run := createBackup (Some ∅) 1700000000000 (fun k => 1700000000000 + Z.of_nat k)
               settings (Some "database"%string) (Some "A"%string)
               (inl "unused"%string) (inr "{}"%string) in
  run.1 = Started (generateJobId "A" "database" 1700000000000).
Proof.
  intros settings run.
  exact (proj1 (proj2 create_backup_job ∅ 1700000000000
                  (fun k => 1700000000000 + Z.of_nat k) settings "database" "A"
                  {| backendname := "A"; DBurl := Some "postgres://a"%string;
                     bucketurl := None |}
                  (inl "unused"%string) (inr "{}"%string)
                  ltac:(by right) ltac:(discriminate) eq_refl)).
Defined.

Lemma setUploadStatus_missing (db : Store) (now : Z) (id : string) (p : Patch) :
  db !! id = None -> pType p = None ->
  exists m, setUploadStatus (Some db) now id p
            = {| store := Some db; outcome := Rejected m; logged := Some m |}.
Proof.
  intros Hnone Hty. unfold setUploadStatus. rewrite Hnone, Hty. cbn. eauto.
Qed.

Local Ltac reject_step :=
  match goal with
  | Hnone : ?db !! ?id = None
    |- context [setUploadStatus (Some ?db) ?now ?id ?p] =>
    let m := fresh "m" in
    let Hm := fresh "Hm" in
    destruct (setUploadStatus_missing db now id p Hnone eq_refl) as [m Hm];
    rewrite Hm; cbn [outcome store]; clear Hm
  end.

(** X10: an upload task ends when its job has a record, and cannot report
    anything when it has none.  For a kind [files] or [database]: with a
    record, [processUploadInBackground] resolves and leaves the job
    [completed] or [failed], its kind, backend and creation time and every
    other job unchanged; without a record every status write is refused,
    the one in the [catch] included, so the task rejects and the tracker is
    unchanged. *)
Theorem background_upload_ends (db : Store) (clock : nat -> Z) (id type : string)
    (setting : Setting) (backupTableName remoteTableName : string)
    (files : string + string) (fetched : string + nat) (uploaded : string + string) :
  type = "files"%string \/ type = "database"%string ->
  let run := processUploadInBackground (Some db) clock id type setting
               backupTableName remoteTableName files fetched uploaded in
  (forall r, db !! id = Some r ->
     exists (db' : Store) (r' : JobRecord),
       run = (Some db', Resolved) /\ db' !! id = Some r' /\
       (status r' = "completed"%string \/ status r' = "failed"%string) /\
       (JobTracker.type r' = JobTracker.type r /\ backendName r' = backendName r /\
        createdAt r' = createdAt r) /\
       (forall j, j <> id -> db' !! j = db !! j)) /\
  (db !! id = None -> exists m, run = (Some db, Rejected m)).
Proof.
  intros Hty run. split.
  - intros r Hr.
    assert (JobTracker.type r = JobTracker.type r /\ backendName r = backendName r /\
            createdAt r = createdAt r) as Hsame by done.
    assert (forall j, j <> id -> db !! j = db !! j) as Hframe by done.
    unfold run, processUploadInBackground.
    destruct Hty as [-> | ->]; rewrite ?bool_decide_eq_true_2 by done;
      rewrite ?(bool_decide_eq_false_2 ("database"%string = "files"%string)) by done.
    + destruct (Js.truthy (bucketurl setting)) eqn:Eu; cbn [negb].
      * do 2 write_step. destruct files as [message | result]; write_step; ended.
        -- split; [by right | done].
        -- split; [by left | done].
      * write_step. ended. split; [by right | done].
    + destruct (Js.truthy (DBurl setting)) eqn:Eu; cbn [negb].
      * write_step. destruct fetched as [message | count].
        -- write_step. ended. split; [by right | done].
        -- write_step. destruct uploaded as [message | result]; write_step; ended.
           ++ split; [by right | done].
           ++ split; [by left | done].
      * write_step. ended. split; [by right | done].
  - intros Hnone. unfold run, processUploadInBackground.
    destruct Hty as [-> | ->]; rewrite ?bool_decide_eq_true_2 by done;
      rewrite ?(bool_decide_eq_false_2 ("database"%string = "files"%string)) by done.
    + destruct (Js.truthy (bucketurl setting)); cbn [negb]; do 2 reject_step; eauto.
    + destruct (Js.truthy (DBurl setting)); cbn [negb]; do 2 reject_step; eauto.
Qed.

Lemma background_upload_ends_witness :
  exists m,
    processUploadInBackground (Some ∅) (fun k => Z.of_nat k) "upload_A_files_1" "files"
      {| backendname := "A"; DBurl := None; bucketurl := Some "http://files.example/b"%string |}
      "" "" (inr "{}"%string) (inr 0%nat) (inr "{}"%string)
    = (Some ∅, Rejected m).
Proof.
  apply (proj2 (background_upload_ends ∅ (fun k => Z.of_nat k) "upload_A_files_1" "files"
                  {| backendname := "A"; DBurl := None;
                     bucketurl := Some "http://files.example/b"%string |}
                  "" "" (inr "{}"%string) (inr 0%nat) (inr "{}"%string) ltac:(by left))).
  apply lookup_empty.
Defined.

End BackgroundFacts.

(* ===================================================================== *)
(** * Table names and the comparison run *)
(* ===================================================================== *)

Section TableNamesFacts.
Import TableNames.

Lemma startsWith_split (p s : string) :
  Js.startsWith p s = true -> s = (p ++ substringFrom (String.length p) s)%string.
Proof.
  revert s. induction p as [|a p IH]; intros s H; [done|].
  destruct s as [|b s]; [done|]. simpl in H.
  destruct (Ascii.eqb_spec a b) as [-> | ?]; [|done].
  change (String b s = String b (p ++ substringFrom (String.length p) s)%string).
  f_equal. by apply IH.
Qed.

Lemma startsWith_app (p s : string) : Js.startsWith p (p ++ s) = true.
Proof. induction p as [|a p IH]; [done|]. simpl. by rewrite Ascii.eqb_refl. Qed.

Lemma substringFrom_app (p s : string) : substringFrom (String.length p) (p ++ s) = s.
Proof. induction p as [|a p IH]; [by destruct s|]. done. Qed.

Lemma toLowerCase_substringFrom (n : nat) (s : string) :
  Js.toLowerCase (substringFrom n s) = substringFrom n (Js.toLowerCase s).
Proof.
  revert s. induction n as [|n IH]; intros s; [done|].
  destruct s as [|c s]; [done|]. simpl. apply IH.
Qed.

Lemma toLowerCase_length (s : string) : String.length (Js.toLowerCase s) = String.length s.
Proof. induction s as [|c s IH]; [done|]. simpl. by rewrite IH. Qed.

Lemma toLowerCase_app (s t : string) :
  Js.toLowerCase (s ++ t) = (Js.toLowerCase s ++ Js.toLowerCase t)%string.
Proof. induction s as [|c s IH]; [done|]. simpl. by rewrite IH. Qed.

Lemma string_app_assoc (s t u : string) : ((s ++ t) ++ u = s ++ (t ++ u))%string.
Proof.
  induction s as [|c s IH]; [done|].
  change (String c ((s ++ t) ++ u) = String c (s ++ (t ++ u)))%string. by rewrite IH.
Qed.

Lemma substringFrom_length (n : nat) (s : string) :
  String.length (substringFrom n s) = (String.length s - n)%nat.
Proof.
  revert s. induction n as [|n IH]; intros s; [simpl; lia|].
  destruct s as [|c s]; [done|]. simpl. apply IH.
Qed.

Lemma app_length (s t : string) :
  String.length (s ++ t) = (String.length s + String.length t)%nat.
Proof. induction s as [|c s IH]; [done|]. simpl. by rewrite IH. Qed.

Lemma prefixes_length (n : nat) : String.length (prefixes n) = (7 * n)%nat.
Proof. induction n as [|n IH]; [done|]. cbn [prefixes]. rewrite app_length, IH. simpl. lia. Qed.

(** One turn of the loop takes one prefix off the lower-case name. *)
Lemma dropBackupPrefix_lower (s : string) :
  hasBackupPrefix s = true ->
  Js.toLowerCase s = (backupPrefix ++ Js.toLowerCase (dropBackupPrefix s))%string /\
  (String.length (dropBackupPrefix s) + 7 = String.length s)%nat.
Proof.
  intros H. unfold dropBackupPrefix. rewrite H. unfold hasBackupPrefix in H.
  pose proof (startsWith_split _ _ H) as Hs.
  rewrite toLowerCase_substringFrom. split; [done|].
  rewrite substringFrom_length.
  apply (f_equal String.length) in Hs.
  rewrite app_length, substringFrom_length, toLowerCase_length in Hs. simpl in *. lia.
Qed.

Lemma stripLoop_exit (fuel : nat) (s : string) :
  (String.length s <= fuel)%nat -> hasBackupPrefix (stripLoop fuel s) = false.
Proof.
  revert s. induction fuel as [|fuel IH]; intros s Hlen.
  - destruct s; [done | simpl in Hlen; lia].
  - simpl. destruct (hasBackupPrefix s) eqn:E; [|done].
    apply IH. destruct (dropBackupPrefix_lower s E) as [_ Hl]. lia.
Qed.

Lemma stripLoop_fuel (f1 f2 : nat) (s : string) :
  (String.length s <= f1)%nat -> (String.length s <= f2)%nat ->
  stripLoop f1 s = stripLoop f2 s.
Proof.
  revert f2 s. induction f1 as [|f1 IH]; intros f2 s H1 H2.
  - destruct s; [by destruct f2 | simpl in H1; lia].
  - destruct f2 as [|f2]; [destruct s; [done | simpl in H2; lia]|].
    simpl. destruct (hasBackupPrefix s) eqn:E; [|done].
    destruct (dropBackupPrefix_lower s E) as [_ Hl]. apply IH; lia.
Qed.

Lemma stripLoop_decomp (fuel : nat) (s : string) :
  exists n, Js.toLowerCase s = (prefixes n ++ Js.toLowerCase (stripLoop fuel s))%string.
Proof.
  revert s. induction fuel as [|fuel IH]; intros s; [by exists 0%nat|].
  simpl. destruct (hasBackupPrefix s) eqn:E; [|by exists 0%nat].
  destruct (dropBackupPrefix_lower s E) as [Hs _].
  destruct (IH (dropBackupPrefix s)) as [n Hn].
  exists (S n). rewrite Hs, Hn. done.
Qed.

(** The loop takes off exactly the prefixes the name has. *)
Lemma stripLoop_lower (fuel n : nat) (s u : string) :
  Js.toLowerCase s = (prefixes n ++ u)%string ->
  Js.startsWith backupPrefix u = false ->
  (n <= fuel)%nat ->
  Js.toLowerCase (stripLoop fuel s) = u.
Proof.
  revert fuel s. induction n as [|n IH]; intros fuel s Hs Hu Hn.
  - change (Js.toLowerCase s = u) in Hs. destruct fuel as [|fuel]; [done|].
    cbn [stripLoop]. unfold hasBackupPrefix. by rewrite Hs, Hu.
  - destruct fuel as [|fuel]; [lia|]. cbn [stripLoop].
    assert (hasBackupPrefix s = true) as E.
    { unfold hasBackupPrefix. rewrite Hs. cbn [prefixes].
      rewrite string_app_assoc. apply startsWith_app. }
    rewrite E. apply IH; [|done|lia].
    destruct (dropBackupPrefix_lower s E) as [Hd _].
    rewrite Hs in Hd. cbn [prefixes] in Hd. rewrite string_app_assoc in Hd.
    by apply (inj (String.app backupPrefix)) in Hd.
Qed.


Lemma isSpace_plain (c : ascii) : plain c = true -> isSpace c = false.
Proof.
  unfold plain, isSpace. intros [H1%Nat.leb_le H2%Nat.leb_le]%andb_prop.
  apply orb_false_iff. split.
  - apply andb_false_iff. right. apply Nat.leb_gt. lia.
  - apply Nat.eqb_neq. lia.
Qed.

Lemma trimStart_plain (s : string) : plainName s = true -> trimStart s = s.
Proof.
  destruct s as [|c s]; [done|]. simpl. intros [Hc _]%andb_prop.
  by rewrite (isSpace_plain c Hc).
Qed.

Lemma trimEnd_plain (s : string) : plainName s = true -> trimEnd s = s.
Proof.
  induction s as [|c s IH]; [done|]. simpl. intros [Hc Hs]%andb_prop.
  rewrite (IH Hs). destruct s; [|done]. by rewrite (isSpace_plain c Hc).
Qed.

Lemma trim_plain (s : string) : plainName s = true -> trim s = s.
Proof. intros H. unfold trim. rewrite (trimStart_plain s H). by apply trimEnd_plain. Qed.

Lemma plain_lowerChar (c : ascii) : plain c = true -> plain (Js.lowerChar c) = true.
Proof.
  unfold plain, Js.lowerChar. intros [H1%Nat.leb_le H2%Nat.leb_le]%andb_prop.
  destruct ((65 <=? nat_of_ascii c)%nat && (nat_of_ascii c <=? 90)%nat) eqn:E.
  - apply andb_prop in E as [E1%Nat.leb_le E2%Nat.leb_le].
    rewrite nat_ascii_embedding by lia.
    apply andb_true_iff. split; apply Nat.leb_le; lia.
  - apply andb_true_iff. split; apply Nat.leb_le; lia.
Qed.

Lemma plainName_toLowerCase (s : string) :
  plainName s = true -> plainName (Js.toLowerCase s) = true.
Proof.
  induction s as [|c s IH]; [done|]. simpl. intros [Hc Hs]%andb_prop.
  by rewrite (plain_lowerChar c Hc), (IH Hs).
Qed.

Lemma plainName_substringFrom (n : nat) (s : string) :
  plainName s = true -> plainName (substringFrom n s) = true.
Proof.
  revert s. induction n as [|n IH]; intros s H; [done|].
  destruct s as [|c s]; [done|]. simpl in *. apply andb_prop in H as [_ H]. by apply IH.
Qed.

Lemma plainName_stripLoop (fuel : nat) (s : string) :
  plainName s = true -> plainName (stripLoop fuel s) = true.
Proof.
  revert s. induction fuel as [|fuel IH]; intros s H; [done|]. simpl.
  destruct (hasBackupPrefix s) eqn:E; [|done]. apply IH.
  unfold dropBackupPrefix. rewrite E. by apply plainName_substringFrom.
Qed.

(** The base name of a name of plain characters is its lower-case form
    without the prefixes, and does not begin with [backup_]. *)
Lemma getBaseTableName_plain (s : string) :
  plainName s = true ->
  getBaseTableName s = Js.toLowerCase (stripLoop (String.length s) s) /\
  Js.startsWith backupPrefix (getBaseTableName s) = false.
Proof.
  intros Hp. unfold getBaseTableName. destruct s as [|c s]; [done|].
  cbn [Js.truthy String.eqb negb].
  rewrite trim_plain by by apply plainName_toLowerCase, plainName_stripLoop.
  split; [done|]. apply (stripLoop_exit (String.length (String c s)) (String c s)). done.
Qed.

Lemma isInternalTable_base (s : string) :
  s <> EmptyString ->
  isInternalTable s = true <->
  getBaseTableName s = "settings"%string \/ getBaseTableName s = "backup_statuses"%string.
Proof.
  intros Hs. unfold isInternalTable. destruct s as [|c s]; [done|].
  cbn [Js.truthy String.eqb negb internalTables existsb].
  change (Js.toLowerCase "settings") with "settings"%string.
  change (Js.toLowerCase "backup_statuses") with "backup_statuses"%string.
  rewrite orb_false_r, orb_true_iff, !String.eqb_eq.
  split; (intros [H | H]; [left | right]; done).
Qed.

(** X12: which names [isInternalTable] takes for internal.  A name of plain
    characters is internal exactly when, letter case apart, it is
    [settings] behind any number of [backup_] prefixes.  The second entry
    of the list of internal tables is never met: the status table
    [backup_statuses] is not internal under any number of prefixes, because
    its base name is [statuses]. *)
Theorem internal_table_iff (s : string) :
  plainName s = true ->
  (isInternalTable s = true <->
   exists n, Js.toLowerCase s = (prefixes n ++ "settings")%string) /\
  (forall n, Js.toLowerCase s = (prefixes (S n) ++ "statuses")%string ->
             isInternalTable s = false).
Proof.
  intros Hp. destruct (getBaseTableName_plain s Hp) as [Hbase Hexit].
  split; [split|].
  - intros H. assert (s <> EmptyString) as Hs by by intros ->.
    apply isInternalTable_base in H as [H | H]; [|by rewrite H in Hexit|done].
    destruct (stripLoop_decomp (String.length s) s) as [n Hn].
    exists n. by rewrite Hn, <- Hbase, H.
  - intros [n Hn].
    assert (s <> EmptyString) as Hs.
    { intros ->. by destruct n. }
    apply isInternalTable_base; [done|]. left. rewrite Hbase.
    apply (stripLoop_lower _ n); [done | done |].
    apply (f_equal String.length) in Hn.
    rewrite toLowerCase_length, app_length, prefixes_length in Hn. lia.
  - intros n Hn.
    assert (s <> EmptyString) as Hs by by intros ->.
    apply not_true_is_false. intros H.
    apply isInternalTable_base in H; [|done]. rewrite Hbase in H.
    rewrite (stripLoop_lower _ (S n) s "statuses") in H; [by destruct H | done | done |].
    apply (f_equal String.length) in Hn.
    rewrite toLowerCase_length, app_length, prefixes_length in Hn. lia.
Qed.

Lemma internal_table_iff_witness :
  isInternalTable "Backup_BACKUP_Settings" = true /\
  isInternalTable "backup_statuses" = false.
Proof.
  split.
  - apply (proj1 (internal_table_iff "Backup_BACKUP_Settings" eq_refl)).
    by exists 2%nat.
  - apply (proj2 (internal_table_iff "backup_statuses" eq_refl) 0%nat). reflexivity.
Defined.

End TableNamesFacts.
Section ComparatorRunFacts.
Import Comparator TableNames ComparatorRun.

Variable countOf : string -> option Z.
Variable remoteIdsOf backupIdsOf : string -> option (list string).
Variable fetchRows : string -> list string -> option (list Obj).

Local Abbreviation remoteStep := (compareRemoteTable countOf remoteIdsOf backupIdsOf fetchRows).
Local Abbreviation backupStep := (compareBackupTable countOf).
Local Abbreviation run := (compareBackupWithRemote countOf remoteIdsOf backupIdsOf fetchRows).

Lemma tableStatus_no_error (p : Z) : tableStatus p <> status_error.
Proof. unfold tableStatus. by repeat case_match. Qed.

Lemma compareTable_entry (name : string) (remoteCount : Z) (existsInBackup : bool)
    (countResult : option Z) (rs bs : option (list string)) fetch :
  let entry := compareTable name remoteCount existsInBackup countResult rs bs fetch in
  tableName entry = name /\
  backupTableName entry
    = (if existsInBackup then Some ("backup_" ++ name)%string else None) /\
  status entry
    = (if existsInBackup then
         match countResult with
         | Some backupCount => tableStatus (progress backupCount remoteCount)
         | None => status_error
         end
       else not_backed_up).
Proof.
  unfold compareTable. destruct existsInBackup; [|done].
  destruct countResult as [backupCount|]; [|done].
  by destruct ((backupCount <? remoteCount) && (0 <? remoteCount)).
Qed.

Lemma withStatus_snoc (st : TableStatus) (entries : list TableEntry) (e : TableEntry) :
  withStatus st (entries ++ [e])
  = (withStatus st entries + (if decide (status e = st) then 1 else 0))%nat.
Proof.
  unfold withStatus. rewrite filter_app, length_app. f_equal.
  rewrite filter_cons, filter_nil. by destruct (decide (status e = st)).
Qed.

Lemma countStatus_agrees (c : Comparison) (e : TableEntry) (s : Summary) :
  agrees c ->
  s = countStatus (summary c) (status e) ->
  fullyBackedUp s = withStatus fully_backed_up (tablesComparison c ++ [e]) /\
  partiallyBackedUp s = withStatus partially_backed_up (tablesComparison c ++ [e]) /\
  notBackedUp s = withStatus not_backed_up (tablesComparison c ++ [e]).
Proof.
  intros (H1 & H2 & H3) ->. rewrite !withStatus_snoc, <- H1, <- H2, <- H3.
  destruct (status e); repeat split; repeat case_decide; try done; cbn; lia.
Qed.

Lemma remoteStep_agrees (names : list string) (c : Comparison) (remote : string * Z) :
  agrees c -> agrees (remoteStep names c remote).
Proof.
  intros Hc. unfold compareRemoteTable.
  destruct (compareTable_entry remote.1 remote.2
              (bool_decide (("backup_" ++ remote.1)%string ∈ names))
              (countOf ("backup_" ++ remote.1)%string) (remoteIdsOf remote.1)
              (backupIdsOf ("backup_" ++ remote.1)%string) (fetchRows remote.1))
    as (_ & _ & Hst).
  destruct (bool_decide _); unfold agrees; cbn [summary tablesComparison];
    (apply countStatus_agrees; [done|]); rewrite Hst; [|done].
  by destruct (countOf _).
Qed.

Lemma remote_loop_agrees (names : list string) (remotes : list (string * Z))
    (c : Comparison) :
  agrees c -> agrees (foldl (remoteStep names) c remotes).
Proof.
  revert c. induction remotes as [|r remotes IH]; intros c Hc; [done|].
  apply IH. by apply remoteStep_agrees.
Qed.

Lemma remoteStep_entries (names : list string) (c : Comparison) (remote : string * Z) :
  exists e,
    tablesComparison (remoteStep names c remote) = tablesComparison c ++ [e] /\
    e = compareTable remote.1 remote.2
          (bool_decide (("backup_" ++ remote.1)%string ∈ names))
          (countOf ("backup_" ++ remote.1)%string) (remoteIdsOf remote.1)
          (backupIdsOf ("backup_" ++ remote.1)%string) (fetchRows remote.1).
Proof.
  unfold compareRemoteTable. destruct (bool_decide _); eexists; split; reflexivity.
Qed.

Lemma remote_loop_entries (names : list string) (remotes : list (string * Z))
    (c : Comparison) :
  tablesComparison (foldl (remoteStep names) c remotes)
  = tablesComparison c ++
    ((fun remote : string * Z =>
        compareTable remote.1 remote.2
          (bool_decide (("backup_" ++ remote.1)%string ∈ names))
          (countOf ("backup_" ++ remote.1)%string) (remoteIdsOf remote.1)
          (backupIdsOf ("backup_" ++ remote.1)%string) (fetchRows remote.1)) <$> remotes).
Proof.
  revert c. induction remotes as [|r remotes IH]; intros c.
  - by rewrite app_nil_r.
  - cbn [foldl]. rewrite IH. destruct (remoteStep_entries names c r) as (e & -> & ->).
    by rewrite fmap_cons, <- app_assoc.
Qed.

Lemma remote_loop_missingInBackup (names : list string) (remotes : list (string * Z))
    (c : Comparison) :
  mbTableName <$> missingInBackup (foldl (remoteStep names) c remotes)
  = (mbTableName <$> missingInBackup c)
    ++ filter (fun t => ("backup_" ++ t)%string ∉ names) remotes.*1.
Proof.
  revert c. induction remotes as [|r remotes IH]; intros c.
  - by rewrite app_nil_r.
  - cbn [foldl]. rewrite IH, fmap_cons, filter_cons. unfold compareRemoteTable.
    destruct (decide (("backup_" ++ r.1)%string ∉ names)) as [Hn | Hn].
    + rewrite bool_decide_eq_false_2 by done. cbn [missingInBackup].
      by rewrite fmap_app, <- app_assoc.
    + rewrite bool_decide_eq_true_2 by by apply dec_stable. done.
Qed.

Lemma remote_loop_frame (names : list string) (remotes : list (string * Z))
    (c : Comparison) :
  let c' := foldl (remoteStep names) c remotes in
  backendName c' = backendName c /\ totalRemoteTables c' = totalRemoteTables c /\
  totalBackupTables c' = totalBackupTables c /\ missingInRemote c' = missingInRemote c /\
  missingInRemoteCount (summary c') = missingInRemoteCount (summary c).
Proof.
  revert c. induction remotes as [|r remotes IH]; intros c; [done|].
  cbn [foldl]. cbn zeta in IH. destruct (IH (remoteStep names c r)) as (-> & -> & -> & -> & ->).
  unfold compareRemoteTable.
  destruct (bool_decide _); cbn; repeat split; try done.
  - destruct (countOf _); [|done]. by destruct (tableStatus _).
Qed.

(** What the loop over the mirror tables reports for one of them. *)
Local Abbreviation reported remoteTableNames :=
  (fun t : string =>
     if passedOver t then None
     else if bool_decide (dropBackupPrefix t ∈ remoteTableNames) then None
     else (fun n => {| mrTableName := dropBackupPrefix t; mrBackupTableName := t;
                       mrBackupCount := n; mrRemoteCount := 0 |}) <$> countOf t).

Lemma backup_loop (remoteTableNames names : list string) (c : Comparison) :
  let c' := foldl (backupStep remoteTableNames) c names in
  backendName c' = backendName c /\ totalRemoteTables c' = totalRemoteTables c /\
  totalBackupTables c' = totalBackupTables c /\
  tablesComparison c' = tablesComparison c /\ missingInBackup c' = missingInBackup c /\
  fullyBackedUp (summary c') = fullyBackedUp (summary c) /\
  partiallyBackedUp (summary c') = partiallyBackedUp (summary c) /\
  notBackedUp (summary c') = notBackedUp (summary c) /\
  missingInRemote c' = missingInRemote c ++ omap (reported remoteTableNames) names /\
  missingInRemoteCount (summary c')
  = (missingInRemoteCount (summary c) + length (omap (reported remoteTableNames) names))%nat.
Proof.
  revert c. induction names as [|t names IH]; intros c.
  - cbn. rewrite app_nil_r. repeat split; lia.
  - cbn [foldl]. cbn zeta in IH.
    destruct (IH (backupStep remoteTableNames c t))
      as (-> & -> & -> & -> & -> & -> & -> & -> & -> & ->).
    cbn [omap list_omap]. unfold compareBackupTable.
    destruct (passedOver t); [repeat split; done|].
    destruct (bool_decide (dropBackupPrefix t ∈ remoteTableNames)); cbn [negb];
      [repeat split; done|].
    destruct (countOf t) as [n|]; cbn; [|repeat split; done].
    rewrite <- app_assoc. repeat split; try done; lia.
Qed.

Lemma dropBackupPrefix_mirror (t : string) : dropBackupPrefix ("backup_" ++ t) = t.
Proof.
  unfold dropBackupPrefix, hasBackupPrefix.
  rewrite toLowerCase_app. change (Js.toLowerCase "backup_") with backupPrefix.
  rewrite startsWith_app. apply (substringFrom_app backupPrefix).
Qed.

Lemma withStatus_total (entries : list TableEntry) :
  (withStatus fully_backed_up entries + withStatus partially_backed_up entries
   + withStatus not_backed_up entries + withStatus status_error entries
   = length entries)%nat.
Proof.
  unfold withStatus. induction entries as [|e l IH]; [done|].
  rewrite !filter_cons. cbn [length]. rewrite <- IH.
  destruct (status e); repeat case_decide; try done; cbn [length]; lia.
Qed.

Lemma comparison_entries
    (backend : string) (remoteTablesData : list (string * Z))
    (backupTablesResult : list string) :
  let c := run backend remoteTablesData backupTablesResult in
  tableName <$> tablesComparison c
  = (filter (fun remote => negb (isInternalTable remote.1) = true) remoteTablesData).*1 /\
  (forall e, e ∈ tablesComparison c ->
     backupTableName e = None \/
     backupTableName e = Some ("backup_" ++ tableName e)%string).
Proof.
  intros c. unfold c, compareBackupWithRemote. cbn zeta.
  set (remotes := filter (fun remote => negb (isInternalTable remote.1) = true)
                    remoteTablesData).
  set (backupTableNames := filter (fun t => keepBackupTable t = true) backupTablesResult).
  set (c0 := {| backendName := backend; totalRemoteTables := length remotes.*1;
                totalBackupTables := length backupTableNames; tablesComparison := [];
                missingInBackup := []; missingInRemote := []; summary := emptySummary |}).
  destruct (backup_loop remotes.*1 backupTableNames
              (foldl (remoteStep backupTableNames) c0 remotes))
    as (_ & _ & _ & -> & _).
  rewrite (remote_loop_entries backupTableNames remotes c0).
  change (tablesComparison c0) with (@nil TableEntry). rewrite app_nil_l. split.
  - rewrite <- list_fmap_compose. apply list_fmap_ext. intros _ r _. cbn.
    apply compareTable_entry.
  - intros e (r & -> & _)%list_elem_of_fmap.
    destruct (compareTable_entry r.1 r.2
                (bool_decide (("backup_" ++ r.1)%string ∈ backupTableNames))
                (countOf ("backup_" ++ r.1)%string) (remoteIdsOf r.1)
                (backupIdsOf ("backup_" ++ r.1)%string) (fetchRows r.1))
      as (Hname & Hmirror & _).
    cbn zeta in *. rewrite Hname, Hmirror. destruct (bool_decide _); auto.
Qed.



End ComparatorRunFacts.

(* ===================================================================== *)
(** * More on the comparison of files *)
(* ===================================================================== *)

Section FileCompareCounts.
Import FileCompare.

Lemma verdicts_exclusive (L : FileMap) (e : string * Descriptor) :
  (bucketOnly L e = true /\ sameSize L e = false /\ otherSize L e = false) \/
  (bucketOnly L e = false /\ sameSize L e = true /\ otherSize L e = false) \/
  (bucketOnly L e = false /\ sameSize L e = false /\ otherSize L e = true).
Proof.
  unfold bucketOnly, sameSize, otherSize. destruct (mapGet L e.1) as [l|]; [|tauto].
  destruct (dSize e.2 =? dSize l); cbn; tauto.
Qed.

Lemma verdicts_length (L : FileMap) (es : FileMap) :
  length es
  = (length (filter (fun e => bucketOnly L e = true) es)
     + length (filter (fun e => sameSize L e = true) es)
     + length (filter (fun e => otherSize L e = true) es))%nat.
Proof.
  induction es as [|e es IH]; [done|]. rewrite !filter_cons. cbn [length]. rewrite IH.
  destruct (verdicts_exclusive L e) as [(-> & -> & ->) | [(-> & -> & ->) | (-> & -> & ->)]];
    repeat case_decide; try done; cbn [length]; lia.
Qed.

Lemma present_length (B : FileMap) (es : FileMap) :
  length es
  = (length (filter (fun e : string * Descriptor => mapHas B e.1 = false) es)
     + length (filter (fun e : string * Descriptor => mapHas B e.1 = true) es))%nat.
Proof.
  induction es as [|e es IH]; [done|]. rewrite !filter_cons. cbn [length]. rewrite IH.
  destruct (mapHas B e.1); repeat case_decide; try done; cbn [length]; lia.
Qed.

(** The keys of both maps, listed from either side. *)
Lemma common_keys (B L : FileMap) :
  NoDup B.*1 -> NoDup L.*1 ->
  (filter (fun e : string * Descriptor => mapHas B e.1 = true) L).*1
  ≡ₚ (filter (fun e : string * Descriptor => mapHas L e.1 = true) B).*1.
Proof.
  intros HB HL. apply NoDup_Permutation; [by apply filter_keys_NoDup ..|].
  intros k. rewrite !filter_keys_elem. split.
  - intros (l & Hl & Hk). cbn in Hk. apply mapHas_true in Hk.
    apply list_elem_of_fmap in Hk as ([k' b] & -> & Hb).
    exists b. split; [done|]. cbn. apply mapHas_true, list_elem_of_fmap. by exists (k', l).
  - intros (b & Hb & Hk). cbn in Hk. apply mapHas_true in Hk.
    apply list_elem_of_fmap in Hk as ([k' l] & -> & Hl).
    exists l. split; [done|]. cbn. apply mapHas_true, list_elem_of_fmap. by exists (k', b).
Qed.

Lemma present_verdicts (L : FileMap) (es : FileMap) :
  length (filter (fun e : string * Descriptor => mapHas L e.1 = true) es)
  = (length (filter (fun e => sameSize L e = true) es)
     + length (filter (fun e => otherSize L e = true) es))%nat.
Proof.
  induction es as [|e es IH]; [done|]. rewrite !filter_cons.
  unfold sameSize, otherSize, mapHas in *.
  destruct (mapGet L e.1) as [l|].
  - destruct (dSize e.2 =? dSize l); repeat case_decide; try done; cbn [length negb];
      rewrite IH; lia.
  - repeat case_decide; try done.
Qed.

Lemma keys_length {A} (f : A -> string) (l : list A) : length (map f l) = length l.
Proof. apply length_map. Qed.

(** X15: the counters of the file comparison add up.  Every file of the
    bucket is missing locally, matching or different, and every local file
    is missing in the bucket, matching or different, so
    [totalBucketFiles] and [totalLocalFiles] are the sums of the lengths of
    the lists concerned. *)
Theorem compare_files_counts (bucketFiles localFiles : Node) :
  let c := compareBackupFiles bucketFiles localFiles in
  totalBucketFiles c
  = (length (missingInLocal c) + length (matchingFiles c) + length (differentFiles c))%nat /\
  totalLocalFiles c
  = (length (missingInBucket c) + length (matchingFiles c) + length (differentFiles c))%nat.
Proof.
  intros c.
  destruct (compare_keys bucketFiles localFiles) as (H1 & H2 & H3 & H4).
  fold c in H1, H2, H3, H4. cbn zeta in *.
  set (B := flattenFiles bucketFiles) in *. set (L := flattenFiles localFiles) in *.
  apply (f_equal length) in H1, H2, H3, H4.
  unfold keysMissingInLocal, keysMatching, keysDifferent, keysMissingInBucket in *.
  rewrite keys_length, length_fmap in H1. rewrite keys_length, length_fmap in H2.
  rewrite keys_length, length_fmap in H3. rewrite keys_length, length_fmap in H4.
  assert (totalBucketFiles c = length B /\ totalLocalFiles c = length L) as [-> ->].
  { unfold c, compareBackupFiles. fold B L.
    set (c0 := {| totalBucketFiles := length B; totalLocalFiles := length L;
                  missingInLocal := []; missingInBucket := [];
                  matchingFiles := []; differentFiles := [] |}).
    assert (forall es c', totalBucketFiles (foldl (checkLocalFile B) c' es)
                          = totalBucketFiles c' /\
                          totalLocalFiles (foldl (checkLocalFile B) c' es)
                          = totalLocalFiles c') as Hlocal.
    { induction es as [|[k l] es IH]; intros c'; [done|]. cbn [foldl].
      destruct (IH (checkLocalFile B c' (k, l))) as [-> ->].
      unfold checkLocalFile. by destruct (negb (mapHas B k)). }
    assert (forall es c', totalBucketFiles (foldl (checkBucketFile L) c' es)
                          = totalBucketFiles c' /\
                          totalLocalFiles (foldl (checkBucketFile L) c' es)
                          = totalLocalFiles c') as Hbucket.
    { induction es as [|[k b] es IH]; intros c'; [done|]. cbn [foldl].
      destruct (IH (checkBucketFile L c' (k, b))) as [-> ->].
      unfold checkBucketFile. destruct (mapGet L k) as [l|]; [|done].
      by destruct (dSize b =? dSize l). }
    destruct (Hlocal L (foldl (checkBucketFile L) c0 B)) as [-> ->].
    destruct (Hbucket B c0) as [-> ->]. done. }
  rewrite H1, H2, H3, H4. split; [apply verdicts_length|].
  rewrite (present_length B L). rewrite <- Nat.add_assoc. f_equal.
  rewrite <- (present_verdicts L B).
  rewrite <- (length_fmap fst (filter _ L)), <- (length_fmap fst (filter _ B)).
  apply Permutation_length, common_keys; apply flattenFiles_NoDup.
Qed.

Lemma filter_all {A} (P : A -> Prop) `{!forall x, Decision (P x)} (l : list A) :
  (forall x, x ∈ l -> P x) -> filter P l = l.
Proof.
  induction l as [|x l IH]; intros Hall; [done|]. rewrite filter_cons.
  rewrite decide_True by (apply Hall; left). f_equal. apply IH. intros y Hy.
  apply Hall. by right.
Qed.

Lemma filter_none {A} (P : A -> Prop) `{!forall x, Decision (P x)} (l : list A) :
  (forall x, x ∈ l -> ~ P x) -> filter P l = [].
Proof.
  induction l as [|x l IH]; intros Hall; [done|]. rewrite filter_cons.
  rewrite decide_False by (apply Hall; left). apply IH. intros y Hy. apply Hall. by right.
Qed.

(** X16: a tree compared with itself matches throughout: every key of the
    flattened map is reported as matching, in the order of the map, and the
    three other lists are empty. *)
Theorem compare_files_self (files : Node) :
  let c := compareBackupFiles files files in
  keysMatching c = (flattenFiles files).*1 /\
  missingInLocal c = [] /\ missingInBucket c = [] /\ differentFiles c = [].
Proof.
  intros c. destruct (compare_keys files files) as (H1 & H2 & H3 & H4).
  fold c in H1, H2, H3, H4. cbn zeta in *. set (B := flattenFiles files) in *.
  pose proof (flattenFiles_NoDup files) as Hnd. fold B in Hnd.
  assert (forall e, e ∈ B -> mapGet B e.1 = Some e.2) as Hget.
  { intros [k b] He. by apply mapGet_Some_elem. }
  rewrite filter_none in H1; [|intros e He; unfold bucketOnly; by rewrite (Hget e He)].
  rewrite filter_all in H2;
    [|intros e He; unfold sameSize; rewrite (Hget e He); apply Z.eqb_refl].
  rewrite filter_none in H3;
    [|intros e He; unfold otherSize; by rewrite (Hget e He), Z.eqb_refl].
  rewrite filter_none in H4; [|intros e He; unfold mapHas; by rewrite (Hget e He)].
  split; [done|].
  unfold keysMissingInLocal, keysDifferent, keysMissingInBucket in *.
  split; [by apply map_eq_nil in H1|]. split; [by apply map_eq_nil in H4|].
  by apply map_eq_nil in H3.
Qed.

(** X17: the comparison seen from the other side.  With the two trees
    exchanged, the keys missing locally and the keys missing in the bucket
    change places, list for list, and the matching keys and the different
    keys stay the same up to their order. *)
Theorem compare_files_swap (bucketFiles localFiles : Node) :
  let c := compareBackupFiles bucketFiles localFiles in
  let c' := compareBackupFiles localFiles bucketFiles in
  keysMissingInLocal c = keysMissingInBucket c' /\
  keysMissingInBucket c = keysMissingInLocal c' /\
  keysMatching c ≡ₚ keysMatching c' /\
  keysDifferent c ≡ₚ keysDifferent c'.
Proof.
  intros c c'.
  destruct (compare_keys bucketFiles localFiles) as (H1 & H2 & H3 & H4).
  destruct (compare_keys localFiles bucketFiles) as (G1 & G2 & G3 & G4).
  fold c in H1, H2, H3, H4. fold c' in G1, G2, G3, G4. cbn zeta in *.
  set (B := flattenFiles bucketFiles) in *. set (L := flattenFiles localFiles) in *.
  pose proof (flattenFiles_NoDup bucketFiles) as HB. fold B in HB.
  pose proof (flattenFiles_NoDup localFiles) as HL. fold L in HL.
  assert (forall (M : FileMap) (e : string * Descriptor),
            bucketOnly M e = true <-> mapHas M e.1 = false) as Honly.
  { intros M e. unfold bucketOnly, mapHas. by destruct (mapGet M e.1). }
  rewrite H1, H2, H3, H4, G1, G2, G3, G4. split; [|split; [|split]].
  - f_equal. apply list_filter_iff. intros e. apply Honly.
  - f_equal. apply list_filter_iff. intros e. symmetry. apply Honly.
  - apply NoDup_Permutation; [by apply filter_keys_NoDup ..|].
    intros k. rewrite !filter_keys_elem. unfold sameSize. cbn [fst snd]. split.
    + intros (b & Hb & Hs). destruct (mapGet L k) as [l|] eqn:El; [|done].
      exists l. apply mapGet_Some_elem in El; [|done]. split; [done|].
      apply mapGet_Some_elem in Hb; [|done]. rewrite Hb.
      apply Z.eqb_eq in Hs. by apply Z.eqb_eq.
    + intros (l & Hl & Hs). destruct (mapGet B k) as [b|] eqn:Eb; [|done].
      exists b. apply mapGet_Some_elem in Eb; [|done]. split; [done|].
      apply mapGet_Some_elem in Hl; [|done]. rewrite Hl.
      apply Z.eqb_eq in Hs. by apply Z.eqb_eq.
  - apply NoDup_Permutation; [by apply filter_keys_NoDup ..|].
    intros k. rewrite !filter_keys_elem. unfold otherSize. cbn [fst snd]. split.
    + intros (b & Hb & Hs). destruct (mapGet L k) as [l|] eqn:El; [|done].
      exists l. apply mapGet_Some_elem in El; [|done]. split; [done|].
      apply mapGet_Some_elem in Hb; [|done]. rewrite Hb.
      apply negb_true_iff, Z.eqb_neq in Hs. apply negb_true_iff, Z.eqb_neq. done.
    + intros (l & Hl & Hs). destruct (mapGet B k) as [b|] eqn:Eb; [|done].
      exists b. apply mapGet_Some_elem in Eb; [|done]. split; [done|].
      apply mapGet_Some_elem in Hl; [|done]. rewrite Hl.
      apply negb_true_iff, Z.eqb_neq in Hs. apply negb_true_iff, Z.eqb_neq. done.
Qed.

End FileCompareCounts.
(* ===================================================================== *)
(** * The backup of files *)
(* ===================================================================== *)

Section FileBackupFacts.
Import FileCompare FileBackup.

Variable pathJoin : string -> string -> string -> string.
Variable mkdir : string -> Mkdir.
Variable download : string -> string -> Download.
Variable bucketUrl : string.
Variable viaS3 : bool.

Local Abbreviation step := (processFile pathJoin mkdir download bucketUrl viaS3).
Local Abbreviation folder := (processFolder pathJoin mkdir download bucketUrl viaS3).
Local Abbreviation run := (backupFiles pathJoin mkdir download bucketUrl viaS3).
Local Abbreviation path := (pathOf pathJoin).

(** [processFolder] is the loop body folded over the listing. *)
Lemma processFolder_listing (backupPath : string) (structure : Node) :
  forall (currentPath : string) (s : Progress),
    folder backupPath structure currentPath s
    = foldl (step backupPath) s (listing structure currentPath).
Proof.
  revert structure. fix IH 1. intros [files folders] currentPath s.
  cbn [processFolder listing]. rewrite foldl_app.
  generalize (foldl (step backupPath) s ((fun file => (currentPath, file)) <$> files)).
  clear s. induction folders as [|[folderName sub] rest IHrest]; intros s; [done|].
  rewrite foldl_app, <- IHrest, IH. done.
Qed.

(** One file: what the loop body changes. *)
Lemma step_accounts (backupPath : string) (s : Progress) (entry : string * File) :
  let s' := step backupPath s entry in
  totalFiles s' = S (totalFiles s) /\
  disk s ⊆ disk s' /\
  (exists m d : nat,
     (downloadedFiles s' + skippedFiles s' + m + d
      = downloadedFiles s + skippedFiles s + 1)%nat /\
     length (errors s')
     = (length (errors s) + m + (if viaS3 then d else 2 * d))%nat) /\
  (exists new, fetched s' = fetched s ++ new /\
               (length new <= 1)%nat /\
               (downloadedFiles s' <= downloadedFiles s + length new)%nat /\
               forall src p, (src, p) ∈ new -> p = path backupPath entry /\ p ∉ disk s).
Proof.
  unfold processFile. cbn zeta.
  destruct (mkError (mkdir _)) as [message|].
  { cbn. split; [done|]. split; [set_solver|]. split.
    - exists 1%nat, 0%nat. rewrite length_app. cbn. destruct viaS3; lia.
    - exists []. rewrite app_nil_r. split; [done|]. split; [cbn; lia|].
      split; [cbn; lia|]. intros ? ? []%elem_of_nil. }
  destruct (decide (_ ∈ _)) as [Hin | Hnot].
  { cbn. split; [done|]. split; [set_solver|]. split.
    - exists 0%nat, 0%nat. destruct viaS3; lia.
    - exists []. rewrite app_nil_r. split; [done|]. split; [cbn; lia|].
      split; [cbn; lia|]. intros ? ? []%elem_of_nil. }
  destruct (download _ _) as [|message leftBehind].
  { cbn. split; [done|]. split; [set_solver|]. split.
    - exists 0%nat, 0%nat. destruct viaS3; lia.
    - eexists [_]. split; [done|]. split; [cbn; lia|]. split; [cbn; lia|].
      intros src p [= -> ->]%list_elem_of_singleton. split; [done|]. set_solver. }
  cbn. split; [done|]. split; [destruct leftBehind; set_solver|]. split.
  - exists 0%nat, 1%nat. rewrite !length_app. destruct viaS3; cbn; lia.
  - eexists [_]. split; [done|]. split; [cbn; lia|]. split; [cbn; lia|].
    intros src p [= -> ->]%list_elem_of_singleton. split; [done|]. set_solver.
Qed.

Lemma loop_accounts (backupPath : string) (entries : list (string * File)) (s : Progress) :
  let s' := foldl (step backupPath) s entries in
  totalFiles s' = (totalFiles s + length entries)%nat /\
  disk s ⊆ disk s' /\
  (exists m d : nat,
     (downloadedFiles s' + skippedFiles s' + m + d
      = downloadedFiles s + skippedFiles s + length entries)%nat /\
     length (errors s')
     = (length (errors s) + m + (if viaS3 then d else 2 * d))%nat) /\
  (exists new, fetched s' = fetched s ++ new /\
               (downloadedFiles s' <= downloadedFiles s + length new)%nat /\
               forall src p, (src, p) ∈ new ->
                 p ∈ path backupPath <$> entries /\ p ∉ disk s).
Proof.
  revert s. induction entries as [|entry entries IH]; intros s.
  - cbn. split; [lia|]. split; [done|]. split.
    + exists 0%nat, 0%nat. destruct viaS3; lia.
    + exists []. rewrite app_nil_r. split; [done|]. split; [cbn; lia|].
      intros ? ? []%elem_of_nil.
  - cbn [foldl]. cbn zeta in IH.
    destruct (IH (step backupPath s entry))
      as (Ht & Hd & (m & d & Hc & He) & (new & Hf & Hn & Hp)).
    destruct (step_accounts backupPath s entry)
      as (Ht1 & Hd1 & (m1 & d1 & Hc1 & He1) & (new1 & Hf1 & Hl1 & Hn1 & Hp1)).
    cbn zeta in *. split; [cbn [length]; lia|]. split; [set_solver|]. split.
    + exists (m + m1)%nat, (d + d1)%nat. cbn [length]. split; [lia|].
      rewrite He, He1. destruct viaS3; lia.
    + exists (new1 ++ new). rewrite Hf, Hf1, <- app_assoc. split; [done|].
      split; [rewrite length_app; lia|].
      intros src p [Hin | Hin]%elem_of_app.
      * destruct (Hp1 src p Hin) as [-> Hnot]. split; [|done].
        rewrite fmap_cons. left.
      * destruct (Hp src p Hin) as [Hin' Hnot]. split; [rewrite fmap_cons; by right|].
        set_solver.
Qed.


(** A second pass over the same files on a disk that holds what a first
    pass left. *)
Lemma second_pass (backupPath : string) (entries : list (string * File)) :
  forall s t : Progress,
    disk (foldl (step backupPath) s entries) ⊆ disk t ->
    let s1 := foldl (step backupPath) s entries in
    let t1 := foldl (step backupPath) t entries in
    disk t1 = disk t /\
    downloadedFiles t1 = downloadedFiles t /\
    (downloadedFiles s1 + skippedFiles s1 + skippedFiles t
     <= downloadedFiles s + skippedFiles s + skippedFiles t1)%nat /\
    (exists e1 e2, errors s1 = errors s ++ e1 /\ errors t1 = errors t ++ e2 /\
                   e2 `sublist_of` e1) /\
    (exists f1 f2, fetched s1 = fetched s ++ f1 /\ fetched t1 = fetched t ++ f2 /\
                   f2 `sublist_of` f1).
Proof.
  induction entries as [|entry entries IH]; intros s t Hsub.
  - cbn. split; [done|]. split; [done|]. split; [lia|].
    split; exists [], []; rewrite !app_nil_r; done.
  - cbn [foldl] in *. cbn zeta in *.
    pose proof (loop_accounts backupPath entries (step backupPath s entry))
      as (_ & Hmono & _).
    cbn zeta in Hmono.
    assert (disk (step backupPath s entry) ⊆ disk t) as Hs' by set_solver.
    assert (disk (step backupPath t entry) = disk t /\
            downloadedFiles (step backupPath t entry) = downloadedFiles t /\
            (downloadedFiles (step backupPath s entry)
             + skippedFiles (step backupPath s entry) + skippedFiles t
             <= downloadedFiles s + skippedFiles s
                + skippedFiles (step backupPath t entry))%nat /\
            (exists e1 e2, errors (step backupPath s entry) = errors s ++ e1 /\
                           errors (step backupPath t entry) = errors t ++ e2 /\
                           e2 `sublist_of` e1) /\
            (exists f1 f2, fetched (step backupPath s entry) = fetched s ++ f1 /\
                           fetched (step backupPath t entry) = fetched t ++ f2 /\
                           f2 `sublist_of` f1))
      as (Hdisk & Hdown & Hcount & (e1 & e2 & He1 & He2 & He) & (f1 & f2 & Hf1 & Hf2 & Hf)).
    { clear IH Hsub Hmono. revert Hs'. unfold processFile. cbn zeta.
      destruct (mkError (mkdir _)) as [message|].
      { cbn. intros Hs'. split; [set_solver|]. split; [done|]. split; [lia|].
        split; [by eexists _, _|]. exists [], []. by rewrite !app_nil_r. }
      destruct (decide (_ ∈ disk s ∪ _)) as [Hin | Hnot].
      { cbn. intros Hs'. rewrite decide_True by set_solver. cbn.
        split; [set_solver|]. split; [done|]. split; [lia|].
        split; exists [], []; by rewrite !app_nil_r. }
      destruct (download _ _) as [|message leftBehind].
      { cbn. intros Hs'. rewrite decide_True by set_solver. cbn.
        split; [set_solver|]. split; [done|]. split; [lia|]. split.
        - exists [], []. by rewrite !app_nil_r.
        - eexists [_], []. split; [done|]. split; [by rewrite app_nil_r|].
          apply sublist_nil_l. }
      cbn. intros Hs'. destruct (decide (_ ∈ disk t ∪ _)) as [Hin' | Hnot'].
      { cbn. split; [destruct leftBehind; set_solver|]. split; [done|]. split; [lia|]. split.
        - eexists _, []. split; [done|]. split; [by rewrite app_nil_r|].
          apply sublist_nil_l.
        - eexists [_], []. split; [done|]. split; [by rewrite app_nil_r|].
          apply sublist_nil_l. }
      destruct leftBehind; [set_solver|]. cbn.
      split; [set_solver|]. split; [done|]. split; [lia|].
      split; by eexists _, _. }
    destruct (IH (step backupPath s entry) (step backupPath t entry))
      as (Hdisk' & Hdown' & Hcount' & (e1' & e2' & He1' & He2' & He')
          & (f1' & f2' & Hf1' & Hf2' & Hf')).
    { by rewrite Hdisk. }
    split; [by rewrite Hdisk'|]. split; [by rewrite Hdown'|]. split; [lia|]. split.
    + exists (e1 ++ e1'), (e2 ++ e2'). rewrite He1', He2', He1, He2, <- !app_assoc.
      split; [done|]. split; [done|]. by apply sublist_app.
    + exists (f1 ++ f1'), (f2 ++ f2'). rewrite Hf1', Hf2', Hf1, Hf2, <- !app_assoc.
      split; [done|]. split; [done|]. by apply sublist_app.
Qed.


End FileBackupFacts.



(* ===================================================================== *)
(** * The backup of a database *)
(* ===================================================================== *)

Section DatabaseBackupFacts.
Import Reconciler DatabaseBackup.

Variable fault : Stmt -> option string.
Variable rowsOf : string -> list Obj.
Variable columnsOf : string -> string + list Column.
Variable fetchFault : string -> nat -> option string.

Local Abbreviation pages := (pageLoop fault rowsOf fetchFault).
Local Abbreviation zero := {| totalInserted := 0; totalUpdated := 0 |}.
Local Abbreviation fresh table := {| mirror := table; insertedSoFar := 0; skippedSoFar := 0 |}.

(** A row changes the counters by amounts that depend on the mirror only,
    and only appends to the mirror. *)
Lemma processRow_delta bt cn hasId (table : list StoredRow) (row : Obj) :
  exists (added : list StoredRow) (ds : nat),
    (length added <= 1)%nat /\
    forall a b,
      processRow fault bt cn hasId
        {| mirror := table; insertedSoFar := a; skippedSoFar := b |} row
      = {| mirror := table ++ added; insertedSoFar := a + length added;
           skippedSoFar := b + ds |}.
Proof.
  unfold processRow, onRowError. cbn [mirror insertedSoFar skippedSoFar].
  destruct (queryRaw fault _ table) as [message | existing].
  { destruct (isDuplicateError message).
    - exists [], 1%nat. split; [cbn; lia|]. intros a b. rewrite app_nil_r. cbn.
      f_equal; lia.
    - exists [], 0%nat. split; [cbn; lia|]. intros a b. rewrite app_nil_r. cbn.
      f_equal; lia. }
  destruct (0 <? length existing)%nat.
  { exists [], 1%nat. split; [cbn; lia|]. intros a b. rewrite app_nil_r. cbn.
    f_equal; lia. }
  unfold executeRaw, insertQuery. destruct (fault (InsertInto _ _ _)) as [message|].
  { destruct (isDuplicateError message).
    - exists [], 1%nat. split; [cbn; lia|]. intros a b. rewrite app_nil_r. cbn.
      f_equal; lia.
    - exists [], 0%nat. split; [cbn; lia|]. intros a b. rewrite app_nil_r. cbn.
      f_equal; lia. }
  eexists [_], 0%nat. split; [cbn; lia|]. intros a b. cbn. f_equal; lia.
Qed.

Lemma processRows_delta (tableName : string) (columns : list Column) (data : list Obj) :
  forall table : list StoredRow,
  exists (added : list StoredRow) (ds : nat),
    forall a b,
      processRows fault tableName columns
        {| mirror := table; insertedSoFar := a; skippedSoFar := b |} data
      = {| mirror := table ++ added; insertedSoFar := a + length added;
           skippedSoFar := b + ds |}.
Proof.
  unfold processRows. induction data as [|row data IH]; intros table.
  - exists [], 0%nat. intros a b. rewrite app_nil_r. cbn. f_equal; lia.
  - destruct (processRow_delta ("backup_" ++ tableName)
                (map (fun col => Js.sanitize (name col)) columns) (hasIdColumn columns)
                table row) as (added1 & ds1 & _ & H1).
    destruct (IH (table ++ added1)) as (added2 & ds2 & H2).
    exists (added1 ++ added2), (ds1 + ds2)%nat. intros a b. cbn [foldl].
    rewrite H1, H2, length_app, <- app_assoc. f_equal; lia.
Qed.

(** The rows of two pages, one after the other, are processed as the rows
    of both. *)
Lemma processRows_app (tableName : string) (columns : list Column)
    (table : list StoredRow) (first rest : list Obj) :
  let one := processRows fault tableName columns (fresh table) first in
  let two := processRows fault tableName columns (fresh (mirror one)) rest in
  processRows fault tableName columns (fresh table) (first ++ rest)
  = {| mirror := mirror two;
       insertedSoFar := insertedSoFar one + insertedSoFar two;
       skippedSoFar := skippedSoFar one + skippedSoFar two |}.
Proof.
  intros one two. unfold processRows at 1. rewrite foldl_app.
  fold (processRows fault tableName columns (fresh table) first). fold one.
  fold (processRows fault tableName columns one rest).
  destruct (processRows_delta tableName columns rest (mirror one)) as (added & ds & H).
  unfold two. rewrite (H 0%nat 0%nat). cbn [mirror insertedSoFar skippedSoFar].
  destruct one as [m i s]. rewrite H. cbn. f_equal; lia.
Qed.

Lemma upsert_rows (tableName : string) (columns : list Column) (table : list StoredRow)
    (data : list Obj) (created : bool) :
  createTableIfNotExists fault tableName columns table = inr created ->
  data <> [] ->
  let st := processRows fault tableName columns (fresh table) data in
  upsertTableData fault tableName data columns table
  = (mirror st, inr {| inserted := insertedSoFar st; skipped := skippedSoFar st |}).
Proof.
  intros Hc Hdata. unfold upsertTableData. rewrite Hc.
  rewrite bool_decide_eq_false_2; [done|]. by destruct data.
Qed.

Lemma page_data (rows : list Obj) (page : nat) :
  (1 <= page)%nat ->
  getTableDataPaginated rows page limit
  = inr {| data := take limit (drop ((page - 1) * limit) rows); total := length rows;
           page := page; pageLimit := limit;
           totalPages := ceilDiv (length rows) limit |}.
Proof.
  intros Hp. unfold getTableDataPaginated. destruct page; [lia|]. done.
Qed.

Lemma pages_read (tableName : string) (columns : list Column) :
  (forall page, fetchFault tableName page = None) ->
  (forall table, exists created,
     createTableIfNotExists fault tableName columns table = inr created) ->
  forall (fuel page : nat) (table : list StoredRow) (totals : Totals),
    (1 <= page)%nat ->
    (length (drop ((page - 1) * limit) (rowsOf tableName)) < fuel)%nat ->
    let st := processRows fault tableName columns (fresh table)
                (drop ((page - 1) * limit) (rowsOf tableName)) in
    pages fuel tableName columns page table totals
    = Some (mirror st,
            inr {| totalInserted := totalInserted totals + insertedSoFar st;
                   totalUpdated := totalUpdated totals + skippedSoFar st |}).
Proof.
  intros Hfetch Hcreate. induction fuel as [|fuel IH]; intros page table totals Hp Hlen st;
    [lia|].
  cbn [pageLoop]. rewrite Hfetch, page_data by done. cbn [data].
  set (rest := drop ((page - 1) * limit) (rowsOf tableName)) in *.
  destruct (Nat.eqb_spec (length (take limit rest)) 0) as [Hnil | Hsome].
  { assert (rest = []) as Hrest.
    { destruct rest; [done|]. cbn in Hnil. lia. }
    unfold st. rewrite Hrest. cbn. destruct totals as [i u]. cbn.
    by rewrite !Nat.add_0_r. }
  destruct (Hcreate table) as [c Hc].
  rewrite (upsert_rows tableName columns table (take limit rest) c Hc)
    by (intros E; by rewrite E in Hsome).
  cbn zeta. destruct (Nat.ltb_spec (length (take limit rest)) limit) as [Hlast | Hfull].
  { assert (take limit rest = rest) as Hall.
    { apply take_ge. rewrite length_take in Hlast. lia. }
    rewrite Hall. done. }
  rewrite IH; [|lia|].
  2:{ replace (S page - 1)%nat with (S (page - 1)) by lia.
      replace (S (page - 1) * limit)%nat with ((page - 1) * limit + limit)%nat by lia.
      rewrite <- drop_drop. fold rest.
      rewrite length_drop. rewrite length_take in Hfull. unfold limit in *. lia. }
  replace (S page - 1)%nat with (S (page - 1)) by lia.
  replace (S (page - 1) * limit)%nat with ((page - 1) * limit + limit)%nat by lia.
  rewrite <- drop_drop. fold rest.
  pose proof (processRows_app tableName columns table (take limit rest) (drop limit rest))
    as Happ.
  cbn zeta in Happ. rewrite take_drop in Happ. unfold st. rewrite Happ.
  cbn [mirror insertedSoFar skippedSoFar totalInserted totalUpdated inserted skipped].
  do 4 f_equal; lia.
Qed.

(** X20: reading a table page by page changes nothing.  When every page
    can be read, the page loop of [backupDatabase] on a table that has
    rows ends, having left the mirror and counted the rows as one call of
    [upsertTableData] on all rows of the table does, and it fails as that
    call fails.  For a table without rows it reads one page and returns
    without a statement to the local database. *)
Theorem paging_is_transparent (tableName : string) (columns : list Column)
    (table : list StoredRow) (more : nat) :
  (forall page, fetchFault tableName page = None) ->
  pages (S (length (rowsOf tableName)) + more) tableName columns 1 table zero
  = Some (match rowsOf tableName with
          | [] => (table, inr zero)
          | _ => asTotals (upsertTableData fault tableName (rowsOf tableName) columns table)
          end).
Proof.
  intros Hfetch.
  destruct (createTableIfNotExists fault tableName columns table) as [message | created]
    eqn:Hc.
  - cbn [Nat.add pageLoop]. rewrite Hfetch, page_data by done. cbn [data].
    change ((1 - 1) * limit)%nat with 0%nat. rewrite drop_0.
    destruct (rowsOf tableName) as [|row rows] eqn:Hrows; [done|].
    change (length (take limit (row :: rows)) =? 0)%nat with false.
    unfold upsertTableData. rewrite Hc. done.
  - rewrite (pages_read tableName columns Hfetch); [| |lia|].
    + change ((1 - 1) * limit)%nat with 0%nat. rewrite drop_0.
      destruct (rowsOf tableName) as [|row rows] eqn:Hrows; [done|].
      rewrite (upsert_rows tableName columns table (row :: rows) created Hc) by done.
      done.
    + intros table'. by eapply createTable_again.
    + change ((1 - 1) * limit)%nat with 0%nat. rewrite drop_0. lia.
Qed.

Local Abbreviation tableStep := (backupTable fault rowsOf columnsOf fetchFault).
Local Abbreviation tables := (backupTables fault rowsOf columnsOf fetchFault).

Lemma upsert_grows (tableName : string) (columns : list Column) (table : list StoredRow)
    (data : list Obj) :
  exists added : list StoredRow,
    (upsertTableData fault tableName data columns table).1 = table ++ added /\
    forall r, (upsertTableData fault tableName data columns table).2 = inr r ->
              inserted r = length added.
Proof.
  unfold upsertTableData.
  destruct (createTableIfNotExists fault tableName columns table) as [message | created].
  { exists []. rewrite app_nil_r. done. }
  destruct (bool_decide (length data = 0%nat)).
  { exists []. rewrite app_nil_r. split; [done|]. by intros r [= <-]. }
  destruct (processRows_delta tableName columns data table) as (added & ds & H).
  exists added. rewrite (H 0%nat 0%nat). cbn. split; [done|]. by intros r [= <-].
Qed.

(** The page loop returns when it may read one page more than the table
    has rows, and what it leaves is the mirror with the rows it inserted;
    when it returns totals, they count these rows. *)
Lemma pages_grow (tableName : string) (columns : list Column) :
  forall (fuel page : nat) (table : list StoredRow) (totals : Totals),
    (1 <= page)%nat ->
    (length (drop ((page - 1) * limit) (rowsOf tableName)) < fuel)%nat ->
    exists (added : list StoredRow) (result : string + Totals),
      pages fuel tableName columns page table totals = Some (table ++ added, result) /\
      forall totals', result = inr totals' ->
                      totalInserted totals' = (totalInserted totals + length added)%nat.
Proof.
  induction fuel as [|fuel IH]; intros page table totals Hp Hlen; [lia|].
  cbn [pageLoop]. destruct (fetchFault tableName page) as [message|].
  { exists [], (inl message). rewrite app_nil_r. done. }
  rewrite page_data by done. cbn [data].
  set (rest := drop ((page - 1) * limit) (rowsOf tableName)) in *.
  destruct (length (take limit rest) =? 0)%nat.
  { exists [], (inr totals). rewrite app_nil_r. split; [done|].
    intros ? [= <-]. cbn. lia. }
  destruct (upsert_grows tableName columns table (take limit rest)) as (added & Ht & Hr).
  destruct (upsertTableData fault tableName (take limit rest) columns table)
    as [table' [message | result]]; cbn [fst snd] in Ht, Hr; subst table'.
  { by exists added, (inl message). }
  specialize (Hr result eq_refl). cbn zeta.
  destruct (Nat.ltb_spec (length (take limit rest)) limit) as [Hlast | Hfull].
  { eexists added, (inr _). split; [done|]. intros ? [= <-]. cbn. lia. }
  destruct (IH (S page) (table ++ added)
              {| totalInserted := totalInserted totals + inserted result;
                 totalUpdated := totalUpdated totals + skipped result |})
    as (added' & result' & Hloop & Hcount); [lia| |].
  { replace (S page - 1)%nat with (S (page - 1)) by lia.
    replace (S (page - 1) * limit)%nat with ((page - 1) * limit + limit)%nat by lia.
    rewrite <- drop_drop. fold rest.
    rewrite length_drop. rewrite length_take in Hfull. unfold limit in *. lia. }
  exists (added ++ added'), result'. rewrite Hloop, <- app_assoc. split; [done|].
  intros totals' Hres. rewrite (Hcount totals' Hres), length_app. cbn. lia.
Qed.

(** One table: it is processed or its failure is recorded, and only its
    mirror changes, by the rows inserted. *)
Lemma backupTable_accounts (fuel : nat) (st : State) (tableName : string) :
  (length (rowsOf tableName) < fuel)%nat ->
  exists (st' : State) (added : list StoredRow) (failed : list TableError),
    tableStep fuel st tableName = Some st' /\
    mirrors st' tableName = mirrors st tableName ++ added /\
    (forall t, t <> tableName -> mirrors st' t = mirrors st t) /\
    totalTables (results st') = totalTables (results st) /\
    errors (results st') = errors (results st) ++ failed /\
    errorTable <$> failed = (if bool_decide (failed = []) then [] else [tableName]) /\
    (processedTables (results st') + length failed
     = S (processedTables (results st)))%nat /\
    (length (manualCommands (results st')) + length failed
     = S (length (manualCommands (results st))))%nat /\
    (insertedRecords (results st')
     = insertedRecords (results st) + (if bool_decide (failed = []) then length added else 0))%nat.
Proof.
  intros Hfuel. unfold backupTable.
  destruct (columnsOf tableName) as [message | columns].
  { eexists _, [], [_]. split; [done|]. cbn. rewrite app_nil_r.
    repeat split; try done; lia. }
  destruct (pages_grow tableName columns fuel 1 (mirrors st tableName) zero)
    as (added & result & Hloop & Hcount); [lia| |].
  { change ((1 - 1) * limit)%nat with 0%nat. by rewrite drop_0. }
  rewrite Hloop. destruct result as [message | totals].
  - eexists _, added, [_]. split; [done|]. cbn. unfold setMirror.
    rewrite decide_True by done. split; [done|].
    split; [intros t Ht; by rewrite decide_False by done|].
    repeat split; try done; lia.
  - eexists _, added, []. split; [done|]. cbn. unfold setMirror.
    rewrite decide_True by done. split; [done|].
    split; [intros t Ht; by rewrite decide_False by done|].
    rewrite app_nil_r, length_app, (Hcount totals eq_refl). cbn.
    repeat split; try done; lia.
Qed.

Lemma grown_ext (m1 m2 m' : string -> list StoredRow) (ts : list string) :
  (forall t, t ∈ ts -> m1 t = m2 t) -> grown m1 m' ts = grown m2 m' ts.
Proof.
  intros H. unfold grown. f_equal. apply list_fmap_ext. intros i t Ht.
  rewrite H; [done|]. by eapply list_elem_of_lookup_2.
Qed.

Lemma backupTables_accounts (fuel : nat) (tableNames : list string) :
  NoDup tableNames ->
  (forall t, t ∈ tableNames -> (length (rowsOf t) < fuel)%nat) ->
  forall st : State,
  exists (st' : State) (failed : list TableError),
    tables fuel st tableNames = Some st' /\
    (forall t, mirrors st t `prefix_of` mirrors st' t) /\
    (forall t, t ∉ tableNames -> mirrors st' t = mirrors st t) /\
    totalTables (results st') = totalTables (results st) /\
    errors (results st') = errors (results st) ++ failed /\
    errorTable <$> failed `sublist_of` tableNames /\
    (processedTables (results st') + length failed
     = processedTables (results st) + length tableNames)%nat /\
    (length (manualCommands (results st')) + length failed
     = length (manualCommands (results st)) + length tableNames)%nat /\
    (insertedRecords (results st')
     <= insertedRecords (results st) + grown (mirrors st) (mirrors st') tableNames)%nat /\
    (failed = [] ->
     insertedRecords (results st')
     = insertedRecords (results st) + grown (mirrors st) (mirrors st') tableNames)%nat.
Proof.
  induction tableNames as [|t ts IH]; intros Hnd Hfuel st.
  - exists st, []. cbn. rewrite app_nil_r. unfold grown. cbn.
    repeat split; try done; lia.
  - apply NoDup_cons in Hnd as [Ht Hnd].
    destruct (backupTable_accounts fuel st t) as
      (st1 & added & failed1 & Hstep & Hmirror & Hframe & Htotal & Herrors & Hnames
       & Hprocessed & Hmanual & Hinserted).
    { apply Hfuel. left. }
    destruct (IH Hnd (fun u Hu => Hfuel u ltac:(by right)) st1) as
      (st' & failed & Hloop & Hprefix & Hframe' & Htotal' & Herrors' & Hnames'
       & Hprocessed' & Hmanual' & Hle & Heq).
    exists st', (failed1 ++ failed). cbn [backupTables]. rewrite Hstep.
    split; [done|].
    assert (grown (mirrors st) (mirrors st') (t :: ts)
            = (length added + grown (mirrors st1) (mirrors st') ts)%nat) as Hgrown.
    { unfold grown at 1. rewrite fmap_cons. cbn [sum_list_with].
      fold (grown (mirrors st) (mirrors st') ts).
      rewrite (Hframe' t Ht), Hmirror, length_app.
      rewrite (grown_ext (mirrors st) (mirrors st1) (mirrors st') ts).
      - unfold id. lia.
      - intros u Hu. symmetry. apply Hframe. by intros ->. }
    split.
    { intros u. etrans; [|apply Hprefix].
      destruct (decide (u = t)) as [-> | Hne].
      - rewrite Hmirror. by apply prefix_app_r.
      - by rewrite Hframe. }
    split.
    { intros u Hu. apply not_elem_of_cons in Hu as [Hne Hu].
      by rewrite Hframe', Hframe. }
    split; [congruence|]. split; [by rewrite Herrors', Herrors, <- app_assoc|].
    split.
    { rewrite fmap_app, Hnames. destruct (bool_decide (failed1 = [])).
      - by apply sublist_cons.
      - by apply (sublist_skip t). }
    rewrite length_app. cbn [length]. split; [lia|]. split; [lia|].
    rewrite Hgrown. split.
    { rewrite Hinserted in Hle. destruct (bool_decide (failed1 = [])); lia. }
    intros [-> ->]%app_eq_nil. rewrite Heq, Hinserted by done. cbn. lia.
Qed.

(** X21: the counters of a backup of a database.  With the page loop
    allowed one page more than a table has rows, [backupDatabase] returns.
    Every table is processed or listed in [errors], in the order of the
    tables, and has a manual command exactly when it is processed.  The
    mirrors only grow at their end, and only those of the tables given.
    [insertedRecords] never counts more rows than were added: a table
    that fails after some of its pages keeps the rows of these pages
    without their being counted; when no table fails the count is
    exact. *)
Theorem backup_database_accounts (fuel : nat) (before : string -> list StoredRow)
    (tableNames : list string) :
  NoDup tableNames ->
  (forall t, t ∈ tableNames -> (length (rowsOf t) < fuel)%nat) ->
  exists st : State,
    backupDatabase fault rowsOf columnsOf fetchFault fuel before tableNames = Some st /\
    totalTables (results st) = length tableNames /\
    (processedTables (results st) + length (errors (results st))
     = totalTables (results st))%nat /\
    length (manualCommands (results st)) = processedTables (results st) /\
    errorTable <$> errors (results st) `sublist_of` tableNames /\
    (forall t, before t `prefix_of` mirrors st t) /\
    (forall t, t ∉ tableNames -> mirrors st t = before t) /\
    (insertedRecords (results st) <= grown before (mirrors st) tableNames)%nat /\
    (errors (results st) = [] ->
     insertedRecords (results st) = grown before (mirrors st) tableNames).
Proof.
  intros Hnd Hfuel. unfold backupDatabase.
  destruct (backupTables_accounts fuel tableNames Hnd Hfuel
              {| mirrors := before;
                 results := {| totalTables := length tableNames; processedTables := 0;
                               insertedRecords := 0; skippedRecords := 0; errors := [];
                               manualCommands := [] |} |})
    as (st & failed & Hloop & Hprefix & Hframe & Htotal & Herrors & Hnames
        & Hprocessed & Hmanual & Hle & Heq).
  cbn in Hprefix, Hframe, Htotal, Herrors, Hprocessed, Hmanual, Hle, Heq.
  exists st. rewrite Herrors, Htotal. split; [done|]. split; [done|].
  split; [lia|]. split; [lia|]. split; [done|]. split; [done|]. split; [done|].
  split; [done|]. intros ->. by apply Heq.
Qed.

Lemma ceilDiv_bounds (total limit : nat) :
  (0 < limit)%nat ->
  (total <= ceilDiv total limit * limit)%nat /\
  (0 < total -> (ceilDiv total limit - 1) * limit < total)%nat /\
  (total = 0 -> ceilDiv total limit = 0)%nat.
Proof.
  intros Hl. unfold ceilDiv.
  pose proof (Nat.div_mod_eq (total + limit - 1) limit) as Hdm.
  pose proof (Nat.mod_upper_bound (total + limit - 1) limit ltac:(lia)) as Hm.
  split; [nia|]. split; [intros Ht; nia|].
  intros ->. apply Nat.div_small. lia.
Qed.

Lemma chunks_take (rows : list Obj) (limit n : nat) :
  mjoin ((fun p => limitOffset rows limit ((p - 1) * limit)) <$> seq 1 n)
  = take (n * limit) rows.
Proof.
  induction n as [|n IH]; [done|].
  rewrite seq_S, fmap_app, join_app, IH. cbn [fmap list_fmap mjoin list_join].
  rewrite app_nil_r. unfold limitOffset.
  replace (1 + n - 1)%nat with n by lia.
  rewrite take_take_drop. f_equal. lia.
Qed.

(** X22: the pages of a table cover it.  For a positive [limit] and every
    page from 1 on, [getTableDataPaginated] returns at most [limit] rows
    with the number of rows of the table and [totalPages], the least
    number of pages of [limit] rows that hold them all.  The pages 1 to
    [totalPages], one after the other, are the rows of the table, each row
    once; every page before the last is full, the last is not empty, and
    every page after it is empty. *)
Theorem pages_cover_table (rows : list Obj) (limit : nat) :
  (0 < limit)%nat ->
  let pages := ceilDiv (length rows) limit in
  let rowsOfPage p :=
    match getTableDataPaginated rows p limit with
    | inr result => data result
    | inl _ => []
    end in
  (forall p, (1 <= p)%nat ->
     exists result, getTableDataPaginated rows p limit = inr result /\
                    total result = length rows /\ totalPages result = pages /\
                    (length (data result) <= limit)%nat) /\
  (length rows <= pages * limit)%nat /\
  (0 < length rows -> (pages - 1) * limit < length rows)%nat /\
  mjoin (rowsOfPage <$> seq 1 pages) = rows /\
  (forall p, (1 <= p < pages)%nat -> length (rowsOfPage p) = limit) /\
  (0 < pages -> rowsOfPage pages <> [])%nat /\
  (forall p, (pages < p)%nat -> rowsOfPage p = []).
Proof.
  intros Hl pages rowsOfPage.
  destruct (ceilDiv_bounds (length rows) limit Hl) as (Hup & Hlow & Hzero). fold pages in Hup, Hlow, Hzero.
  assert (forall p, (1 <= p)%nat ->
            rowsOfPage p = limitOffset rows limit ((p - 1) * limit)) as Hpage.
  { intros p Hp. unfold rowsOfPage, getTableDataPaginated. destruct p; [lia|]. done. }
  split.
  { intros p Hp. unfold getTableDataPaginated. destruct p; [lia|]. cbn [Nat.eqb].
    eexists. split; [done|]. cbn. split; [done|]. split; [done|].
    unfold limitOffset. rewrite length_take. lia. }
  split; [done|]. split; [done|]. split.
  { transitivity (take (pages * limit) rows); [|by apply take_ge].
    rewrite <- chunks_take. f_equal. apply list_fmap_ext. intros i p Hp.
    apply Hpage. apply lookup_seq in Hp. lia. }
  split.
  { intros p Hp. rewrite Hpage by lia. unfold limitOffset.
    rewrite length_take, length_drop.
    assert (p * limit <= (pages - 1) * limit)%nat by nia.
    destruct (decide (0 < length rows)%nat) as [Hpos | Hnone]; [|lia].
    specialize (Hlow Hpos). nia. }
  split.
  { intros Hpos. rewrite Hpage by lia. unfold limitOffset.
    assert (0 < length rows)%nat as Hrows.
    { destruct (decide (0 < length rows)%nat); [done|]. rewrite Hzero in Hpos; lia. }
    specialize (Hlow Hrows). intros Hnil. apply (f_equal length) in Hnil.
    rewrite length_take, length_drop in Hnil. cbn in Hnil. lia. }
  intros p Hp. rewrite Hpage by lia. unfold limitOffset.
  rewrite drop_ge; [by rewrite take_nil|]. nia.
Qed.

End DatabaseBackupFacts.

Lemma paging_is_transparent_witness :
  DatabaseBackup.pageLoop Reconciler.noFault (fun _ => [Reconciler.widget "1" "a"])
    (fun _ _ => None) 2 "widgets" Reconciler.widgetColumns 1 []
    {| DatabaseBackup.totalInserted := 0; DatabaseBackup.totalUpdated := 0 |}
  = Some (DatabaseBackup.asTotals
            (Reconciler.upsertTableData Reconciler.noFault "widgets"
               [Reconciler.widget "1" "a"] Reconciler.widgetColumns [])).
Proof.
  exact (paging_is_transparent Reconciler.noFault (fun _ => [Reconciler.widget "1" "a"])
           (fun _ _ => None) "widgets" Reconciler.widgetColumns [] 0 (fun _ => eq_refl)).
Defined.

Lemma backup_database_accounts_witness :
  exists st : DatabaseBackup.State,
    DatabaseBackup.backupDatabase Reconciler.noFault (fun _ => [Reconciler.widget "1" "a"])
      (fun _ => inr Reconciler.widgetColumns) (fun _ _ => None) 2 (fun _ => [])
      ["widgets"%string] = Some st /\
    DatabaseBackup.totalTables (DatabaseBackup.results st) = 1%nat.
Proof.
  destruct (backup_database_accounts Reconciler.noFault
              (fun _ => [Reconciler.widget "1" "a"])
              (fun _ => inr Reconciler.widgetColumns) (fun _ _ => None) 2 (fun _ => [])
              ["widgets"%string] ltac:(apply NoDup_singleton)
              (fun _ _ => ltac:(simpl; lia)))
    as (st & Hst & Htotal & _).
  exists st. split; [exact Hst | exact Htotal].
Defined.

Lemma pages_cover_table_witness :
  let rows := [Reconciler.widget "1" "a"; Reconciler.widget "2" "b";
               Reconciler.widget "3" "c"] in
  DatabaseBackup.ceilDiv (length rows) 2 = 2%nat /\
  mjoin ((fun p => match DatabaseBackup.getTableDataPaginated rows p 2 with
                   | inr result => DatabaseBackup.data result
                   | inl _ => []
                   end) <$> seq 1 (DatabaseBackup.ceilDiv (length rows) 2)) = rows.
Proof.
  intros rows. split; [reflexivity|].
  exact (proj1 (proj2 (proj2 (proj2 (pages_cover_table rows 2 ltac:(lia)))))).
Defined.

(* ===================================================================== *)
(** * Deleting from the mirror tables *)
(* ===================================================================== *)

Section BackupDeletionFacts.
Import BackupDeletion.

Variable fault : Query -> option string.

Local Abbreviation outside start end_ := (fun row : Row => inRange start end_ row = false).
Local Abbreviation inside start end_ := (fun row : Row => inRange start end_ row = true).

Lemma range_split (start end_ : Z) (rows : list Row) :
  length rows
  = (length (filter (inside start end_) rows) + length (filter (outside start end_) rows))%nat.
Proof.
  induction rows as [|row rows IH]; [done|]. rewrite !filter_cons. cbn [length].
  destruct (inRange start end_ row); repeat case_decide; try done; cbn [length]; lia.
Qed.

Lemma outside_again (start end_ : Z) (rows : list Row) :
  filter (outside start end_) (filter (outside start end_) rows)
  = filter (outside start end_) rows /\
  filter (inside start end_) (filter (outside start end_) rows) = [].
Proof.
  induction rows as [|row rows [IH1 IH2]]; [done|]. rewrite filter_cons.
  destruct (inRange start end_ row) eqn:E.
  - rewrite decide_False by done. done.
  - rewrite decide_True by done. rewrite !filter_cons, IH1, IH2.
    rewrite decide_True by done. rewrite decide_False by (rewrite E; done). done.
Qed.

(** What [deleteRange] does to the database. *)
Lemma deleteRange_cases (table : string) (start end_ : Z) (guarded : bool) (db : Database) :
  let run := deleteRange fault table start end_ guarded db in
  (exists message, run = (db, inl message)) \/
  (exists rows, db !! table = Some rows /\
     run = (<[table := filter (outside start end_) rows]> db,
            inr (length (filter (inside start end_) rows)))).
Proof.
  unfold deleteRange. destruct (fault (CountRange _ _ _)) as [message|]; [left; eauto|].
  destruct (db !! table) as [rows|] eqn:E; [|left; eauto].
  destruct (guarded && negb (0 <? length (filter (inside start end_) rows))%nat) eqn:G.
  - right. exists rows. split; [done|].
    apply andb_prop in G as [_ G%negb_true_iff%Nat.ltb_ge].
    assert (filter (outside start end_) rows = rows) as ->.
    { pose proof (range_split start end_ rows) as Hs.
      assert (length (filter (outside start end_) rows) = length rows) as Hl by lia.
      clear -Hl. induction rows as [|row rows IH]; [done|].
      rewrite filter_cons in *. case_decide.
      - cbn [length] in Hl. f_equal. apply IH. lia.
      - pose proof (length_filter (outside start end_) rows). cbn [length] in Hl. lia. }
    by rewrite insert_id.
  - destruct (fault (DeleteRange _ _ _)) as [message|]; [left; eauto|].
    right. exists rows. done.
Qed.

(** X23: [deleteBackupByDateRange] deletes the rows of the range, both
    ends included, and counts them.  A call that fails leaves the database
    as it was.  For dates with the start not after the end, a start equal
    to the end included, on a database that rejects nothing, the call
    returns the number of rows it deleted; the rows outside the range stay,
    in their order, and the other tables are untouched; a second call with
    the same dates deletes nothing and returns 0. *)
Theorem delete_by_date_range (tableName : string) (startDate endDate : option Z)
    (db : Database) :
  let table := ("backup_" ++ tableName)%string in
  let run := deleteBackupByDateRange fault tableName startDate endDate db in
  (forall message, run.2 = inl message -> run.1 = db) /\
  (forall start end_ rows,
     startDate = Some start -> endDate = Some end_ -> start <= end_ ->
     db !! table = Some rows ->
     (forall q, fault q = None) ->
     let kept := filter (outside start end_) rows in
     run = (<[table := kept]> db,
            inr {| deletedCount := length rows - length kept;
                   startDate := start; endDate := end_ |}) /\
     kept `sublist_of` rows /\
     (forall row, row ∈ kept <->
        row ∈ rows /\ ~ (start <= backup_created_at row <= end_)) /\
     deleteBackupByDateRange fault tableName startDate endDate run.1
     = (run.1, inr {| deletedCount := 0; startDate := start; endDate := end_ |})).
Proof.
  intros table run. split.
  - intros message. unfold run, deleteBackupByDateRange. fold table.
    destruct (fault (TableExists table)); [done|].
    destruct (negb _); [done|].
    destruct (validDates startDate endDate) as [m | [start end_]]; [done|].
    destruct (deleteRange_cases table start end_ false db) as [[m ->] | (rows & _ & ->)];
      done.
  - intros start end_ rows -> -> Hle Hrows Hfault kept.
    assert (forall db0 rows0, db0 !! table = Some rows0 ->
              deleteBackupByDateRange fault tableName (Some start) (Some end_) db0
              = (<[table := filter (outside start end_) rows0]> db0,
                 inr {| deletedCount := length (filter (inside start end_) rows0);
                        startDate := start; endDate := end_ |})) as Hrun.
    { intros db0 rows0 H0. unfold deleteBackupByDateRange. fold table.
      rewrite Hfault, H0. rewrite bool_decide_eq_true_2 by done. cbn [negb validDates].
      destruct (Z.ltb_spec end_ start) as [? | _]; [lia|].
      unfold deleteRange. rewrite !Hfault, H0. done. }
    unfold run. rewrite (Hrun db rows Hrows). cbn [fst]. split; [|split; [|split]].
    + fold kept. do 3 f_equal. pose proof (range_split start end_ rows). fold kept in H. lia.
    + apply sublist_filter.
    + intros row. unfold kept. rewrite list_elem_of_filter. unfold inRange.
      rewrite andb_false_iff, !Z.leb_gt. split.
      * intros [Hout Hin]. split; [done | lia].
      * intros [Hin Hout]. split; [lia | done].
    + rewrite (Hrun _ kept) by apply lookup_insert_eq. unfold kept.
      destruct (outside_again start end_ rows) as [-> ->].
      by rewrite insert_insert_eq.
Qed.

Lemma rowCount_ext (db1 db2 : Database) (ts : list string) :
  (forall t, t ∈ ts -> db1 !! t = db2 !! t) -> rowCount db1 ts = rowCount db2 ts.
Proof.
  intros H. unfold rowCount. f_equal. apply list_fmap_ext. intros i t Ht.
  rewrite H; [done|]. by eapply list_elem_of_lookup_2.
Qed.

Local Ltac members :=
  intros;
  repeat match goal with
         | H : _ ∈ [] |- _ => by apply elem_of_nil in H
         | H : _ ∈ [_] |- _ => apply list_elem_of_singleton in H; subst
         end;
  try done; try lia.

(** One table of the loop: it is left alone and listed in [errors], or its
    rows of the range are deleted and counted. *)
Lemma deleteFromTable_accounts (start end_ : Z) (db : Database) (r : RangeResults)
    (t : string) :
  exists (db' : Database) (r' : RangeResults) (details : list TableDetail)
         (failed : list TableError),
    deleteFromTable fault start end_ (db, r) t = (db', r') /\
    (forall u, u <> t -> db' !! u = db !! u) /\
    (db' !! t = if bool_decide (failed = []) then filter (outside start end_) <$> db !! t
                else db !! t) /\
    (failed = [] -> is_Some (db !! t)) /\
    (totalDeletedRecords r' + length (default [] (db' !! t))
     = totalDeletedRecords r + length (default [] (db !! t)))%nat /\
    totalTables r' = totalTables r /\ resultStart r' = resultStart r /\
    resultEnd r' = resultEnd r /\
    tableDetails r' = tableDetails r ++ details /\
    errors r' = errors r ++ failed /\
    processedTables r' = (processedTables r + length details)%nat /\
    (length details + length failed <= 1)%nat /\
    (forall d, d ∈ details -> detailTable d = t /\ (0 < detailCount d)%nat) /\
    (forall e, e ∈ failed -> errorTable e = t).
Proof.
  unfold deleteFromTable.
  destruct (deleteRange_cases t start end_ true db) as [[m ->] | (rows & Hrows & ->)].
  - eexists db, _, [], [_]. split; [done|]. cbn. rewrite app_nil_r.
    repeat split; members.
  - pose proof (range_split start end_ rows) as Hsplit.
    destruct (0 <? length (filter (inside start end_) rows))%nat eqn:G.
    + eexists _, _, [_], []. split; [done|]. cbn. rewrite app_nil_r, lookup_insert_eq, Hrows.
      cbn. split; [intros u Hu; by rewrite lookup_insert_ne|].
      apply Nat.ltb_lt in G. repeat split; members.
    + eexists _, r, [], []. split; [done|]. cbn. rewrite !app_nil_r, lookup_insert_eq, Hrows.
      cbn. split; [intros u Hu; by rewrite lookup_insert_ne|].
      apply Nat.ltb_ge in G. repeat split; members.
Qed.

Lemma deleteFromTables_accounts (start end_ : Z) (ts : list string) :
  NoDup ts ->
  forall (db : Database) (r : RangeResults),
  exists (db' : Database) (r' : RangeResults) (details : list TableDetail)
         (failed : list TableError),
    foldl (deleteFromTable fault start end_) (db, r) ts = (db', r') /\
    (forall u, u ∉ ts -> db' !! u = db !! u) /\
    (forall t, t ∈ ts ->
       db' !! t = if bool_decide (t ∈ errorTable <$> failed) then db !! t
                  else filter (outside start end_) <$> db !! t) /\
    (forall t, t ∈ ts -> t ∉ errorTable <$> failed -> is_Some (db !! t)) /\
    (totalDeletedRecords r' + rowCount db' ts = totalDeletedRecords r + rowCount db ts)%nat /\
    totalTables r' = totalTables r /\ resultStart r' = resultStart r /\
    resultEnd r' = resultEnd r /\
    tableDetails r' = tableDetails r ++ details /\
    errors r' = errors r ++ failed /\
    processedTables r' = (processedTables r + length details)%nat /\
    detailTable <$> details `sublist_of` ts /\
    errorTable <$> failed `sublist_of` ts /\
    (forall d, d ∈ details -> (0 < detailCount d)%nat).
Proof.
  induction ts as [|t ts IH]; intros Hnd db r.
  - exists db, r, [], []. cbn. rewrite !app_nil_r. unfold rowCount. cbn.
    repeat split; members.
  - apply NoDup_cons in Hnd as [Ht Hnd].
    destruct (deleteFromTable_accounts start end_ db r t)
      as (db1 & r1 & details1 & failed1 & Hstep & Hframe1 & Ht1 & Hsome1 & Hcount1 & Htot1
          & Hs1 & He1 & Hd1 & Hf1 & Hp1 & Hone & Hdet1 & Herr1).
    destruct (IH Hnd db1 r1)
      as (db' & r' & details & failed & Hloop & Hframe & Hts & Hsome & Hcount & Htot & Hs
          & He & Hd & Hf & Hp & Hsubd & Hsubf & Hpos).
    exists db', r', (details1 ++ details), (failed1 ++ failed). cbn [foldl].
    rewrite Hstep. split; [done|].
    assert (forall u, u ∈ ts -> u <> t) as Hne by (intros u Hu ->; done).
    assert (t ∉ errorTable <$> failed) as Htf.
    { intros Hin. apply Ht. by eapply elem_of_sublist. }
    assert (forall u, u ∈ ts -> u ∉ errorTable <$> failed1) as Huf.
    { intros u Hu (e & -> & He1')%list_elem_of_fmap. apply (Hne _ Hu). by apply Herr1. }
    split.
    { intros u [Hu1 Hu2]%not_elem_of_cons. by rewrite Hframe, Hframe1. }
    split.
    { intros u [-> | Hu]%elem_of_cons.
      - rewrite (Hframe t Ht), Ht1. rewrite fmap_app.
        destruct failed1 as [|e1 failed1].
        + rewrite bool_decide_eq_true_2 by done. cbn [fmap list_fmap app].
          by rewrite bool_decide_eq_false_2.
        + rewrite bool_decide_eq_false_2 by done.
          rewrite bool_decide_eq_true_2; [done|].
          apply elem_of_app. left. rewrite fmap_cons. apply elem_of_cons. left.
          symmetry. apply Herr1. left.
      - rewrite (Hts u Hu), (Hframe1 u (Hne u Hu)). rewrite fmap_app.
        destruct (bool_decide_reflect (u ∈ errorTable <$> failed)) as [Hin | Hout].
        + rewrite bool_decide_eq_true_2; [done|]. apply elem_of_app. by right.
        + rewrite bool_decide_eq_false_2; [done|].
          intros [Hin | Hin]%elem_of_app; [by apply (Huf u Hu) | done]. }
    split.
    { intros u [-> | Hu]%elem_of_cons Hout.
      - apply Hsome1. destruct failed1 as [|e1 failed1]; [done|]. exfalso. apply Hout.
        rewrite fmap_app, fmap_cons. apply elem_of_app. left. apply elem_of_cons. left.
        symmetry. apply Herr1. left.
      - rewrite <- (Hframe1 u (Hne u Hu)). apply (Hsome u Hu).
        intros Hin. apply Hout. rewrite fmap_app. apply elem_of_app. by right. }
    split.
    { assert (forall d : Database,
                rowCount d (t :: ts)
                = (length (default [] (d !! t)) + rowCount d ts)%nat) as Hcons.
      { intros d. unfold rowCount. by rewrite fmap_cons. }
      rewrite !Hcons, (Hframe t Ht).
      rewrite (rowCount_ext db db1 ts) by (intros u Hu; symmetry; by apply Hframe1, Hne).
      lia. }
    split; [congruence|]. split; [congruence|]. split; [congruence|].
    split; [by rewrite Hd, Hd1, <- app_assoc|].
    split; [by rewrite Hf, Hf1, <- app_assoc|].
    split; [rewrite Hp, Hp1, length_app; lia|].
    split.
    { rewrite fmap_app. destruct details1 as [|d1 [|d2 details1]].
      - by apply sublist_cons.
      - cbn [fmap list_fmap app]. rewrite (proj1 (Hdet1 d1 ltac:(left))).
        by apply sublist_skip.
      - cbn [length] in Hone. lia. }
    split.
    { rewrite fmap_app. destruct failed1 as [|e1 [|e2 failed1]].
      - by apply sublist_cons.
      - cbn [fmap list_fmap app]. rewrite (Herr1 e1 ltac:(left)).
        by apply sublist_skip.
      - cbn [length] in Hone. lia. }
    intros d [Hd' | Hd']%elem_of_app; [by apply Hdet1 | by apply Hpos].
Qed.

(** X24: [deleteAllBackupTablesByDateRange] counts what it deletes.  For
    valid dates with the start not after the end and a list of distinct
    tables, the call returns.  A table listed in [errors] is left as it
    was; of every other table listed, the rows of the range are deleted
    and all others kept; the tables not listed are untouched.
    [totalDeletedRecords] is the number of rows by which the listed tables
    have shrunk, and [processedTables] counts the tables that had rows in
    the range, each with its detail. *)
Theorem delete_all_by_date_range (start end_ : Z) (tables : list string) (db : Database) :
  start <= end_ -> NoDup tables ->
  exists (db' : Database) (r : RangeResults),
    deleteAllBackupTablesByDateRange fault (Some start) (Some end_) (inr tables) db
    = (db', inr r) /\
    totalTables r = length tables /\ resultStart r = start /\ resultEnd r = end_ /\
    (forall u, u ∉ tables -> db' !! u = db !! u) /\
    (forall t, t ∈ tables ->
       db' !! t = if bool_decide (t ∈ errorTable <$> errors r) then db !! t
                  else filter (outside start end_) <$> db !! t) /\
    (forall t, t ∈ tables -> t ∉ errorTable <$> errors r -> is_Some (db !! t)) /\
    (totalDeletedRecords r + rowCount db' tables = rowCount db tables)%nat /\
    processedTables r = length (tableDetails r) /\
    detailTable <$> tableDetails r `sublist_of` tables /\
    errorTable <$> errors r `sublist_of` tables /\
    (forall d, d ∈ tableDetails r -> (0 < detailCount d)%nat).
Proof.
  intros Hle Hnd. unfold deleteAllBackupTablesByDateRange. cbn [validDates].
  destruct (Z.ltb_spec end_ start) as [? | _]; [lia|].
  destruct (deleteFromTables_accounts start end_ tables Hnd db
              {| totalTables := length tables; processedTables := 0;
                 totalDeletedRecords := 0; resultStart := start; resultEnd := end_;
                 tableDetails := []; errors := [] |})
    as (db' & r & details & failed & Hloop & Hframe & Hts & Hsome & Hcount & Htot & Hs
        & He & Hd & Hf & Hp & Hsubd & Hsubf & Hpos).
  cbn in Hcount, Htot, Hs, He, Hd, Hf, Hp. rewrite Hloop.
  exists db', r. rewrite Hd, Hf. repeat split; try done.
Qed.

(** X25: [deleteBackupById] deletes the rows with the given id and no
    other.  On a table that exists, with an id that [parseInt] reads as a
    number and a database that rejects nothing, it returns that id when
    the table holds a row with it and leaves the other rows in their
    order; when no row has the id it fails with
    [Record with id ... not found] and the database is as it was.  An id
    that is not a number fails before any row is touched. *)
Theorem delete_by_id (tableName idText : string) (recordId : option Z) (rows : list Row)
    (db : Database) :
  let table := ("backup_" ++ tableName)%string in
  let run := deleteBackupById fault tableName recordId idText db in
  db !! table = Some rows ->
  (forall q, fault q = None) ->
  match recordId with
  | None => run = (db, inl "Failed to delete backup record: Invalid ID format"%string)
  | Some n =>
    let kept := filter (fun row => id row <> n) rows in
    (forall u, u <> table -> run.1 !! u = db !! u) /\
    run.1 !! table = Some kept /\
    kept `sublist_of` rows /\
    (forall row, row ∈ kept <-> row ∈ rows /\ id row <> n) /\
    (n ∈ id <$> rows -> run.2 = inr n) /\
    (n ∉ id <$> rows ->
     run = (db, inl ("Failed to delete backup record: Record with id "
                     ++ idText ++ " not found")%string))
  end.
Proof.
  intros table run Hrows Hfault. unfold run, deleteBackupById. fold table.
  rewrite Hfault, Hrows. destruct recordId as [n|]; [|done]. rewrite Hfault.
  cbn zeta. set (kept := filter (fun row => id row <> n) rows).
  assert (forall result : list Row,
            (match result with
             | [] => (<[table := kept]> db,
                      inl ("Failed to delete backup record: Record with id "
                           ++ idText ++ " not found")%string)
             | first :: _ => (<[table := kept]> db, inr (id first))
             end : Database * (string + Z)).1 = <[table := kept]> db) as Hfst.
  { by intros [|? ?]. }
  rewrite Hfst. split; [intros u Hu; by rewrite lookup_insert_ne|].
  split; [apply lookup_insert_eq|]. split; [apply sublist_filter|].
  split; [intros row; unfold kept; rewrite list_elem_of_filter; tauto|].
  split.
  - intros Hin. apply list_elem_of_fmap in Hin as (row & -> & Hrow).
    destruct (filter (fun row0 => id row0 = id row) rows) as [|first result] eqn:E.
    + assert (row ∈ filter (fun row0 => id row0 = id row) rows) as Hf
        by (apply list_elem_of_filter; done).
      rewrite E in Hf. by apply elem_of_nil in Hf.
    + cbn. f_equal.
      assert (first ∈ filter (fun row0 => id row0 = id row) rows) as Hf
        by (rewrite E; left).
      by apply list_elem_of_filter in Hf as [? _].
  - intros Hout.
    assert (filter (fun row => id row = n) rows = []) as ->.
    { apply filter_none. intros row Hrow Hid. apply Hout, list_elem_of_fmap. eauto. }
    assert (kept = rows) as ->.
    { apply filter_all. intros row Hrow Hid. apply Hout, list_elem_of_fmap. eauto. }
    by rewrite insert_id.
Qed.

End BackupDeletionFacts.

Lemma delete_by_date_range_witness :
  let row n t := {| BackupDeletion.id := n; BackupDeletion.backup_created_at := t;
                    BackupDeletion.others := ∅ |} in
  let db : BackupDeletion.Database :=
    {[ "backup_widgets"%string := [row 1 5; row 2 10; row 3 20; row 4 25] ]} in
  BackupDeletion.deleteBackupByDateRange BackupDeletion.noFault "widgets" (Some 10) (Some 20) db
  = (<[ "backup_widgets"%string := [row 1 5; row 4 25] ]> db,
     inr {| BackupDeletion.deletedCount := 2; BackupDeletion.startDate := 10;
            BackupDeletion.endDate := 20 |}).
Proof.
  intros row db.
  exact (proj1 (proj2 (delete_by_date_range BackupDeletion.noFault "widgets"
                         (Some 10) (Some 20) db)
                 10 20 [row 1 5; row 2 10; row 3 20; row 4 25] eq_refl eq_refl
                 ltac:(lia) ltac:(apply lookup_singleton_eq) (fun _ => eq_refl))).
Defined.

Lemma delete_all_by_date_range_witness :
  let row n t := {| BackupDeletion.id := n; BackupDeletion.backup_created_at := t;
                    BackupDeletion.others := ∅ |} in
  let db : BackupDeletion.Database :=
    {[ "backup_widgets"%string := [row 1 5; row 2 10] ]} in
  exists (db' : BackupDeletion.Database) (r : BackupDeletion.RangeResults),
    BackupDeletion.deleteAllBackupTablesByDateRange BackupDeletion.noFault (Some 10) (Some 20)
      (inr ["backup_widgets"; "backup_gone"]%string) db = (db', inr r) /\
    BackupDeletion.totalTables r = 2%nat.
Proof.
  intros row db.
  destruct (delete_all_by_date_range BackupDeletion.noFault 10 20
              ["backup_widgets"; "backup_gone"]%string db ltac:(lia)
              ltac:(apply NoDup_cons; split;
                    [by intros ?%list_elem_of_singleton | apply NoDup_singleton]))
    as (db' & r & Hrun & Htotal & _).
  exists db', r. split; [exact Hrun | exact Htotal].
Defined.

Lemma delete_by_id_witness :
  let row n t := {| BackupDeletion.id := n; BackupDeletion.backup_created_at := t;
                    BackupDeletion.others := ∅ |} in
  let db : BackupDeletion.Database :=
    {[ "backup_widgets"%string := [row 1 5; row 2 10] ]} in
  (BackupDeletion.deleteBackupById BackupDeletion.noFault "widgets" (Some 2) "2" db).2
  = inr 2.
Proof.
  intros row db.
  apply (delete_by_id BackupDeletion.noFault "widgets" "2" (Some 2)
           [row 1 5; row 2 10] db ltac:(apply lookup_singleton_eq) (fun _ => eq_refl)).
  apply list_elem_of_fmap. exists (row 2 10). split; [reflexivity|].
  right. left.
Defined.

(* ===================================================================== *)
(** * The folder structure of a listing *)
(* ===================================================================== *)

Section OrganizeFacts.
Import FileCompare FileBackup Organize.

(** The files below the folders of a node. *)
Local Abbreviation below path folders :=
  (mjoin ((fun entry : string * Node => listing entry.2 (joinPath path entry.1))
          <$> folders)).

Lemma listing_node (files : list File) (folders : list (string * Node)) (path : string) :
  listing (mkNode files folders) path
  = ((fun file => (path, file)) <$> files) ++ below path folders.
Proof.
  cbn [listing]. f_equal.
  induction folders as [|[folderName sub] rest IH]; [done|].
  rewrite fmap_cons. cbn [mjoin list_join fst snd]. f_equal. exact IH.
Qed.

Lemma traverse_listing (node : Node) :
  forall (path : string) (m : FileMap),
    traverse node path m
    = foldl (fun m (entry : string * File) => addFile entry.1 m entry.2) m
            (listing node path).
Proof.
  revert node. fix IH 1. intros [files folders] path m.
  cbn [traverse listing]. rewrite foldl_app.
  assert (forall m0 : FileMap,
            foldl (addFile path) m0 files
            = foldl (fun m (entry : string * File) => addFile entry.1 m entry.2) m0
                    ((fun file => (path, file)) <$> files)) as Hfiles.
  { induction files as [|file files IHf]; intros m0; [done|]. cbn. apply IHf. }
  rewrite <- Hfiles. generalize (foldl (addFile path) m files). clear m Hfiles.
  induction folders as [|[folderName sub] rest IHrest]; intros m; [done|].
  rewrite foldl_app, <- IH. apply IHrest.
Qed.

Lemma addFile_keys (entries : list (string * File)) (m : FileMap) (k : string) :
  k ∈ (foldl (fun m (entry : string * File) => addFile entry.1 m entry.2) m entries).*1
  <-> k ∈ m.*1 \/ k ∈ flatKey <$> entries.
Proof.
  revert m. induction entries as [|entry entries IH]; intros m.
  - cbn. rewrite elem_of_nil. tauto.
  - cbn [foldl]. rewrite IH. unfold addFile at 1. rewrite mapSet_keys_elem.
    rewrite fmap_cons, elem_of_cons. unfold flatKey at 2. tauto.
Qed.

(** The keys of the flattened map are the keys of the files of the
    structure. *)
Lemma flattenFiles_keys (structure : Node) (k : string) :
  k ∈ (flattenFiles structure).*1 <-> k ∈ flatKey <$> listing structure "".
Proof.
  unfold flattenFiles. rewrite traverse_listing, addFile_keys. cbn.
  rewrite elem_of_nil. tauto.
Qed.

Lemma below_setFolder (path : string) (folders : list (string * Node)) (folderName : string)
    (sub sub' : Node) (added : list (string * File)) :
  getFolder folders folderName = Some sub ->
  listing sub' (joinPath path folderName)
    ≡ₚ listing sub (joinPath path folderName) ++ added ->
  below path (setFolder folders folderName sub') ≡ₚ below path folders ++ added.
Proof.
  intros Hget Hsub. induction folders as [|[name' node'] rest IH]; [done|].
  cbn [getFolder setFolder] in *. destruct (decide (folderName = name')) as [<- | Hne].
  - injection Hget as ->. rewrite !fmap_cons. cbn [mjoin list_join fst snd].
    rewrite Hsub. rewrite <- !app_assoc. apply Permutation_app_head, Permutation_app_comm.
  - rewrite !fmap_cons. cbn [mjoin list_join fst snd]. rewrite (IH Hget).
    by rewrite app_assoc.
Qed.

Lemma below_addFolder (path : string) (folders : list (string * Node)) (folderName : string)
    (sub' : Node) :
  below path (addFolder folders folderName sub')
    ≡ₚ below path folders ++ listing sub' (joinPath path folderName).
Proof.
  induction folders as [|[name' node'] rest IH].
  - cbn. by rewrite app_nil_r.
  - cbn [addFolder].
    assert (below path ((folderName, sub') :: (name', node') :: rest)
              ≡ₚ below path ((name', node') :: rest)
                 ++ listing sub' (joinPath path folderName)) as Hfront.
    { rewrite (fmap_cons _ (folderName, sub')). cbn [mjoin list_join fst snd].
      apply Permutation_app_comm. }
    assert (below path ((name', node') :: addFolder rest folderName sub')
              ≡ₚ below path ((name', node') :: rest)
                 ++ listing sub' (joinPath path folderName)) as Hlater.
    { rewrite !fmap_cons. cbn [mjoin list_join fst snd]. rewrite IH.
      by rewrite app_assoc. }
    destruct (arrayIndex folderName) as [n|], (arrayIndex name') as [n'|]; try done.
    by destruct (n <? n')%N.
Qed.

(** A file put into the structure is one more file of the structure, in
    the folder its folder names lead to. *)
Lemma insertInto_listing (folderNames : list string) (file : File) :
  forall (current node' : Node) (path : string),
    insertInto folderNames file current = inr node' ->
    listing node' path ≡ₚ listing current path ++ [(folderPath path folderNames, file)].
Proof.
  induction folderNames as [|folderName rest IH]; intros [files folders] node' path.
  - cbn [insertInto]. intros [= <-]. rewrite !listing_node, fmap_app. cbn.
    rewrite <- !app_assoc. apply Permutation_app_head, Permutation_app_comm.
  - cbn [insertInto]. destruct (getFolder folders folderName) as [sub|] eqn:Hget.
    + destruct (insertInto rest file sub) as [message | sub'] eqn:Hsub; [done|].
      intros [= <-]. rewrite !listing_node.
      rewrite (below_setFolder path folders folderName sub sub'
                 [(folderPath (joinPath path folderName) rest, file)] Hget (IH _ _ _ Hsub)).
      by rewrite app_assoc.
    + destruct (bool_decide (folderName ∈ inherited)); [done|].
      destruct (insertInto rest file emptyNode) as [message | sub'] eqn:Hsub; [done|].
      intros [= <-]. rewrite !listing_node, below_addFolder.
      rewrite (IH _ _ (joinPath path folderName) Hsub). cbn [listing emptyNode fmap list_fmap app].
      by rewrite app_assoc.
Qed.

Lemma insertInto_returns (folderNames : list string) (file : File) :
  Forall (fun folderName => folderName ∉ inherited) folderNames ->
  forall current : Node, exists node', insertInto folderNames file current = inr node'.
Proof.
  induction 1 as [|folderName rest Hname _ IH]; intros [files folders]; cbn [insertInto];
    [eauto|].
  destruct (getFolder folders folderName) as [sub|].
  - destruct (IH sub) as [sub' ->]. eauto.
  - rewrite bool_decide_eq_false_2 by done. destruct (IH emptyNode) as [sub' ->]. eauto.
Qed.

Lemma organizeFile_listing (folderStructure node' : Node) (file : File) :
  organizeFile folderStructure file = inr node' ->
  listing node' "" ≡ₚ listing folderStructure "" ++ [placed file].
Proof.
  unfold organizeFile, placed. destruct (listedKey file) as [k|]; [|done].
  change (default EmptyString (Some k)) with k.
  destruct (Nat.eqb_spec (length (partsOf k)) 1) as [Hone | Hmore].
  - destruct folderStructure as [files folders]. intros [= <-].
    destruct (partsOf k) as [|part [|? ?]]; try done. cbn [removelast folderPath foldl].
    rewrite !listing_node, fmap_app. cbn.
    rewrite <- !app_assoc. apply Permutation_app_head, Permutation_app_comm.
  - apply insertInto_listing.
Qed.

Lemma organizeFrom_listing (files : list File) :
  forall folderStructure structure : Node,
    organizeFrom folderStructure files = inr structure ->
    listing structure "" ≡ₚ listing folderStructure "" ++ (placed <$> files).
Proof.
  induction files as [|file files IH]; intros folderStructure structure.
  - cbn. intros [= <-]. by rewrite app_nil_r.
  - cbn [organizeFrom].
    destruct (organizeFile folderStructure file) as [message | node'] eqn:Hfile; [done|].
    intros Hrest. rewrite (IH _ _ Hrest), (organizeFile_listing _ _ _ Hfile).
    rewrite fmap_cons, <- app_assoc. done.
Qed.

Lemma organizeFrom_returns (files : list File) :
  Forall (fun file =>
            exists k, listedKey file = Some k /\
                      Forall (fun folderName => folderName ∉ inherited)
                             (removelast (partsOf k))) files ->
  forall folderStructure : Node,
    exists structure, organizeFrom folderStructure files = inr structure.
Proof.
  induction 1 as [|file files (k & Hk & Hparts) _ IH]; intros folderStructure;
    cbn [organizeFrom]; [eauto|].
  assert (exists node', organizeFile folderStructure file = inr node') as [node' ->].
  { unfold organizeFile. rewrite Hk. destruct (length (partsOf k) =? 1)%nat.
    - destruct folderStructure. eauto.
    - by apply insertInto_returns. }
  apply IH.
Qed.

Lemma organizeFrom_keys (files : list File) :
  forall folderStructure structure : Node,
    organizeFrom folderStructure files = inr structure ->
    Forall (fun file => is_Some (listedKey file)) files.
Proof.
  induction files as [|file files IH]; intros folderStructure structure; [done|].
  cbn [organizeFrom].
  destruct (organizeFile folderStructure file) as [message | node'] eqn:Hfile; [done|].
  intros Hrest. apply Forall_cons. split; [|by eapply IH].
  unfold organizeFile in Hfile. by destruct (listedKey file).
Qed.

(** Splitting at the slashes and joining again. *)
Lemma splitSlash_cons (s : string) : exists part parts, splitSlash s = part :: parts.
Proof.
  induction s as [|c s (part & parts & IH)]; cbn; [eauto|].
  destruct (Ascii.eqb c "/"); [eauto|]. rewrite IH. eauto.
Qed.

Lemma concat_cons (sep part : string) (parts : list string) :
  parts <> [] -> String.concat sep (part :: parts) = (part ++ sep ++ String.concat sep parts)%string.
Proof. by destruct parts. Qed.

Lemma concat_splitSlash (s : string) : String.concat "/" (splitSlash s) = s.
Proof.
  induction s as [|c s IH]; [done|]. cbn [splitSlash].
  destruct (splitSlash_cons s) as (part & parts & Hs).
  destruct (Ascii.eqb_spec c "/") as [-> | Hc].
  - rewrite concat_cons by (by rewrite Hs). by rewrite IH.
  - rewrite Hs in *. destruct parts as [|p parts].
    + cbn in *. by rewrite IH.
    + rewrite concat_cons in * by done. by rewrite <- IH.
Qed.

Lemma folderPath_concat (base : string) (parts : list string) :
  base <> EmptyString ->
  folderPath base parts = String.concat "/" (base :: parts).
Proof.
  revert base. induction parts as [|p parts IH]; intros base Hbase; [done|].
  unfold folderPath in *. cbn [foldl].
  assert (joinPath base p = (base ++ "/" ++ p)%string) as -> by (by destruct base).
  rewrite IH by (by destruct base).
  rewrite (concat_cons "/" base (p :: parts)) by done.
  destruct parts as [|q parts]; [done|].
  rewrite !concat_cons by done. by rewrite !string_app_assoc.
Qed.

Lemma partsOf_nonempty (k : string) : Forall (fun part => part <> EmptyString) (partsOf k).
Proof. apply Forall_forall. intros part Hpart. by apply list_elem_of_filter in Hpart as [? _]. Qed.

(** The key under which a listed file is found in the flattened map. *)
Lemma flatKey_placed (file : File) (k : string) :
  listedKey file = Some k -> flatKey (placed file) = normalKey k.
Proof.
  intros Hk. unfold placed, flatKey, normalKey. rewrite Hk.
  change (default EmptyString (Some k)) with k. cbn [fst snd].
  pose proof (partsOf_nonempty k) as Hparts.
  destruct (partsOf k) as [|p ps] eqn:E.
  - unfold nameOrKey, placedFile. rewrite E. cbn.
    unfold listedKey in Hk. destruct (key file); [|done].
    by destruct (name file).
  - unfold nameOrKey, placedFile. rewrite E. cbn [name key].
    assert (List.last (p :: ps) EmptyString <> EmptyString) as Hlast.
    { assert (List.last (p :: ps) EmptyString ∈ p :: ps) as Hin.
      { apply list_elem_of_In. destruct (exists_last (l := p :: ps) ltac:(done))
          as (l & x & Hl). rewrite Hl, last_last. apply in_or_app. right. by left. }
      by apply (proj1 (Forall_forall _ _) Hparts). }
    assert (Js.truthy (Some (List.last (p :: ps) EmptyString)) = true) as ->
      by (by destruct (List.last (p :: ps) EmptyString)).
    assert (joinPath (folderPath EmptyString (removelast (p :: ps)))
                     (List.last (p :: ps) EmptyString)
            = folderPath EmptyString (p :: ps)) as ->.
    { rewrite (app_removelast_last EmptyString (l := p :: ps)) at 3 by done.
      unfold folderPath. by rewrite foldl_app. }
    apply Forall_cons in Hparts as [Hp _].
    unfold folderPath. cbn [foldl]. assert (joinPath EmptyString p = p) as -> by done.
    by apply folderPath_concat.
Qed.

Lemma normalKey_clean (k : string) :
  Forall (fun part => part <> EmptyString) (splitSlash k) -> normalKey k = k.
Proof.
  intros Hclean. unfold normalKey, partsOf.
  rewrite filter_all by (intros part Hpart; by apply (proj1 (Forall_forall _ _) Hclean)).
  destruct (splitSlash_cons k) as (part & parts & Hs).
  pose proof (concat_splitSlash k) as Hc. by rewrite Hs in *.
Qed.

(** X26: [organizeFilesByFolder] loses no file and invents none.  It
    returns when every file has a key or a name and no folder of a key
    bears a name inherited from [Object.prototype].  When it returns, the
    files of the structure, each with the path of its folder, are the
    listed files, each once, stored with the last part of the key as name
    in the folder the parts before it lead to.  So the flattened map of
    [compareBackupFiles] has exactly the keys of the listing with their
    empty parts left out, and a key without an empty part is found under
    itself. *)
Theorem organize_keeps_files (files : list File) :
  (Forall (fun file =>
             exists k, listedKey file = Some k /\
                       Forall (fun folderName => folderName ∉ inherited)
                              (removelast (partsOf k))) files ->
   exists structure, organizeFilesByFolder files = inr structure) /\
  (forall structure, organizeFilesByFolder files = inr structure ->
     listing structure "" ≡ₚ placed <$> files /\
     length (listing structure "") = length files /\
     (forall k, k ∈ (flattenFiles structure).*1 <->
        exists file listed, file ∈ files /\ listedKey file = Some listed /\
                            k = normalKey listed)) /\
  (forall k, Forall (fun part => part <> EmptyString) (splitSlash k) -> normalKey k = k).
Proof.
  split; [|split].
  - intros Hfiles. by apply organizeFrom_returns.
  - intros structure Hrun. unfold organizeFilesByFolder in Hrun.
    pose proof (organizeFrom_listing files emptyNode structure Hrun) as Hperm.
    cbn [listing emptyNode fmap list_fmap app] in Hperm.
    pose proof (organizeFrom_keys files emptyNode structure Hrun) as Hkeys.
    split; [done|]. split; [by rewrite Hperm, length_fmap|].
    intros k. rewrite flattenFiles_keys, Hperm, <- list_fmap_compose, list_elem_of_fmap.
    split.
    + intros (file & -> & Hfile).
      destruct (proj1 (Forall_forall _ _) Hkeys file Hfile) as [listed Hlisted].
      exists file, listed. split; [done|]. split; [done|]. by apply flatKey_placed.
    + intros (file & listed & Hfile & Hlisted & ->). exists file. split; [|done].
      cbn. symmetry. by apply flatKey_placed.
  - apply normalKey_clean.
Qed.

End OrganizeFacts.

Lemma organize_keeps_files_witness :
  let logo := {| FileCompare.name := "logo.png"; FileCompare.key := "img/logo.png";
                 FileCompare.size := Some 200; FileCompare.lastModified := None |} in
  exists structure, Organize.organizeFilesByFolder [logo] = inr structure.
Proof.
  intros logo. apply (proj1 (organize_keeps_files [logo])).
  apply Forall_cons. split; [|apply Forall_nil_2].
  exists "img/logo.png"%string. split; [reflexivity|].
  apply Forall_cons. split; [|apply Forall_nil_2].
  apply (bool_decide_eq_false_1 _). vm_compute. reflexivity.
Defined.

(* ===================================================================== *)
(** * The listing of a bucket *)
(* ===================================================================== *)

Section S3ListingFacts.
Import FileCompare S3Listing.

Local Abbreviation tokens pages := (NextContinuationToken <$> pages).

Lemma last_cons_default {A} (x d : A) (l : list A) : List.last (x :: l) d = List.last l x.
Proof.
  revert x d. induction l as [|y l IH]; intros x d; [done|].
  change (List.last (x :: y :: l) d) with (List.last (y :: l) d). by rewrite !IH.
Qed.

(** The loop reads the pages that carry a token one after the other. *)
Lemma listLoop_pages (pages : list ListResponse) :
  Forall (fun page => Js.truthy (NextContinuationToken page) = true) pages ->
  forall (tail : list (string + ListResponse)) (token : option string)
         (files : list File) (sent : list (option string)),
    listLoop ((inr <$> pages) ++ tail) token files sent
    = listLoop tail (List.last (tokens pages) token)
        (files ++ mjoin (filesOf <$> pages))
        (sent ++ (tokenSent <$> removelast (token :: tokens pages))).
Proof.
  induction 1 as [|page pages Hpage _ IH]; intros tail token files sent.
  - cbn. by rewrite !app_nil_r.
  - rewrite !fmap_cons. cbn [app listLoop]. rewrite Hpage, IH.
    rewrite last_cons_default. cbn [mjoin list_join].
    change (removelast (token :: NextContinuationToken page :: tokens pages))
      with (token :: removelast (NextContinuationToken page :: tokens pages)).
    rewrite fmap_cons, <- !app_assoc. done.
Qed.

Lemma tokens_sent (pages : list ListResponse) :
  Forall (fun page => Js.truthy (NextContinuationToken page) = true) pages ->
  (tokenSent <$> removelast (None :: tokens pages))
  ++ [tokenSent (List.last (tokens pages) None)]
  = None :: tokens pages.
Proof.
  intros Hpages.
  rewrite <- (last_cons_default None None (tokens pages)).
  change [tokenSent (List.last (None :: tokens pages) None)]
    with (tokenSent <$> [List.last (None :: tokens pages) None]).
  rewrite <- fmap_app, <- app_removelast_last by done.
  rewrite fmap_cons. f_equal. induction Hpages as [|page pages Hpage _ IH]; [done|].
  rewrite !fmap_cons, IH. f_equal. unfold tokenSent. by rewrite Hpage.
Qed.

Lemma endsWith_cons (c : ascii) (s : string) :
  s <> EmptyString -> FileBackup.endsWith "/" (String c s) = FileBackup.endsWith "/" s.
Proof.
  intros Hs. destruct s as [|c' s']; [done|]. unfold FileBackup.endsWith.
  cbn [String.length Nat.leb andb].
  replace (S (S (String.length s')) - 1)%nat with (S (String.length s')) by lia.
  replace (S (String.length s') - 1)%nat with (String.length s') by lia.
  done.
Qed.

Lemma lastSegment_empty (k : string) :
  k <> EmptyString -> lastSegment k = EmptyString -> FileBackup.endsWith "/" k = true.
Proof.
  unfold lastSegment. induction k as [|c s IH]; [done|]. intros _.
  cbn [Organize.splitSlash].
  destruct (splitSlash_cons s) as (part & parts & Hs).
  destruct (Ascii.eqb_spec c "/") as [-> | Hc].
  - rewrite Hs, last_cons_default. intros Hlast.
    destruct s as [|c' s']; [done|]. rewrite endsWith_cons by done.
    apply IH; [done|]. rewrite Hs. by rewrite last_cons_default in Hlast |- *.
  - rewrite Hs in *. rewrite last_cons_default.
    destruct parts as [|p ps]; [done|]. intros Hlast.
    assert (s <> EmptyString) as Hne by (intros ->; done).
    rewrite endsWith_cons by done. apply IH; [done|].
    rewrite last_cons_default.
    rewrite last_cons_default in Hlast |- *. done.
Qed.

(** X27: the listing of a bucket reads every page.  With credentials, when
    the bucket answers the successive requests with pages that carry a
    token and then one that carries none, [getAllFilesFromS3] returns the
    objects of all these pages in their order, without those whose key ends
    in a slash; the first request carries no token and each later one the
    token of the page before it.  Each file returned has as name the part
    of its key after the last slash, which is not empty unless the key is.
    When a request fails instead, the call fails and what was read is
    dropped. *)
Theorem s3_listing_reads_all_pages (pages : list ListResponse) (last : ListResponse)
    (later : list (string + ListResponse)) (attributes env : Credentials) :
  Forall (fun page => Js.truthy (NextContinuationToken page) = true) pages ->
  Js.truthy (NextContinuationToken last) = false ->
  Js.truthy (Js.orElse (AWS_ACCESS_KEY_ID attributes) (AWS_ACCESS_KEY_ID env)) = true ->
  Js.truthy (Js.orElse (AWS_SECRET_ACCESS_KEY attributes) (AWS_SECRET_ACCESS_KEY env))
    = true ->
  let listed := mjoin (filesOf <$> pages ++ [last]) in
  getAllFilesFromS3 None attributes env ((inr <$> pages) ++ inr last :: later)
    = Some (inr listed) /\
  (listLoop ((inr <$> pages) ++ inr last :: later) None [] []).2 = None :: tokens pages /\
  (forall message,
     getAllFilesFromS3 None attributes env ((inr <$> pages) ++ inl message :: later)
     = Some (inl ("Failed to list S3 files: " ++ message)%string)) /\
  Forall (fun file => FileBackup.endsWith "/" (key file) = false /\
                      name file = lastSegment (key file) /\
                      (key file <> EmptyString -> name file <> EmptyString)) listed.
Proof.
  intros Hpages Hlast Hid Hsecret listed. unfold getAllFilesFromS3.
  rewrite Hid, Hsecret. cbn [negb orb]. rewrite !listLoop_pages by done.
  cbn [listLoop]. rewrite Hlast. cbn [fst snd app].
  split; [|split; [|split]].
  - unfold listed. rewrite fmap_app, join_app. cbn. by rewrite app_nil_r.
  - by apply tokens_sent.
  - intros message. rewrite listLoop_pages by done. done.
  - unfold listed. apply Forall_forall. intros file Hfile.
    apply list_elem_of_join in Hfile as (l & Hfile & Hl).
    apply list_elem_of_fmap in Hl as (page & -> & _).
    unfold filesOf in Hfile. apply list_elem_of_fmap in Hfile as (obj & -> & Hobj).
    apply list_elem_of_filter in Hobj as [Hkey _]. cbn [key name fileOf].
    split; [done|]. split; [done|].
    intros Hne Hempty. pose proof (lastSegment_empty _ Hne Hempty). congruence.
Qed.

End S3ListingFacts.

Lemma s3_listing_reads_all_pages_witness :
  let object k := {| S3Listing.Key := k; S3Listing.Size := Some 1;
                     S3Listing.LastModified := None; S3Listing.ETag := None |} in
  let first := {| S3Listing.Contents := Some [object "img/"; object "img/logo.png"]%string;
                  S3Listing.NextContinuationToken := Some "t1"%string |} in
  let second := {| S3Listing.Contents := Some [object "readme.txt"];
                   S3Listing.NextContinuationToken := None |} in
  let keys := {| S3Listing.S3_REGION := None;
                 S3Listing.AWS_ACCESS_KEY_ID := Some "id"%string;
                 S3Listing.AWS_SECRET_ACCESS_KEY := Some "secret"%string |} in
  S3Listing.getAllFilesFromS3 None keys keys [inr first; inr second]
  = Some (inr (S3Listing.fileOf <$> [object "img/logo.png"; object "readme.txt"]%string)).
Proof.
  intros object first second keys.
  exact (proj1 (s3_listing_reads_all_pages [first] second [] keys keys
                  ltac:(repeat constructor) eq_refl eq_refl eq_refl)).
Defined.

(* ===================================================================== *)
(** * The tables of the remote database, and the clearing script *)
(* ===================================================================== *)

Section RemoteTablesFacts.
Import RemoteTables.

Lemma sanitize_identifier (s : string) : isIdentifier (Js.sanitize s) = true.
Proof.
  induction s as [|c s IH]; [done|]. cbn [Js.sanitize].
  destruct (Js.isIdentChar c) eqn:E; [|done]. cbn [isIdentifier]. by rewrite E, IH.
Qed.

Lemma sanitize_fixed (s : string) : isIdentifier s = true -> Js.sanitize s = s.
Proof.
  induction s as [|c s IH]; [done|]. cbn [isIdentifier Js.sanitize].
  intros [-> Hs]%andb_prop. by rewrite (IH Hs).
Qed.

Lemma occurrences_app (c : ascii) (s t : string) :
  occurrences c (s ++ t) = (occurrences c s + occurrences c t)%nat.
Proof.
  induction s as [|c' s IH]; [done|].
  change (String c' s ++ t)%string with (String c' (s ++ t)%string).
  cbn [occurrences]. rewrite IH. lia.
Qed.

Lemma identifier_no_quote (s : string) :
  isIdentifier s = true -> occurrences "034" s = 0%nat.
Proof.
  induction s as [|c s IH]; [done|]. cbn [isIdentifier occurrences].
  intros [Hc Hs]%andb_prop. rewrite (IH Hs).
  destruct (Ascii.eqb_spec "034"%char c) as [<- | _]; [done | lia].
Qed.


Lemma counts_lookup (run : string -> string + Z) (tableNames : list string)
    (start : gmap string TableCount) (t : string) :
  foldl (fun result tableName =>
           <[tableName := {| count := getTableRowCount run tableName; error := None |}]>
             result) start tableNames !! t
  = if bool_decide (t ∈ tableNames)
    then Some {| count := getTableRowCount run t; error := None |}
    else start !! t.
Proof.
  revert start. induction tableNames as [|name names IH]; intros start; [done|].
  cbn [foldl]. rewrite IH.
  destruct (bool_decide_reflect (t ∈ names)) as [Hin | Hout].
  - rewrite bool_decide_eq_true_2; [done|]. by right.
  - destruct (decide (t = name)) as [-> | Hne].
    + rewrite bool_decide_eq_true_2 by left. by rewrite lookup_insert_eq.
    + rewrite bool_decide_eq_false_2 by (by intros [? | ?]%elem_of_cons).
      by rewrite lookup_insert_ne.
Qed.


End RemoteTablesFacts.

Section ClearScriptFacts.
Import ClearScript.

Variable fault : string -> option string.

Lemma clearTables_cases (allTables : list string) :
  forall db : Database,
    let run := clearTables fault allTables db in
    run.1 !! "settings"%string = db !! "settings"%string /\
    (forall t, t ∉ allTables -> run.1 !! t = db !! t) /\
    (forall t, run.1 !! t = db !! t \/ run.1 !! t = Some []) /\
    (run.2 = 0 \/ run.2 = 1) /\
    (run.2 = 0 ->
     forall t, t ∈ allTables -> t <> "settings"%string -> run.1 !! t = Some []) /\
    (run.2 = 1 ->
     exists cleared failing rest,
       allTables = cleared ++ failing :: rest /\
       failing <> "settings"%string /\
       (forall t, t ∈ cleared -> t <> "settings"%string -> run.1 !! t = Some []) /\
       (forall t, t ∉ cleared -> run.1 !! t = db !! t)).
Proof.
  induction allTables as [|name names IH]; intros db.
  - cbn. repeat split; try done; auto.
    + by intros _ t ?%elem_of_nil.
  - cbn [clearTables]. cbn zeta in IH.
    destruct (bool_decide_reflect (name = "settings"%string)) as [-> | Hne].
    { destruct (IH db) as (Hs & Hframe & Hany & Hcode & Hok & Hfail).
      split; [done|]. split; [intros t [_ Ht]%not_elem_of_cons; by apply Hframe|].
      split; [done|]. split; [done|]. split.
      - intros Hz t [-> | Ht]%elem_of_cons Hn; [done | by apply Hok].
      - intros Hone. destruct (Hfail Hone) as (cleared & failing & rest & -> & Hf & Hc & Hu).
        exists ("settings"%string :: cleared), failing, rest. split; [done|]. split; [done|].
        split.
        + intros t [-> | Ht]%elem_of_cons Hn; [done | by apply Hc].
        + intros t [_ Ht]%not_elem_of_cons. by apply Hu. }
    unfold deleteFrom. destruct (fault name) as [message|] eqn:Hfault.
    { cbn. split; [done|]. split; [done|]. split; [by left|]. split; [by right|].
      split; [done|]. intros _. exists [], name, names. repeat split; try done.
      by intros t ?%elem_of_nil. }
    destruct (db !! name) as [rows|] eqn:Hrows.
    2:{ cbn. split; [done|]. split; [done|]. split; [by left|]. split; [by right|].
        split; [done|]. intros _. exists [], name, names. repeat split; try done.
        by intros t ?%elem_of_nil. }
    destruct (IH (<[name := []]> db)) as (Hs & Hframe & Hany & Hcode & Hok & Hfail).
    split; [by rewrite Hs, lookup_insert_ne|]. split.
    { intros t [Hn Ht]%not_elem_of_cons. by rewrite Hframe, lookup_insert_ne. }
    split.
    { intros t. destruct (Hany t) as [H | H]; [|by right].
      rewrite H. destruct (decide (t = name)) as [-> | Hn].
      - right. apply lookup_insert_eq.
      - left. by rewrite lookup_insert_ne. }
    split; [done|]. split.
    { intros Hz t [-> | Ht]%elem_of_cons Hn; [|by apply Hok].
      destruct (Hany name) as [H | H]; [|done]. rewrite H. apply lookup_insert_eq. }
    intros Hone. destruct (Hfail Hone) as (cleared & failing & rest & -> & Hf & Hc & Hu).
    exists (name :: cleared), failing, rest. split; [done|]. split; [done|]. split.
    + intros t [-> | Ht]%elem_of_cons Hn; [|by apply Hc].
      destruct (Hany name) as [H | H]; [|done]. rewrite H. apply lookup_insert_eq.
    + intros t [Hn Ht]%not_elem_of_cons. by rewrite Hu, lookup_insert_ne.
Qed.


End ClearScriptFacts.


